(** * Home Connect appliance engine

    A shallow embedding of the device state synchronisation engine of the
    Homebridge Home Connect plugin ([homeconnect_device.js]) and of the
    request coalescing of the generic appliance accessory ([serialise]).

    The engine is single threaded: everything happens in callbacks run by the
    event loop.  The embedding therefore is a step function.  One step is one
    callback: the next event of the event stream, the expiry of a timer, the
    completion of a transport call, or a call made by the accessory layer.
    Asynchronous functions are cut at their [await]: the part before it runs in
    the step that calls them, the part after it in the step that delivers the
    response. *)

From stdpp Require Import gmap strings list pretty.
From Stdlib Require Import ZArith Lia.

(** ** Constants of the module *)

Definition EVENT_DISCONNECT_DELAY : Z := 3.
Definition CONNECTED_RETRY_MIN_DELAY : Z := 5.
Definition CONNECTED_RETRY_MAX_DELAY : Z := 10 * 60.
Definition CONNECTED_RETRY_FACTOR : Z := 2.
Definition POWERSTATE_BLACKOUT : Z := 2.
Definition MS : Z := 1000.

(** ** Values and items *)

(** The JavaScript values an item can carry. *)
Inductive Value :=
| VUndef
| VNull
| VBool (b : bool)
| VNum (n : Z)
| VStr (s : string).

#[global] Instance Value_eq_dec : EqDecision Value.
Proof. solve_decision. Defined.

(** JavaScript truthiness, as used by [if (x)] and [!x]. *)
Definition truthy (v : Value) : bool :=
  match v with
  | VUndef | VNull => false
  | VBool b => b
  | VNum n => negb (n =? 0)%Z
  | VStr s => negb (String.eqb s "")
  end.

Record Item := { key : string; value : Value }.

#[global] Instance Item_eq_dec : EqDecision Item.
Proof. solve_decision. Defined.

Definition K_connected : string := "connected".
Definition K_PowerState : string := "BSH.Common.Setting.PowerState".
Definition K_OperationState : string := "BSH.Common.Status.OperationState".
Definition K_LocalControlActive : string := "BSH.Common.Status.LocalControlActive".
Definition K_RemoteControlActive : string := "BSH.Common.Status.RemoteControlActive".
Definition K_RemoteControlStartAllowed : string :=
  "BSH.Common.Status.RemoteControlStartAllowed".
Definition K_SelectedProgram : string := "BSH.Common.Root.SelectedProgram".
Definition K_ActiveProgram : string := "BSH.Common.Root.ActiveProgram".

Definition PowerState_On : Value := VStr "BSH.Common.EnumType.PowerState.On".
Definition PowerState_Standby : Value := VStr "BSH.Common.EnumType.PowerState.Standby".
Definition PowerState_Off : Value := VStr "BSH.Common.EnumType.PowerState.Off".

Definition OperationState_Inactive : string := "BSH.Common.EnumType.OperationState.Inactive".
Definition OperationState_Ready : string := "BSH.Common.EnumType.OperationState.Ready".
Definition OperationState_Run : string := "BSH.Common.EnumType.OperationState.Run".
Definition OperationState_DelayedStart : string :=
  "BSH.Common.EnumType.OperationState.DelayedStart".
Definition OperationState_Pause : string := "BSH.Common.EnumType.OperationState.Pause".
Definition OperationState_ActionRequired : string :=
  "BSH.Common.EnumType.OperationState.ActionRequired".

(** ** Errors, operations, transport requests and responses *)

Inductive Error :=
| ErrScope (scope : string)   (* '<scope> scope has not been authorised' *)
| ErrOffline                  (* 'The appliance is offline' *)
| ErrLocalControl             (* 'Appliance is being manually controlled locally' *)
| ErrRemoteControl            (* 'Remote control not enabled on the appliance' *)
| ErrRemoteStart              (* 'Remote start not enabled on the appliance' *)
| ErrEmpty                    (* 'Empty response' *)
| ErrApi (code : string)      (* APIStatusCodeError with its key *)
| ErrOther (msg : string).    (* any other rejection or runtime error *)

#[global] Instance Error_eq_dec : EqDecision Error.
Proof. solve_decision. Defined.

(** The asynchronous operations of the device, in the order of the source. *)
Inductive Op :=
| GetAppliance
| GetStatus
| GetSettings
| GetSetting (settingKey : string)
| SetSetting (settingKey : string) (v : Value)
| GetAllPrograms
| GetAvailablePrograms
| GetAvailableProgram (programKey : Value)
| GetSelectedProgram
| SetSelectedProgram (programKey : Value) (options : list Item)
| GetActiveProgram
| StartProgram (programKey : Value) (options : list Item)
| StopProgram
| GetCommands
| PauseProgram (pause : bool)
| OpenDoor (fully : bool)
| SetActiveProgramOption (optionKey : string) (v : Value).

(** Calls on the transport object [this.api] (the appliance id is left out). *)
Inductive Request :=
| ApiGetAppliance
| ApiGetStatus
| ApiGetSettings
| ApiGetSetting (settingKey : string)
| ApiSetSetting (settingKey : string) (v : Value)
| ApiGetPrograms
| ApiGetAvailablePrograms
| ApiGetAvailableProgram (programKey : Value)
| ApiGetSelectedProgram
| ApiSetSelectedProgram (programKey : Value) (options : list Item)
| ApiGetActiveProgram
| ApiSetActiveProgram (programKey : Value) (options : list Item)
| ApiStopActiveProgram
| ApiGetCommands
| ApiSetCommand (command : string)
| ApiSetActiveProgramOption (optionKey : string) (v : Value).

(** What a transport call settles with.  A program comes with its key and
    its options; the result of [getPrograms] and [getAvailablePrograms] with
    its members [active] and [selected], each a program or absent. *)
Inductive Response :=
| RUndefined
| RAppliance (isConnected : option bool)
| RItems (its : list Item)
| RItem (it : Item)
| RProgram (programKey : Value) (options : list Item)
| RPrograms (active selected : option (Value * list Item))
| RCommands (commands : list string)
| RFail (e : Error).

(** The transport settles a call with a value of the type of its result,
    with [undefined], or with a rejection. *)
Definition well_shaped (o : Op) (r : Response) : bool :=
  match r, o with
  | RFail _, _ | RUndefined, _ => true
  | RAppliance _, GetAppliance => true
  | RItems _, (GetStatus | GetSettings) => true
  | RItem _, GetSetting _ => true
  | RProgram _ _, (GetSelectedProgram | GetActiveProgram | GetAvailableProgram _) => true
  | RPrograms _ _, (GetAllPrograms | GetAvailablePrograms) => true
  | RCommands _, GetCommands => true
  | _, _ => false
  end.

(** How a call of an operation ends for its caller. *)
Inductive Outcome :=
| Returned
| ReturnedNull
| ReturnedEmpty               (* [return []] *)
| Threw (e : Error).

(** ** Log lines and observable events *)

Inductive LogMsg :=
| LogEvent (event : string) (itemCount : nat)
| LogEmitError (k : string) (v : Value)
| LogImpliesOnIgnored
| LogImpliesOn
| LogImpliesOff
| LogStopElapsed
| LogPaired
| LogDepaired
| LogConnected
| LogDisconnected
| LogUnsupported (event : string)
| LogDeviceEvents
| LogReading (isConnected : bool)
| LogAlreadyPending
| LogAbandoning (n : nat)
| LogReadAllSuccess
| LogReadAllAbandoned
| LogReadAllRetry (e : Error) (delay : Z)
| LogReadAllIgnored (e : Error)
| LogOpError (o : Op) (e : Error)
| LogIgnoringGetActive
| LogIgnoringStop.

(** What a step does that the outside can see.  [EvEmit] stands for lines 74
    and 76 of [update]: the debug line with the listener count and the call of
    [emit]; [EvNotify] is one observer being called, with the item store as it
    could read it through [getItem] at that moment; [EvInfer] brackets what the
    power state inference does inside its listener. *)
#[local] Unset Elimination Schemes.
Inductive Ev :=
| EvLog (m : LogMsg)
| EvEmit (k : string) (v : Value) (listenerCount : nat)
| EvNotify (lid : nat) (k : string) (v : Value) (snapshot : gmap string Value)
| EvInfer (nested : list Ev)
| EvCall (cid : nat) (r : Request)
| EvSettled (cid : nat) (o : Outcome).
#[local] Set Elimination Schemes.

(** ** Listeners, timers and the device object *)

(** Listeners registered on the device (an EventEmitter).  The first two are
    the ones [inferPowerState] registers in the constructor; an observer is a
    callback of the accessory layer: it may read the item store and it may
    throw. *)
Inductive Listener :=
| LBlackout
| LInfer
| LObserver (lid : nat) (k : string) (throws : gmap string Value → Value → bool).

Definition listener_key (l : Listener) : string :=
  match l with
  | LBlackout => K_PowerState
  | LInfer => K_OperationState
  | LObserver _ k _ => k
  end.

Inductive Callback :=
| CbStop
| CbSetConnected (isConnected : option bool)
| CbReadAll
| CbBlackout.

Record Timer := { tid : nat; delay : Z; callback : Callback }.

(** What resumes when a transport call settles: an action of [readAll] (with
    the identity of the array [actions] captured before the [await]) or an
    operation called by the accessory layer. *)
Inductive Cont :=
| KReadAll (actions : nat) (o : Op)
| KUser (o : Op).

Record Device := {
  haId : string;
  haType : string;
  connected : option bool;
  items : gmap string Value;
  listeners : list Listener;
  stopEvents : bool;
  streamEnded : bool;
  hasPrograms : bool;
  blackoutScheduled : option nat;
  setConnectedScheduled : option nat;
  stopScheduled : option nat;
  readAllScheduled : option nat;
  readAllActions : option (nat * list Op);
  timers : list Timer;
  calls : list (nat * Cont);
  nextId : nat
}.

Definition set_connected (x : option bool) (d : Device) : Device :=
  Build_Device (haId d) (haType d) x (items d) (listeners d) (stopEvents d) (streamEnded d) (hasPrograms d) (blackoutScheduled d) (setConnectedScheduled d) (stopScheduled d) (readAllScheduled d) (readAllActions d) (timers d) (calls d) (nextId d).
Definition set_items (x : gmap string Value) (d : Device) : Device :=
  Build_Device (haId d) (haType d) (connected d) x (listeners d) (stopEvents d) (streamEnded d) (hasPrograms d) (blackoutScheduled d) (setConnectedScheduled d) (stopScheduled d) (readAllScheduled d) (readAllActions d) (timers d) (calls d) (nextId d).
Definition set_listeners (x : list Listener) (d : Device) : Device :=
  Build_Device (haId d) (haType d) (connected d) (items d) x (stopEvents d) (streamEnded d) (hasPrograms d) (blackoutScheduled d) (setConnectedScheduled d) (stopScheduled d) (readAllScheduled d) (readAllActions d) (timers d) (calls d) (nextId d).
Definition set_stopEvents (x : bool) (d : Device) : Device :=
  Build_Device (haId d) (haType d) (connected d) (items d) (listeners d) x (streamEnded d) (hasPrograms d) (blackoutScheduled d) (setConnectedScheduled d) (stopScheduled d) (readAllScheduled d) (readAllActions d) (timers d) (calls d) (nextId d).
Definition set_streamEnded (x : bool) (d : Device) : Device :=
  Build_Device (haId d) (haType d) (connected d) (items d) (listeners d) (stopEvents d) x (hasPrograms d) (blackoutScheduled d) (setConnectedScheduled d) (stopScheduled d) (readAllScheduled d) (readAllActions d) (timers d) (calls d) (nextId d).
Definition set_hasPrograms (x : bool) (d : Device) : Device :=
  Build_Device (haId d) (haType d) (connected d) (items d) (listeners d) (stopEvents d) (streamEnded d) x (blackoutScheduled d) (setConnectedScheduled d) (stopScheduled d) (readAllScheduled d) (readAllActions d) (timers d) (calls d) (nextId d).
Definition set_blackoutScheduled (x : option nat) (d : Device) : Device :=
  Build_Device (haId d) (haType d) (connected d) (items d) (listeners d) (stopEvents d) (streamEnded d) (hasPrograms d) x (setConnectedScheduled d) (stopScheduled d) (readAllScheduled d) (readAllActions d) (timers d) (calls d) (nextId d).
Definition set_setConnectedScheduled (x : option nat) (d : Device) : Device :=
  Build_Device (haId d) (haType d) (connected d) (items d) (listeners d) (stopEvents d) (streamEnded d) (hasPrograms d) (blackoutScheduled d) x (stopScheduled d) (readAllScheduled d) (readAllActions d) (timers d) (calls d) (nextId d).
Definition set_stopScheduled (x : option nat) (d : Device) : Device :=
  Build_Device (haId d) (haType d) (connected d) (items d) (listeners d) (stopEvents d) (streamEnded d) (hasPrograms d) (blackoutScheduled d) (setConnectedScheduled d) x (readAllScheduled d) (readAllActions d) (timers d) (calls d) (nextId d).
Definition set_readAllScheduled (x : option nat) (d : Device) : Device :=
  Build_Device (haId d) (haType d) (connected d) (items d) (listeners d) (stopEvents d) (streamEnded d) (hasPrograms d) (blackoutScheduled d) (setConnectedScheduled d) (stopScheduled d) x (readAllActions d) (timers d) (calls d) (nextId d).
Definition set_readAllActions (x : option (nat * list Op)) (d : Device) : Device :=
  Build_Device (haId d) (haType d) (connected d) (items d) (listeners d) (stopEvents d) (streamEnded d) (hasPrograms d) (blackoutScheduled d) (setConnectedScheduled d) (stopScheduled d) (readAllScheduled d) x (timers d) (calls d) (nextId d).
Definition set_timers (x : list Timer) (d : Device) : Device :=
  Build_Device (haId d) (haType d) (connected d) (items d) (listeners d) (stopEvents d) (streamEnded d) (hasPrograms d) (blackoutScheduled d) (setConnectedScheduled d) (stopScheduled d) (readAllScheduled d) (readAllActions d) x (calls d) (nextId d).
Definition set_calls (x : list (nat * Cont)) (d : Device) : Device :=
  Build_Device (haId d) (haType d) (connected d) (items d) (listeners d) (stopEvents d) (streamEnded d) (hasPrograms d) (blackoutScheduled d) (setConnectedScheduled d) (stopScheduled d) (readAllScheduled d) (readAllActions d) (timers d) x (nextId d).
Definition set_nextId (x : nat) (d : Device) : Device :=
  Build_Device (haId d) (haType d) (connected d) (items d) (listeners d) (stopEvents d) (streamEnded d) (hasPrograms d) (blackoutScheduled d) (setConnectedScheduled d) (stopScheduled d) (readAllScheduled d) (readAllActions d) (timers d) (calls d) x.

(** The transport object, shared by all devices of the platform. *)
Record Api := {
  api_hasScope : string → bool;
  readAllRetryDelay : option Z
}.

Definition set_readAllRetryDelay (x : option Z) (a : Api) : Api :=
  {| api_hasScope := api_hasScope a; readAllRetryDelay := x |}.

(** ** Timers *)

(** [setTimeout(cb, ms)]: a fresh handle, the timer added to the pending ones. *)
Definition setTimeout (cb : Callback) (ms : Z) (d : Device) : nat * Device :=
  let t := nextId d in
  (t, set_nextId (S t) (set_timers (timers d ++ [{| tid := t; delay := ms; callback := cb |}]) d)).

(** [clearTimeout(h)]: nothing happens for [undefined] or a timer that fired. *)
Definition clearTimeout (h : option nat) (d : Device) : Device :=
  match h with
  | None => d
  | Some t => set_timers (filter (λ x, tid x ≠ t) (timers d)) d
  end.

Definition pending (t : nat) (d : Device) : bool :=
  bool_decide (t ∈ map tid (timers d)).

(** ** The item store and [update]

    [this.items] is an object used as a map; [items] holds its own entries.
    The keys are the keys of Home Connect items (and [connected]): the names
    that every object inherits ([toString], [constructor], ...) are not read
    before they are written, and nothing is written to [__proto__], the one
    name for which an assignment creates no entry. *)

Definition getItem (k : string) (d : Device) : Value := default VUndef (items d !! k).

(** First loop of [update]: [this.items[item.key] = item.value] for each item. *)
Definition store_all (its : list Item) (m : gmap string Value) : gmap string Value :=
  foldl (λ m it, <[key it := value it]> m) m its.

Definition listenerCount (k : string) (d : Device) : nat :=
  length (filter (λ l, listener_key l = k) (listeners d)).

(** The listener of [inferPowerState] on the power setting: the blackout
    starts again. *)
Definition arm_blackout (d : Device) : Device :=
  let d1 := clearTimeout (blackoutScheduled d) d in
  let '(t, d2) := setTimeout CbBlackout (POWERSTATE_BLACKOUT * MS) d1 in
  set_blackoutScheduled (Some t) d2.

Section Update.
(** What the operation state listener does; [update] ties the knot below. *)
Variable on_operation_state : Value → Device → Device * list Ev.

(** [emit(k, v)] over the listeners registered for [k], in registration
    order.  A listener that throws ends the emit: the ones after it are not
    called and the exception leaves [emit]. *)
Fixpoint call_listeners (k : string) (v : Value) (ls : list Listener) (d : Device)
  : Device * list Ev * bool :=
  match ls with
  | [] => (d, [], false)
  | l :: ls' =>
      if decide (listener_key l = k) then
        match l with
        | LBlackout => call_listeners k v ls' (arm_blackout d)
        | LInfer =>
            let '(d1, evs1) := on_operation_state v d in
            let '(d2, evs2, threw) := call_listeners k v ls' d1 in
            (d2, EvInfer evs1 :: evs2, threw)
        | LObserver lid _ throws =>
            if throws (items d) v then (d, [EvNotify lid k v (items d)], true)
            else
              let '(d1, evs, threw) := call_listeners k v ls' d in
              (d1, EvNotify lid k v (items d) :: evs, threw)
        end
      else call_listeners k v ls' d
  end.

(** Body of the second loop of [update] for one item.  The emit throws
    when a listener throws, and also, as every EventEmitter does, for the
    key ["error"] when nobody listens to it. *)
Definition notify_item (it : Item) (d : Device) : Device * list Ev :=
  let n := listenerCount (key it) d in
  let '(d1, evs, threw) := call_listeners (key it) (value it) (listeners d) d in
  let unhandled := bool_decide (key it = "error") && bool_decide (n = 0) in
  (d1, EvEmit (key it) (value it) n :: evs
       ++ (if threw || unhandled
           then [EvLog (LogEmitError (key it) (value it))] else [])).

Fixpoint notify_all (its : list Item) (d : Device) : Device * list Ev :=
  match its with
  | [] => (d, [])
  | it :: its' =>
      let '(d1, evs1) := notify_item it d in
      let '(d2, evs2) := notify_all its' d1 in
      (d2, evs1 ++ evs2)
  end.

Definition update_with (its : list Item) (d : Device) : Device * list Ev :=
  notify_all its (set_items (store_all its (items d)) d).
End Update.

(** [operationState in operationPowerMap]: the three own keys of the object
    literal, and the names it inherits from [Object.prototype]. *)
Definition operationPowerMap_own (s : string) : option bool :=
  if decide (s = OperationState_Inactive) then Some false
  else if decide (s = OperationState_Ready) then Some true
  else if decide (s = OperationState_Run) then Some true
  else None.

Definition object_prototype_names : list string :=
  ["constructor"; "__defineGetter__"; "__defineSetter__"; "hasOwnProperty";
   "__lookupGetter__"; "__lookupSetter__"; "isPrototypeOf"; "propertyIsEnumerable";
   "toString"; "valueOf"; "__proto__"; "toLocaleString"].

(** The property key a value is converted to by [in]. *)
Definition property_name (v : Value) : option string :=
  match v with
  | VStr s => Some s
  | VBool true => Some "true"
  | VBool false => Some "false"
  | VUndef => Some "undefined"
  | VNull => Some "null"
  | VNum _ => None   (* a decimal numeral: none of the names below *)
  end.

(** [None]: the listener returns at once; [Some b]: [operationImpliesOn] is
    [b] (an inherited member is a truthy object). *)
Definition operationImpliesOn (operationState : Value) : option bool :=
  match property_name operationState with
  | Some s =>
      match operationPowerMap_own s with
      | Some b => Some b
      | None => if bool_decide (s ∈ object_prototype_names) then Some true else None
      end
  | None => None
  end.

Definition power_item (v : Value) : Item := {| key := K_PowerState; value := v |}.

(** The listener of [inferPowerState] on the operation state. *)
Definition infer_power (upd : list Item → Device → Device * list Ev)
    (operationState : Value) (d : Device) : Device * list Ev :=
  match operationImpliesOn operationState with
  | None => (d, [])
  | Some impliesOn =>
      let powerState := getItem K_PowerState d in
      let stateIsOn := bool_decide (powerState = PowerState_On) in
      if impliesOn && negb stateIsOn then
        match blackoutScheduled d with
        | Some _ => (d, [EvLog LogImpliesOnIgnored])
        | None =>
            let '(d1, evs) := upd [power_item PowerState_On] d in
            (d1, EvLog LogImpliesOn :: evs)
        end
      else if negb impliesOn && stateIsOn then
        let '(d1, evs) := upd [power_item PowerState_Standby] d in
        (d1, EvLog LogImpliesOff :: evs)
      else (d, [])
  end.

(** [update] called from inside the operation state listener: the item it
    publishes is the power state, whose listeners never call [update] again. *)
Definition update_nested : list Item → Device → Device * list Ev :=
  update_with (λ _ d, (d, [])).

(** [update(items)]. *)
Definition update : list Item → Device → Device * list Ev :=
  update_with (infer_power update_nested).

Definition item (k : string) (v : Value) : Item := {| key := k; value := v |}.

(** ** The capability gate *)

(** A [require...] method: [None] when it returns, [Some e] when it throws. *)
Definition Gate := Api → Device → option Error.

(** [g1(); g2()] *)
Definition gate_seq (g1 g2 : Gate) : Gate :=
  λ a d, match g1 a d with Some e => Some e | None => g2 a d end.

Definition is_connected (d : Device) : bool :=
  match connected d with Some true => true | _ => false end.

Definition requireConnected : Gate :=
  λ _ d, if is_connected d then None else Some ErrOffline.

Definition requireIdentify : Gate :=
  λ a _, if api_hasScope a "IdentifyAppliance" then None else Some (ErrScope "IdentifyAppliance").

Definition hasScope (a : Api) (d : Device) (scope : string) : bool :=
  api_hasScope a scope || api_hasScope a (haType d +:+ "-" +:+ scope).

Definition requireScope (scope : string) : Gate :=
  gate_seq (λ a d, if hasScope a d scope then None else Some (ErrScope scope))
           requireConnected.

Definition requireMonitor : Gate := requireScope "Monitor".
Definition requireSettings : Gate := requireScope "Settings".
Definition requireControl : Gate := requireScope "Control".

Definition requireRemoteControl : Gate :=
  λ _ d,
    if truthy (getItem K_LocalControlActive d) then Some ErrLocalControl
    else if bool_decide (getItem K_RemoteControlActive d = VBool false) then Some ErrRemoteControl
    else None.

Definition requireRemoteStart : Gate :=
  gate_seq requireRemoteControl
    (λ _ d, if bool_decide (getItem K_RemoteControlStartAllowed d = VBool false)
            then Some ErrRemoteStart else None).

(** ** The operations, cut at their [await] *)

(** How the part of an operation before its [await] ends: it throws, it calls
    the transport (and the operation, with its local variables as they are
    then, waits for the response), or it returns without a transport call. *)
Inductive Begin :=
| BThrow (e : Error)
| BCall (r : Request) (waiting : Op)
| BDone (o : Outcome) (evs : list Ev).

Definition gated (g : Gate) (a : Api) (d : Device) (r : Request) (waiting : Op) : Begin :=
  match g a d with
  | Some e => BThrow e
  | None => BCall r waiting
  end.

Definition inactiveStates : list Value :=
  [VStr OperationState_Inactive; VStr OperationState_Ready].

Definition activeStates : list Value :=
  [VStr OperationState_DelayedStart; VStr OperationState_Run;
   VStr OperationState_Pause; VStr OperationState_ActionRequired].

Definition includes (l : list Value) (v : Value) : bool := bool_decide (v ∈ l).

Definition command_pause (pause : bool) : string :=
  if pause then "BSH.Common.Command.PauseProgram" else "BSH.Common.Command.ResumeProgram".

Definition command_door (fully : bool) : string :=
  if fully then "BSH.Common.Command.OpenDoor" else "BSH.Common.Command.PartlyOpenDoor".

Definition op_begin (a : Api) (d : Device) (o : Op) : Begin :=
  match o with
  | GetAppliance => gated requireIdentify a d ApiGetAppliance o
  | GetStatus => gated requireMonitor a d ApiGetStatus o
  | GetSettings => gated requireSettings a d ApiGetSettings o
  | GetSetting k => gated requireSettings a d (ApiGetSetting k) o
  | SetSetting k v =>
      gated (gate_seq requireSettings requireRemoteControl) a d (ApiSetSetting k v) o
  | GetAllPrograms => gated requireMonitor a d ApiGetPrograms o
  | GetAvailablePrograms => gated requireMonitor a d ApiGetAvailablePrograms o
  | GetAvailableProgram programKey =>
      gated requireMonitor a d (ApiGetAvailableProgram programKey) o
  | GetSelectedProgram => gated requireMonitor a d ApiGetSelectedProgram o
  | SetSelectedProgram programKey options =>
      gated (gate_seq requireControl requireRemoteControl) a d
            (ApiSetSelectedProgram programKey options) o
  | GetActiveProgram =>
      if includes inactiveStates (getItem K_OperationState d)
      then BDone ReturnedNull [EvLog LogIgnoringGetActive]
      else gated requireMonitor a d ApiGetActiveProgram o
  | StartProgram programKey options =>
      let programKey' :=
        if truthy programKey then programKey else getItem K_SelectedProgram d in
      gated (gate_seq requireControl requireRemoteStart) a d
            (ApiSetActiveProgram programKey' options) (StartProgram programKey' options)
  | StopProgram =>
      if includes activeStates (getItem K_OperationState d)
      then gated (gate_seq requireControl requireRemoteControl) a d ApiStopActiveProgram o
      else BDone Returned [EvLog LogIgnoringStop]
  | GetCommands => gated requireControl a d ApiGetCommands o
  | PauseProgram pause =>
      gated (gate_seq requireControl requireRemoteControl) a d
            (ApiSetCommand (command_pause pause)) o
  | OpenDoor fully =>
      gated requireControl a d (ApiSetCommand (command_door fully)) o
  | SetActiveProgramOption k v =>
      gated (gate_seq requireControl requireRemoteControl) a d
            (ApiSetActiveProgramOption k v) o
  end.

(** The [catch] of an operation for an error of the transport: the error
    codes an operation turns into a result. *)
Definition suppressed (o : Op) (e : Error) : bool :=
  match o, e with
  | GetSetting _, ErrApi code =>
      String.eqb code "SDK.Error.UnsupportedSetting"
      || String.eqb code "SDK.Simulator.InternalError"
  | GetAvailablePrograms, ErrApi code => String.eqb code "SDK.Error.WrongOperationState"
  | GetSelectedProgram, ErrApi code => String.eqb code "SDK.Error.NoProgramSelected"
  | GetActiveProgram, ErrApi code => String.eqb code "SDK.Error.NoProgramActive"
  | GetCommands, ErrApi code => String.eqb code "404"
  | _, _ => false
  end.

(** What the operation returns instead: [null], or [[]] where it returns a
    list. *)
Definition suppressed_result (o : Op) : Outcome :=
  match o with
  | GetAvailablePrograms | GetCommands => ReturnedEmpty
  | _ => ReturnedNull
  end.

(** [throw logError(this.log, ..., err)]: the error is logged and thrown on. *)
Definition op_throw (o : Op) (e : Error) (d : Device) : Device * list Ev * Outcome :=
  if suppressed o e then (d, [], suppressed_result o)
  else (d, [EvLog (LogOpError o e)], Threw e).

(** ** Connectivity *)

(** [onDisconnected]: abort refreshing appliance information. *)
Definition onDisconnected (d : Device) : Device * list Ev :=
  (set_readAllActions None d,
   match readAllActions d with
   | Some (_, o :: q) => [EvLog (LogAbandoning (length (o :: q)))]
   | _ => []
   end).

(** The actions [onConnected] queues. *)
Definition readAll_actions (d : Device) : list Op :=
  [GetAppliance; GetStatus; GetSettings]
  ++ (if hasPrograms d then [GetSelectedProgram; GetActiveProgram] else []).

(** [onConnected]: queue the reads of the appliance state, unless a queue
    exists already (also an empty one, left by a completed read). *)
Definition onConnected (d : Device) : Device * list Ev :=
  match readAllActions d with
  | Some _ => (d, [])
  | None =>
      let arr := nextId d in
      let d1 := set_nextId (S arr) (set_readAllActions (Some (arr, readAll_actions d)) d) in
      match readAllScheduled d1 with
      | None =>
          let '(t, d2) := setTimeout CbReadAll 0 d1 in
          (set_readAllScheduled (Some t) d2, [EvLog (LogReading (is_connected d))])
      | Some _ => (d1, [EvLog LogAlreadyPending])
      end
  end.

(** [setConnectedState(isConnected)]; the argument is [None] when the method
    is called without one. *)
Definition setConnectedState (isConnected : option bool) (d : Device) : Device * list Ev :=
  let d1 := match isConnected with Some b => set_connected (Some b) d | None => d end in
  let '(d2, evs) :=
    match isConnected with Some false => onDisconnected d1 | _ => (d1, []) end in
  let d3 := clearTimeout (setConnectedScheduled d2) d2 in
  let '(t, d4) := setTimeout (CbSetConnected isConnected) 0 d3 in
  (set_setConnectedScheduled (Some t) d4, evs).

(** The callback [setConnectedState] schedules. *)
Definition setConnected_elapsed (isConnected : option bool) (d : Device) : Device * list Ev :=
  let '(d1, evs1) :=
    if negb (is_connected d) && negb (bool_decide (getItem K_connected d = VBool false))
    then update [item K_connected (VBool false)] d
    else (d, []) in
  let '(d2, evs2) :=
    match isConnected with Some false => (d1, []) | _ => onConnected d1 end in
  (d2, evs1 ++ evs2).

(** ** The part of an operation after its [await] *)

(** [programs.active?.key], [programs.selected?.key]: the program, when it
    is there and its key is truthy. *)
Definition with_key (program : option (Value * list Item)) : option (Value * list Item) :=
  match program with
  | Some (programKey, options) => if truthy programKey then program else None
  | None => None
  end.

(** The program whose key and options [getAllPrograms] and
    [getAvailablePrograms] hand to [update], with the key they store it
    under: the active program, else the selected one. *)
Definition reported_program (active selected : option (Value * list Item))
  : option (string * Value * list Item) :=
  match with_key active with
  | Some (programKey, options) => Some (K_ActiveProgram, programKey, options)
  | None =>
      match with_key selected with
      | Some (programKey, options) => Some (K_SelectedProgram, programKey, options)
      | None => None
      end
  end.

(** Reading a member of [undefined]. *)
Definition TypeError : Error := ErrOther "TypeError".

Definition op_resume (o : Op) (r : Response) (d : Device) : Device * list Ev * Outcome :=
  match r with
  | RFail e => op_throw o e d
  | _ =>
      match o with
      | GetAppliance =>
          match r with
          | RAppliance isConnected =>
              let '(d1, evs) := setConnectedState isConnected d in (d1, evs, Returned)
          | _ => op_throw o ErrEmpty d
          end
      | GetStatus | GetSettings =>
          match r with
          | RItems its => let '(d1, evs) := update its d in (d1, evs, Returned)
          | _ => op_throw o ErrEmpty d
          end
      | GetSetting _ =>
          match r with
          | RItem it => let '(d1, evs) := update [it] d in (d1, evs, Returned)
          | _ => op_throw o ErrEmpty d
          end
      | GetAllPrograms | GetAvailablePrograms =>
          match r with
          | RPrograms active selected =>
              match reported_program active selected with
              | Some (k, programKey, options) =>
                  let '(d1, evs1) := update [item k programKey] d in
                  let '(d2, evs2) := update options d1 in
                  (d2, evs1 ++ evs2, Returned)
              | None => (d, [], Returned)
              end
          | _ => op_throw o TypeError d
          end
      | GetAvailableProgram _ =>
          match r with
          | RProgram _ _ => (d, [], Returned)
          | _ => op_throw o ErrEmpty d
          end
      | GetCommands =>
          match r with
          | RCommands _ => (d, [], Returned)
          | _ => op_throw o ErrEmpty d
          end
      | GetSelectedProgram =>
          match r with
          | RProgram programKey options =>
              let '(d1, evs1) := update [item K_SelectedProgram programKey] d in
              if bool_decide (getItem K_OperationState d1 = VStr OperationState_Ready) then
                let '(d2, evs2) := update options d1 in (d2, evs1 ++ evs2, Returned)
              else (d1, evs1, Returned)
          | _ => op_throw o ErrEmpty d
          end
      | GetActiveProgram =>
          match r with
          | RProgram programKey options =>
              let '(d1, evs1) := update [item K_ActiveProgram programKey] d in
              let '(d2, evs2) := update options d1 in
              (d2, evs1 ++ evs2, Returned)
          | _ => op_throw o ErrEmpty d
          end
      | SetSetting k v | SetActiveProgramOption k v =>
          let '(d1, evs) := update [item k v] d in (d1, evs, Returned)
      | SetSelectedProgram programKey options =>
          let '(d1, evs1) := update [item K_SelectedProgram programKey] d in
          let '(d2, evs2) := update options d1 in
          (d2, evs1 ++ evs2, Returned)
      | StartProgram programKey options =>
          let '(d1, evs1) := update [item K_ActiveProgram programKey] d in
          let '(d2, evs2) := update options d1 in
          (d2, evs1 ++ evs2, Returned)
      | StopProgram | PauseProgram _ | OpenDoor _ => (d, [], Returned)
      end
  end.

(** ** Reading all appliance state *)

Definition next_retry_delay (current : option Z) : Z :=
  match current with
  | Some n => if (n =? 0)%Z then CONNECTED_RETRY_MIN_DELAY
              else Z.min (n * CONNECTED_RETRY_FACTOR) CONNECTED_RETRY_MAX_DELAY
  | None => CONNECTED_RETRY_MIN_DELAY
  end.

(** The [catch] of [readAll]. *)
Definition readAll_catch (e : Error) (a : Api) (d : Device) : Api * Device * list Ev :=
  if is_connected d then
    let n := next_retry_delay (readAllRetryDelay a) in
    let '(t, d1) := setTimeout CbReadAll (n * MS) d in
    (set_readAllRetryDelay (Some n) a, set_readAllScheduled (Some t) d1,
     [EvLog (LogReadAllRetry e n)])
  else
    (a, set_readAllScheduled None d, [EvLog (LogReadAllIgnored e)]).

(** The end of the [try] block of [readAll], once the loop is left. *)
Definition readAll_end (a : Api) (d : Device) : Api * Device * list Ev :=
  let d1 := set_readAllScheduled None d in
  match readAllActions d1 with
  | Some _ =>
      let a1 := set_readAllRetryDelay None a in
      if is_connected d1 && negb (truthy (getItem K_connected d1)) then
        let '(d2, evs) := update [item K_connected (VBool true)] d1 in
        (a1, d2, EvLog LogReadAllSuccess :: evs)
      else (a1, d1, [EvLog LogReadAllSuccess])
  | None => (a, d1, [EvLog LogReadAllAbandoned])
  end.

Definition add_call (c : Cont) (d : Device) : nat * Device :=
  let cid := nextId d in
  (cid, set_nextId (S cid) (set_calls (calls d ++ [(cid, c)]) d)).

(** The loop of [readAll] up to the next [await] that has to wait for the
    transport; [q] is the content of the array [this.readAllActions], whose
    identity is [arr].  An action that throws before its transport call
    leaves the array as it is; one that returns without a transport call is
    shifted out and the loop goes on. *)
Fixpoint readAll_loop (arr : nat) (q : list Op) (a : Api) (d : Device)
  : Api * Device * list Ev :=
  match q with
  | [] => readAll_end a d
  | o :: q' =>
      match op_begin a d o with
      | BThrow e =>
          let '(d1, evs1, out) := op_throw o e d in
          let '(a2, d2, evs2) :=
            match out with
            | Threw e' => readAll_catch e' a d1
            | _ => readAll_loop arr q' a (set_readAllActions (Some (arr, q')) d1)
            end in
          (a2, d2, evs1 ++ evs2)
      | BCall r waiting =>
          let '(cid, d1) := add_call (KReadAll arr waiting) d in
          (a, d1, [EvCall cid r])
      | BDone _ evs1 =>
          let '(a2, d2, evs2) := readAll_loop arr q' a (set_readAllActions (Some (arr, q')) d) in
          (a2, d2, evs1 ++ evs2)
      end
  end.

(** [readAll()], and also the loop condition after an action has returned. *)
Definition readAll (a : Api) (d : Device) : Api * Device * list Ev :=
  match readAllActions d with
  | Some (arr, q) => readAll_loop arr q a d
  | None => readAll_end a d
  end.

(** [actions.shift()] on the array captured before the [await]: it is the
    array of the device only if that has not been deleted or replaced. *)
Definition shift_actions (arr : nat) (d : Device) : Device :=
  match readAllActions d with
  | Some (arr', q) =>
      if decide (arr' = arr) then set_readAllActions (Some (arr, tail q)) d else d
  | None => d
  end.

(** [readAll] resumed by the response to the transport call of an action. *)
Definition readAll_resume (arr : nat) (o : Op) (r : Response) (a : Api) (d : Device)
  : Api * Device * list Ev :=
  let '(d1, evs1, out) := op_resume o r d in
  match out with
  | Threw e =>
      let '(a2, d2, evs2) := readAll_catch e a d1 in (a2, d2, evs1 ++ evs2)
  | _ =>
      let '(a2, d2, evs2) := readAll a (shift_actions arr d1) in (a2, d2, evs1 ++ evs2)
  end.

(** ** The event stream *)

(** An event of [api.getEvents]; [data] is [None] when the event has none. *)
Record StreamEvent := { event : string; data : option (list Item); err : bool }.

Definition stop_delay (e : StreamEvent) : Z :=
  if err e then 0%Z else (EVENT_DISCONNECT_DELAY * MS)%Z.

(** [eventListener(event)]; the flag tells that it threw (a data event
    without data). *)
Definition eventListener (e : StreamEvent) (d : Device) : Device * list Ev * bool :=
  let itemCount := match data e with Some its => length its | None => 0 end in
  let log := EvLog (LogEvent (event e) itemCount) in
  if decide (event e = "START") then
    let '(d1, evs) := setConnectedState None (clearTimeout (stopScheduled d) d) in
    (d1, log :: evs, false)
  else if decide (event e = "STOP") then
    let '(t, d1) := setTimeout CbStop (stop_delay e) d in
    (set_stopScheduled (Some t) d1, [log], false)
  else if decide (event e = "PAIRED") then
    let '(d1, evs) := setConnectedState None d in
    (d1, log :: EvLog LogPaired :: evs, false)
  else if decide (event e = "DEPAIRED") then
    let '(d1, evs) := setConnectedState (Some false) d in
    (d1, log :: EvLog LogDepaired :: evs, false)
  else if decide (event e = "CONNECTED") then
    let '(d1, evs) := setConnectedState (Some true) d in
    (d1, log :: EvLog LogConnected :: evs, false)
  else if decide (event e = "DISCONNECTED") then
    let '(d1, evs) := setConnectedState (Some false) d in
    (d1, log :: EvLog LogDisconnected :: evs, false)
  else if decide (event e = "STATUS" ∨ event e = "EVENT" ∨ event e = "NOTIFY") then
    match data e with
    | Some its => let '(d1, evs) := update its d in (d1, log :: evs, false)
    | None => (d, [log], true)
    end
  else (d, [log; EvLog (LogUnsupported (event e))], false).

(** One turn of the loop of [processEvents]: the listener, then the test of
    [stopEvents]; an exception ends the loop as well, and the [catch] logs
    it. *)
Definition processEvent (e : StreamEvent) (d : Device) : Device * list Ev :=
  if streamEnded d then (d, [])
  else
    let '(d1, evs, threw) := eventListener e d in
    (if threw || stopEvents d1 then set_streamEnded true d1 else d1,
     evs ++ (if threw then [EvLog LogDeviceEvents] else [])).

(** ** The event loop *)

Inductive Input :=
| InEvent (e : StreamEvent)
| InTimer (t : nat)
| InResponse (cid : nat) (r : Response)
| InCall (o : Op)
| InOn (lid : nat) (k : string) (throws : gmap string Value → Value → bool)
| InPollPrograms (enable : bool)
| InStop
| InRemoveAllListeners.

Definition find_timer (t : nat) (d : Device) : option Timer :=
  head (filter (λ x, tid x = t) (timers d)).

Definition find_call (cid : nat) (d : Device) : option Cont :=
  snd <$> head (filter (λ x, fst x = cid) (calls d)).

Definition remove_call (cid : nat) (d : Device) : Device :=
  set_calls (filter (λ x, fst x ≠ cid) (calls d)) d.

(** A timer fires: it is no longer pending and its callback runs. *)
Definition fire (cb : Callback) (a : Api) (d : Device) : Api * Device * list Ev :=
  match cb with
  | CbStop =>
      let '(d1, evs) := setConnectedState (Some false) d in
      (a, d1, EvLog LogStopElapsed :: evs)
  | CbSetConnected isConnected =>
      let '(d1, evs) := setConnected_elapsed isConnected d in (a, d1, evs)
  | CbReadAll => readAll a d
  | CbBlackout => (a, set_blackoutScheduled None d, [])
  end.

(** An operation is called by the accessory layer. *)
Definition call_op (o : Op) (a : Api) (d : Device) : Api * Device * list Ev :=
  match op_begin a d o with
  | BThrow e =>
      let cid := nextId d in
      let '(d1, evs, out) := op_throw o e (set_nextId (S cid) d) in
      (a, d1, evs ++ [EvSettled cid out])
  | BCall r waiting =>
      let '(cid, d1) := add_call (KUser waiting) d in
      (a, d1, [EvCall cid r])
  | BDone out evs =>
      let cid := nextId d in
      (a, set_nextId (S cid) d, evs ++ [EvSettled cid out])
  end.

Definition cont_op (c : Cont) : Op :=
  match c with KReadAll _ o => o | KUser o => o end.

Definition step (i : Input) (w : Api * Device) : Api * Device * list Ev :=
  let '(a, d) := w in
  match i with
  | InEvent e => let '(d1, evs) := processEvent e d in (a, d1, evs)
  | InTimer t =>
      match find_timer t d with
      | Some x => fire (callback x) a (clearTimeout (Some t) d)
      | None => (a, d, [])
      end
  | InResponse cid r =>
      match find_call cid d with
      | Some c =>
          if well_shaped (cont_op c) r then
            match c with
            | KReadAll arr o => readAll_resume arr o r a (remove_call cid d)
            | KUser o =>
                let '(d1, evs, out) := op_resume o r (remove_call cid d) in
                (a, d1, evs ++ [EvSettled cid out])
            end
          else (a, d, [])
      | None => (a, d, [])
      end
  | InCall o => call_op o a d
  | InOn lid k throws => (a, set_listeners (listeners d ++ [LObserver lid k throws]) d, [])
  | InPollPrograms enable => (a, set_hasPrograms enable d, [])
  | InStop => (a, set_stopEvents true d, [])
  | InRemoveAllListeners => (a, set_listeners [] d, [])
  end.

Fixpoint run (ins : list Input) (w : Api * Device) : Api * Device * list Ev :=
  match ins with
  | [] => (w, [])
  | i :: ins' =>
      let '(a1, d1, evs1) := step i w in
      let '(a2, d2, evs2) := run ins' (a1, d1) in
      (a2, d2, evs1 ++ evs2)
  end.

(** [new HomeConnectDevice(log, api, ha)] for an appliance [ha] with the given
    id, type and connection state. *)
Definition new_device (id ty : string) (isConnected : option bool) : Device :=
  let d0 := {| haId := id; haType := ty; connected := isConnected; items := ∅;
               listeners := []; stopEvents := false; streamEnded := false;
               hasPrograms := false; blackoutScheduled := None;
               setConnectedScheduled := None; stopScheduled := None;
               readAllScheduled := None; readAllActions := None;
               timers := []; calls := []; nextId := 0 |} in
  let '(d1, _) := setConnectedState isConnected d0 in
  set_listeners [LBlackout; LInfer] d1.

(** [unregister()] of the accessory: [device.stop()], then
    [device.removeAllListeners()]. *)
Definition unregister : list Input := [InStop; InRemoveAllListeners].

(** ** Several devices on one transport object

    The platform creates one [HomeConnectAPI] object and hands it to the
    device of every appliance. *)
Record World := { api : Api; devices : gmap string Device }.

(** A step of the device of appliance [id]. *)
Definition world_step (id : string) (i : Input) (w : World) : World * list Ev :=
  match devices w !! id with
  | Some d =>
      let '(a1, d1, evs) := step i (api w, d) in
      ({| api := a1; devices := <[id := d1]> (devices w) |}, evs)
  | None => (w, [])
  end.

(** * Coalescing and serialising operations ([serialise]) *)

Module Serialise.

(** An options object: [Object.assign(target, source)] is [source ∪ target],
    the union that prefers the left map. *)
Record Pending := {
  options : gmap string Value;
  resolve : list nat;
  reject : list nat;
  scheduled : option nat
}.

(** An entry of [this.serialiseOps]; the operation is a function, known by
    its identity. *)
Record Entry := {
  operation : nat;
  pending : option Pending;
  active : option Pending
}.

Record State := {
  serialiseOps : list Entry;
  timers : list (nat * nat);      (* handle, operation of the entry *)
  running : list (nat * nat);     (* execution awaiting its operation, operation *)
  nextId : nat
}.

Inductive Ev :=
| EvCreating
| EvCoalescing (n : nat)
| EvPerforming (exec : nat) (operation : nat) (opts : gmap string Value)
| EvResolve (promise : nat) (result : Value)
| EvReject (promise : nat) (e : Error)
| EvUncaught.

Definition find (operation' : nat) (s : State) : option Entry :=
  head (filter (λ e, operation e = operation') (serialiseOps s)).

(** Assignment to the fields of the entry of an operation. *)
Definition set_entry (e : Entry) (s : State) : State :=
  {| serialiseOps :=
       map (λ x, if decide (operation x = operation e) then e else x) (serialiseOps s);
     timers := timers s; running := running s; nextId := nextId s |}.

Definition fresh_id (s : State) : nat * State :=
  (nextId s,
   {| serialiseOps := serialiseOps s; timers := timers s; running := running s;
      nextId := S (nextId s) |}).

Definition setTimeout (operation' : nat) (s : State) : nat * State :=
  let '(t, s1) := fresh_id s in
  (t, {| serialiseOps := serialiseOps s1; timers := timers s1 ++ [(t, operation')];
         running := running s1; nextId := nextId s1 |}).

Definition empty_entry (operation' : nat) : Entry :=
  {| operation := operation'; pending := None; active := None |}.

(** The first lines of [serialise]: find the entry of the operation, or
    add an empty one. *)
Definition ensure_entry (operation' : nat) (s : State) : Entry * State :=
  match find operation' s with
  | Some op => (op, s)
  | None =>
      (empty_entry operation',
       {| serialiseOps := serialiseOps s ++ [empty_entry operation'];
          timers := timers s; running := running s; nextId := nextId s |})
  end.

Definition with_scheduled (t : option nat) (p : Pending) : Pending :=
  {| options := options p; resolve := resolve p; reject := reject p; scheduled := t |}.

(** The rest of [serialise], for the entry [op]: update or create the
    pending request, schedule the operation, create the promise. *)
Definition request (op : Entry) (opts : gmap string Value) (s1 : State)
  : State * nat * list Ev :=
  (* Update or create a pending request *)
  let '(p, ev) :=
    match pending op with
    | Some p =>
        ({| options := opts ∪ options p; resolve := resolve p; reject := reject p;
            scheduled := scheduled p |}, EvCoalescing (length (resolve p) + 1))
    | None =>
        ({| options := opts; resolve := []; reject := []; scheduled := None |}, EvCreating)
    end in
  (* Schedule the operation *)
  let '(p1, s2) :=
    match scheduled p, active op with
    | None, None =>
        let '(t, s2) := setTimeout (operation op) s1 in (with_scheduled (Some t) p, s2)
    | _, _ => (p, s1)
    end in
  (* Create and return a promise for this request *)
  let '(promise, s3) := fresh_id s2 in
  let p2 := {| options := options p1; resolve := resolve p1 ++ [promise];
               reject := reject p1 ++ [promise]; scheduled := scheduled p1 |} in
  (set_entry {| operation := operation op; pending := Some p2; active := active op |} s3,
   promise, [ev]).

(** [serialise(operation, options)]: the state after the call, the promise
    it returns and what it logs. *)
Definition serialise (operation' : nat) (opts : gmap string Value) (s : State)
  : State * nat * list Ev :=
  let '(op, s1) := ensure_entry operation' s in
  request op opts s1.

(** The [finally] of [doOperation]. *)
Definition finish (operation' : nat) (s : State) : State :=
  match find operation' s with
  | Some op =>
      match pending op with
      | Some p =>
          let '(t, s1) := setTimeout operation' s in
          set_entry {| operation := operation';
                       pending := Some (with_scheduled (Some t) p);
                       active := None |} s1
      | None => set_entry {| operation := operation'; pending := None; active := None |} s
      end
  | None => s
  end.

(** [doOperation(op)] up to its [await]: the pending request becomes the
    active one and the operation is called with its options.  Without a
    pending request the [try] and the [catch] both fail on [op.active]. *)
Definition doOperation (operation' : nat) (s : State) : State * list Ev :=
  match find operation' s with
  | Some op =>
      let s1 := set_entry {| operation := operation'; pending := None;
                             active := pending op |} s in
      match pending op with
      | Some p =>
          let '(exec, s2) := fresh_id s1 in
          ({| serialiseOps := serialiseOps s2; timers := timers s2;
              running := running s2 ++ [(exec, operation')]; nextId := nextId s2 |},
           [EvPerforming exec operation' (options p)])
      | None => (finish operation' s1, [EvUncaught])
      end
  | None => (s, [])
  end.

(** [doOperation(op)] after its [await]: the promises queued on the active
    request are all resolved, or all rejected, then the [finally]. *)
Definition settle (operation' : nat) (result : Value + Error) (s : State)
  : State * list Ev :=
  match find operation' s with
  | Some op =>
      match active op with
      | Some p =>
          (finish operation' s,
           match result with
           | inl v => map (λ promise, EvResolve promise v) (resolve p)
           | inr e => map (λ promise, EvReject promise e) (reject p)
           end)
      | None => (finish operation' s, [EvUncaught])
      end
  | None => (s, [])
  end.

Inductive Input :=
| InSerialise (operation : nat) (opts : gmap string Value)
| InTimer (t : nat)
| InSettled (exec : nat) (result : Value + Error).

Definition lookup_id (i : nat) (l : list (nat * nat)) : option nat :=
  snd <$> head (filter (λ x, fst x = i) l).

Definition remove_id (i : nat) (l : list (nat * nat)) : list (nat * nat) :=
  filter (λ x, fst x ≠ i) l.

Definition step (i : Input) (s : State) : State * list Ev :=
  match i with
  | InSerialise operation' opts =>
      let '(s1, _, evs) := serialise operation' opts s in (s1, evs)
  | InTimer t =>
      match lookup_id t (timers s) with
      | Some operation' =>
          doOperation operation'
            {| serialiseOps := serialiseOps s; timers := remove_id t (timers s);
               running := running s; nextId := nextId s |}
      | None => (s, [])
      end
  | InSettled exec result =>
      match lookup_id exec (running s) with
      | Some operation' =>
          settle operation' result
            {| serialiseOps := serialiseOps s; timers := timers s;
               running := remove_id exec (running s); nextId := nextId s |}
      | None => (s, [])
      end
  end.

Fixpoint run (ins : list Input) (s : State) : State * list Ev :=
  match ins with
  | [] => (s, [])
  | i :: ins' =>
      let '(s1, evs1) := step i s in
      let '(s2, evs2) := run ins' s1 in
      (s2, evs1 ++ evs2)
  end.

Definition init : State :=
  {| serialiseOps := []; timers := []; running := []; nextId := 0 |}.

(** ** What the statements about [serialise] speak of *)

(** The entry of an operation; an operation never seen has an empty one. *)
Definition entry_of (op : nat) (s : State) : Entry :=
  default (empty_entry op) (find op s).

(** The timers, or the executions, of an operation. *)
Definition for_op (op : nat) (l : list (nat * nat)) : list (nat * nat) :=
  filter (λ x, x.2 = op) l.

(** Handles are distinct and were created before [n]. *)
Definition ids_ok (l : list (nat * nat)) (n : nat) : Prop :=
  NoDup (map fst l) ∧ Forall (λ x, x.1 < n) l.

(** An entry agrees with the number of its timers and executions: an
    execution in flight exactly when a request is active, a timer exactly
    when the pending request is scheduled, which it is exactly when no
    request is active. *)
Definition entry_ok (e : Entry) (ntimers nrunning : nat) : Prop :=
  nrunning = match active e with Some _ => 1 | None => 0 end
  ∧ ntimers = match pending e with
              | Some p => match scheduled p with Some _ => 1 | None => 0 end
              | None => 0
              end
  ∧ match pending e with
    | Some p => match scheduled p with
                | Some _ => active e = None
                | None => active e ≠ None
                end
    | None => True
    end.

Definition invariant (s : State) : Prop :=
  ids_ok (timers s) (nextId s) ∧ ids_ok (running s) (nextId s)
  ∧ ∀ op, entry_ok (entry_of op s)
                   (length (for_op op (timers s))) (length (for_op op (running s))).

Definition find_in (op : nat) (l : list Entry) : option Entry :=
  head (filter (λ e, operation e = op) l).

End Serialise.

(** * What the properties speak of *)

(** The notifications of a trace, also those made inside the power state
    inference: observer, key, value and the store the observer could read. *)
Fixpoint notifications_of (e : Ev) : list (nat * string * Value * gmap string Value) :=
  match e with
  | EvNotify lid k v snap => [(lid, k, v, snap)]
  | EvInfer nested =>
      (fix go (l : list Ev) :=
         match l with
         | [] => []
         | x :: l' => notifications_of x ++ go l'
         end) nested
  | _ => []
  end.

Definition notifications (evs : list Ev) : list (nat * string * Value * gmap string Value) :=
  flat_map notifications_of evs.

#[global] Arguments notifications : simpl never.

(** The store [m] as an observer may find it while the batch that produced
    [m0] is being notified: the batch is applied in full; only the power
    setting may have been corrected since by the inference. *)
Definition batch_applied (m0 m : gmap string Value) : Prop :=
  (∀ k, k ≠ K_PowerState → m !! k = m0 !! k)
  ∧ (m !! K_PowerState = m0 !! K_PowerState
     ∨ m !! K_PowerState = Some PowerState_On
     ∨ m !! K_PowerState = Some PowerState_Standby).

Definition snapshot_of (n : nat * string * Value * gmap string Value) := snd n.

(** What happens inside one emit, seen from outside: no further emit, and
    notifications with the key and the value of the emit only. *)
Definition of_item (k : string) (v : Value) (e : Ev) : Prop :=
  match e with
  | EvEmit _ _ _ => False
  | EvNotify _ k' v' _ => k' = k ∧ v' = v
  | _ => True
  end.

(** The value a batch gives a key: that of its last item with the key. *)
Definition batch_value (its : list Item) (k : string) : option Value :=
  value <$> last (filter (λ it, key it = k) its).

(** The entry of a key once the batch is stored: the value the batch gives
    the key, the entry as it was for a key the batch does not have. *)
Definition after_batch (its : list Item) (m : gmap string Value) (k : string)
  : option Value :=
  match batch_value its k with
  | Some v => Some v
  | None => m !! k
  end.

(** The keys of a batch are names that [this.items[key] = value] creates an
    entry for: any name but [__proto__], which JavaScript keeps for the
    prototype of the object. *)
Definition plain_keys (its : list Item) : Prop := "__proto__" ∉ map key its.

(** The observers registered for a key, in the order of their registration. *)
Definition observers_of (k : string) (ls : list Listener) : list nat :=
  omap (λ l, match l with
             | LObserver lid k' _ => if decide (k' = k) then Some lid else None
             | _ => None
             end) ls.

(** The observers a trace calls, those called inside the inference left out. *)
Definition notified (evs : list Ev) : list nat :=
  omap (λ e, match e with EvNotify lid _ _ _ => Some lid | _ => None end) evs.

(** What [emit(k, v)] may do between its start and its end: call an observer
    with [k] and [v], and, for the operation state, run the inference, whose
    trace is one that [inner] allows. *)
Definition during_emit (inner : list Ev → Prop) (k : string) (v : Value) (e : Ev) : Prop :=
  match e with
  | EvNotify _ k' v' _ => k' = k ∧ v' = v
  | EvInfer nested => k = K_OperationState ∧ inner nested
  | _ => False
  end.

(** The trace of one turn of the second loop of [update], for the key [k]
    and the value [v], on a device with the listeners [ls]: the emit with the
    number of listeners of [k]; then the observers of [k], called once each
    in the order of their registration, all of them unless one throws (the
    ones after it are then not called); then the log of the failed emit, if
    it failed. *)
Definition segment_of (inner : list Ev → Prop) (ls : list Listener)
    (k : string) (v : Value) (seg : list Ev) : Prop :=
  ∃ body failure,
    seg = EvEmit k v (length (filter (λ l, listener_key l = k) ls)) :: body ++ failure
    ∧ Forall (during_emit inner k v) body
    ∧ notified body `prefix_of` observers_of k ls
    ∧ ((failure = [] ∧ notified body = observers_of k ls)
       ∨ failure = [EvLog (LogEmitError k v)]).

(** What the inference may do: nothing; only log that it is suppressed; or
    log its finding and publish the power setting [On], or [Standby], by an
    [update] of its own, one emit long. *)
Definition inferred (ls : list Listener) (nested : list Ev) : Prop :=
  nested = []
  ∨ nested = [EvLog LogImpliesOnIgnored]
  ∨ (∃ seg, nested = EvLog LogImpliesOn :: seg
            ∧ segment_of (λ _, False) ls K_PowerState PowerState_On seg)
  ∨ (∃ seg, nested = EvLog LogImpliesOff :: seg
            ∧ segment_of (λ _, False) ls K_PowerState PowerState_Standby seg).

(** The segment of the trace of [update] that belongs to one item. *)
Definition item_segment (ls : list Listener) (it : Item) (seg : list Ev) : Prop :=
  segment_of (inferred ls) ls (key it) (value it) seg.

Definition batch_events : list string := ["STATUS"; "EVENT"; "NOTIFY"].

(** Everything of the device but the item store, the blackout handle, the
    pending timers and the counter of fresh handles. *)
Definition frame (d : Device) :=
  (haId d, haType d, connected d, listeners d, stopEvents d, streamEnded d,
   hasPrograms d, setConnectedScheduled d, stopScheduled d, readAllScheduled d,
   readAllActions d, calls d).

Definition never_throws (k : string) (l : Listener) : Prop :=
  match l with
  | LObserver _ k' throws => k' = k → ∀ m v, throws m v = false
  | _ => True
  end.

Definition all_scopes : Api := {| api_hasScope := λ _, true; readAllRetryDelay := None |}.

Definition oven : Device := new_device "SIEMENS-HB678GBS6-68A40E000000" "Oven" (Some true).

Definition batch_event (tag : string) (its : list Item) : Input :=
  InEvent {| event := tag; data := Some its; err := false |}.

Definition plain_event (tag : string) : Input :=
  InEvent {| event := tag; data := None; err := false |}.

Definition observer_always_throws : gmap string Value → Value → bool := λ _ _, true.
Definition observer_never_throws : gmap string Value → Value → bool := λ _ _, false.

(** The errors of [requireRemoteControl] and [requireRemoteStart]. *)
Definition remote_control_denied (e : Error) : bool :=
  match e with
  | ErrLocalControl | ErrRemoteControl | ErrRemoteStart => true
  | _ => false
  end.

(** The operations that change something on the appliance. *)
Definition mutating (o : Op) : bool :=
  match o with
  | SetSetting _ _ | SetSelectedProgram _ _ | StartProgram _ _ | StopProgram
  | PauseProgram _ | OpenDoor _ | SetActiveProgramOption _ _ => true
  | _ => false
  end.

(** The mutating operations that call [requireRemoteControl] (or
    [requireRemoteStart]) in the state of the device: [stopProgram] does so
    only when a program is active. *)
Definition checks_remote_control (o : Op) (d : Device) : bool :=
  match o with
  | SetSetting _ _ | SetSelectedProgram _ _ | StartProgram _ _
  | PauseProgram _ | SetActiveProgramOption _ _ => true
  | StopProgram => includes activeStates (getItem K_OperationState d)
  | _ => false
  end.

(** The scope and connection check an operation makes first. *)
Definition scope_gate (o : Op) : Gate :=
  match o with
  | GetAppliance => requireIdentify
  | GetStatus | GetAllPrograms | GetAvailablePrograms | GetAvailableProgram _
  | GetSelectedProgram | GetActiveProgram => requireMonitor
  | GetSettings | GetSetting _ | SetSetting _ _ => requireSettings
  | _ => requireControl
  end.

(** Remote control is not allowed in the state of the device: local control
    is active, remote control is disabled, or, for starting a program,
    remote start is disabled. *)
Definition remote_control_refused (o : Op) (d : Device) : Prop :=
  truthy (getItem K_LocalControlActive d) = true
  ∨ getItem K_RemoteControlActive d = VBool false
  ∨ ((∃ programKey options, o = StartProgram programKey options)
     ∧ getItem K_RemoteControlStartAllowed d = VBool false).

Definition has_call (evs : list Ev) : bool :=
  existsb (λ e, match e with EvCall _ _ => true | _ => false end) evs.

Definition locally_controlled_oven : Device :=
  set_items (<[K_LocalControlActive := VBool true]>
             (<[K_OperationState := VStr OperationState_Ready]> ∅)) oven.

(** An oven with one timer of each kind pending: the read of its state has
    failed once (retry timer 4), its power setting has just been reported
    (blackout timer 5), the event stream has stopped (grace timer 6) and the
    appliance has been reported connected (evaluation timer 7). *)
Definition busy_oven : Api * Device :=
  (run [InTimer 0; InTimer 2; InResponse 3 (RFail (ErrOther "timeout"));
        batch_event "NOTIFY" [power_item PowerState_On];
        plain_event "STOP"; plain_event "CONNECTED"] (all_scopes, oven)).1.

Definition kitchen : World :=
  {| api := all_scopes;
     devices := <["oven" := oven]> (<["dishwasher" := new_device "dishwasher" "Dishwasher" (Some true)]> ∅) |}.

Fixpoint world_run (ins : list (string * Input)) (w : World) : World * list Ev :=
  match ins with
  | [] => (w, [])
  | (id, i) :: ins' =>
      let '(w1, evs1) := world_step id i w in
      let '(w2, evs2) := world_run ins' w1 in
      (w2, evs1 ++ evs2)
  end.

(** The first read of the state of an appliance, failing at its first action. *)
Definition failed_read (id : string) : list (string * Input) :=
  [(id, InTimer 0); (id, InTimer 2); (id, InResponse 3 (RFail (ErrOther "timeout")))].

(** The delay after [failures] earlier consecutive failures. *)
Definition retry_delay (failures : nat) : Z :=
  Z.min (CONNECTED_RETRY_MIN_DELAY * CONNECTED_RETRY_FACTOR ^ Z.of_nat failures)
        CONNECTED_RETRY_MAX_DELAY.



(** The field of the transport object after that many consecutive failures. *)
Definition delay_after (failures : nat) : option Z :=
  match failures with
  | 0 => None
  | S n => Some (retry_delay n)
  end.

(** Events that are neither a retry nor a completion of [readAll]. *)
Definition quiet (e : Ev) : Prop :=
  match e with
  | EvLog (LogReadAllRetry _ _) | EvLog LogReadAllSuccess => False
  | _ => True
  end.

(** Events of [update] seen from outside: emits, notifications, the
    inference, and the log of an observer that threw. *)
Definition from_update (e : Ev) : Prop :=
  match e with
  | EvEmit _ _ _ | EvNotify _ _ _ _ | EvInfer _ | EvLog (LogEmitError _ _) => True
  | _ => False
  end.


(** What a step may do to the retry delay of the transport object, going by
    its trace: leave it alone; advance it, logging the retry that waits the
    new delay; or delete it, logging the completed read. *)
Definition shared_delay (old new : option Z) (evs : list Ev) : Prop :=
  (Forall quiet evs ∧ new = old)
  ∨ ((∃ e, EvLog (LogReadAllRetry e (next_retry_delay old)) ∈ evs)
     ∧ new = Some (next_retry_delay old))
  ∨ (EvLog LogReadAllSuccess ∈ evs ∧ new = None).

(** What a step of a device does to the transport object: the scopes stay,
    the retry delay follows the trace. *)
Definition api_rule (a : Api) (r : Api * Device * list Ev) : Prop :=
  api_hasScope r.1.1 = api_hasScope a
  ∧ shared_delay (readAllRetryDelay a) (readAllRetryDelay r.1.1) r.2.

(** The first read of the oven and that of the dishwasher both wait for the
    transport (call 3 of each). *)
Definition two_reads_in_flight : list (string * Input) :=
  [("oven", InTimer 0); ("oven", InTimer 2);
   ("dishwasher", InTimer 0); ("dishwasher", InTimer 2)].

Definition retry_timer (t : nat) (seconds : Z) : Timer :=
  {| tid := t; delay := seconds * MS; callback := CbReadAll |}.



(** No timer that calls [readAll] is pending in [d'] that was not in [d]. *)
Definition no_new_retry (d d' : Device) : Prop :=
  ∀ t, t ∈ timers d' → callback t = CbReadAll → t ∈ timers d.













(** Handles are fresh: every pending timer was created before [nextId]. *)
Definition timers_fresh (d : Device) : Prop :=
  Forall (λ x, tid x < nextId d) (timers d).

Definition stop_event (dt : option (list Item)) (b : bool) : StreamEvent :=
  {| event := "STOP"; data := dt; err := b |}.

Definition start_event (dt : option (list Item)) (b : bool) : StreamEvent :=
  {| event := "START"; data := dt; err := b |}.

Definition item_count (dt : option (list Item)) : nat :=
  match dt with Some its => length its | None => 0 end.

(** The emits of [connected = false] in a trace. *)
Definition publishes_disconnected (e : Ev) : bool :=
  match e with
  | EvEmit k (VBool false) _ => bool_decide (k = K_connected)
  | _ => false
  end.

Definition disconnections (evs : list Ev) : nat :=
  length (filter (λ e, publishes_disconnected e = true) evs).

Definition stop_timer (t : nat) (b : bool) : Timer :=
  {| tid := t; delay := if b then 0 else EVENT_DISCONNECT_DELAY * MS; callback := CbStop |}.

Definition evaluation_timer (t : nat) (c : option bool) : Timer :=
  {| tid := t; delay := 0; callback := CbSetConnected c |}.

(** An oven that is connected and whose state has been read:
    [connected = true] is published and no timer is pending. *)
Definition connected_oven : Api * Device :=
  (run [InTimer 0; InTimer 2; InResponse 3 (RAppliance (Some true));
        InResponse 5 (RItems []); InResponse 6 (RItems []); InTimer 4]
       (all_scopes, oven)).1.


(** ** The flags of the event stream *)

(** [stopEvents] and whether the loop of [processEvents] has been left. *)
Definition stream_flags (d : Device) : bool * bool := (stopEvents d, streamEnded d).

(** A data event ([STATUS], [EVENT] or [NOTIFY]) that carries no items. *)
Definition empty_data_event (tag : string) (b : bool) : StreamEvent :=
  {| event := tag; data := None; err := b |}.

(** ** The listeners of a constructed device *)

Definition is_observer (l : Listener) : Prop :=
  match l with LObserver _ _ _ => True | _ => False end.

(** The two listeners of [inferPowerState], registered by the constructor,
    followed by the observers registered since. *)
Definition constructed_listeners (ls : list Listener) : Prop :=
  ∃ obs, ls = LBlackout :: LInfer :: obs ∧ Forall is_observer obs.

(** A blackout timer with handle [t]. *)
Definition blackout_timer (t : nat) : Timer :=
  {| tid := t; delay := POWERSTATE_BLACKOUT * MS; callback := CbBlackout |}.

(** ** Timers and transport calls of [readAll] in the states a device reaches *)

Definition is_evaluation (x : Timer) : bool :=
  match callback x with CbSetConnected _ => true | _ => false end.

Definition is_blackout (x : Timer) : bool :=
  match callback x with CbBlackout => true | _ => false end.

Definition is_readAll_timer (x : Timer) : bool :=
  match callback x with CbReadAll => true | _ => false end.

Definition is_readAll_call (c : nat * Cont) : bool :=
  match c.2 with KReadAll _ _ => true | KUser _ => false end.

Definition how_many {A} (p : A → bool) (l : list A) : nat :=
  length (filter (λ x, p x = true) l).

(** The activations of [readAll] that exist: the timers that will call it
    and the ones waiting at their [await] for the transport. *)
Definition readAll_running (d : Device) : nat :=
  how_many is_readAll_timer (timers d) + how_many is_readAll_call (calls d).

(** What holds of the timers of a device in every state it reaches: handles
    are fresh and distinct, a pending evaluation of the connection is the one
    [setConnectedScheduled] holds, a pending end of the blackout the one
    [blackoutScheduled] holds, and [readAll] exists at most once, and not at
    all when [readAllScheduled] is unset. *)
Record well_formed (d : Device) : Prop := {
  wf_fresh : timers_fresh d;
  wf_nodup : NoDup (map tid (timers d));
  wf_evaluation :
    ∀ x, x ∈ timers d → is_evaluation x = true → setConnectedScheduled d = Some (tid x);
  wf_blackout :
    ∀ x, x ∈ timers d → is_blackout x = true → blackoutScheduled d = Some (tid x);
  wf_single : readAll_running d ≤ 1;
  wf_idle : readAllScheduled d = None → readAll_running d = 0
}.

(** A change of the device that leaves [readAll] alone. *)
Definition steady (d d' : Device) : Prop :=
  (well_formed d → well_formed d')
  ∧ readAll_running d' ≤ readAll_running d
  ∧ readAllScheduled d' = readAllScheduled d.

(** * Formatting a duration ([prettySeconds] of the accessory)

    The duration is a whole number of seconds from 0 to 2^53 - 1, the
    whole numbers a JavaScript number holds exactly next to their
    neighbours.  Every number the method computes from it is again such a
    whole number, its differences and products are the exact ones, and
    [Math.floor(x / 60)] is the quotient of the division that rounds down
    (the quotient in doubles is less than 1/64 off, the exact one at least
    1/60 below the next whole number). *)

Definition MAX_SAFE_INTEGER : Z := 2 ^ 53 - 1.

Definition safe_duration (seconds : Z) : Prop := (0 ≤ seconds ≤ MAX_SAFE_INTEGER)%Z.

(** The components [hours], [minutes] and [seconds] as the first four lines
    of [prettySeconds] compute them. *)
Definition split_duration (seconds : Z) : Z * Z * Z :=
  let minutes := (seconds / 60)%Z in
  let seconds := (seconds - minutes * 60)%Z in
  let hours := (minutes / 60)%Z in
  let minutes := (minutes - hours * 60)%Z in
  (hours, minutes, seconds).

(** [n + (n === 1 ? ' unit' : ' units')] *)
Definition with_unit (n : Z) (unit : string) : string :=
  pretty n +:+ (if (n =? 1)%Z then " " +:+ unit else " " +:+ unit +:+ "s").

Definition prettySeconds (seconds : Z) : string :=
  let '(hours, minutes, seconds) := split_duration seconds in
  let prettyHours := with_unit hours "hour" in
  let prettyMinutes := with_unit minutes "minute" in
  let prettySeconds := with_unit seconds "second" in
  if negb (hours =? 0)%Z then
    prettyHours +:+ (if negb (minutes =? 0)%Z then " " +:+ prettyMinutes else "")
  else if negb (minutes =? 0)%Z then
    prettyMinutes +:+ (if negb (seconds =? 0)%Z then " " +:+ prettySeconds else "")
  else prettySeconds.

(** * The platform: accessories for the appliances of the account

    [addRemoveAccessories] of [HomeConnectPlatform].  [this.accessories] is
    an object used as a map from UUID to accessory; its keys are kept in the
    order in which they were first assigned, which is the order
    [Object.keys] lists them in.  [UUID.generate] and the constructors of
    the appliance classes are not part of these sources: the first is a
    function from strings to strings, of the second only whether they
    return or throw matters here.  The call of [schema.setAppliances] the
    method awaits first is taken to resolve. *)

Module Platform.

(** An appliance as [getAppliances] lists it. *)
Record Ha := { haId : string; type : string; name : string }.

(** A platform accessory; [appliance] is the appliance object assigned to
    [accessory.appliance], known by the [haId] of its device. *)
Record Accessory := {
  displayName : string;
  UUID : string;
  appliance : option string
}.

Inductive Ev :=
| EvUnsupported (type : string)          (* 'Appliance type ... not currently supported' *)
| EvConnecting (name : string)           (* 'Connecting accessory ...' *)
| EvAdding (name : string)               (* 'Adding new accessory ...' *)
| EvNewDevice (haId : string)            (* new HomeConnectDevice(log, this.homeconnect, ha) *)
| EvFailed (haId : string)               (* 'Failed to initialise accessory: ...' *)
| EvRegister (uuids : list string)       (* registerPlatformAccessories *)
| EvRemoving (displayName : string)      (* 'Removing accessory ...' *)
| EvUnregisterAppliance (haId : string)  (* accessory.appliance.unregister() *)
| EvUnregister (uuids : list string).    (* unregisterPlatformAccessories *)

(** [this.accessories[uuid]] *)
Definition get_accessory (uuid : string) (accs : list (string * Accessory)) : option Accessory :=
  snd <$> head (filter (λ x, x.1 = uuid) accs).

(** [this.accessories[uuid] = accessory] *)
Definition set_accessory (uuid : string) (acc : Accessory) (accs : list (string * Accessory)) : list (string * Accessory) :=
  match get_accessory uuid accs with
  | Some _ => map (λ x, if decide (x.1 = uuid) then (uuid, acc) else x) accs
  | None => accs ++ [(uuid, acc)]
  end.

(** [delete this.accessories[uuid]] *)
Definition delete_accessory (uuid : string) (accs : list (string * Accessory)) : list (string * Accessory) :=
  filter (λ x, x.1 ≠ uuid) accs.

(** The keys of the object literal that maps an appliance type to its class. *)
Definition appliance_types : list string :=
  ["CoffeeMaker"; "CookProcessor"; "Hob"; "Hood"; "Oven"; "WarmingDrawer";
   "CleaningRobot"; "Dishwasher"; "Dryer"; "Washer"; "WasherDryer";
   "Freezer"; "FridgeFreezer"; "Refrigerator"; "WineCooler"].

(** Whether [{...}[ha.type]] is truthy: an own key of the literal, or a name
    it inherits from [Object.prototype]. *)
Definition has_constructor (ty : string) : bool :=
  bool_decide (ty ∈ appliance_types) || bool_decide (ty ∈ object_prototype_names).

Section WithEnvironment.
Variable generate : string → string.
Variable constructs : Ha → bool.

(** The first loop of [addRemoveAccessories].  The result is [None] when a
    [return] inside the loop has left the method, and else the UUIDs of
    [newAccessories]. *)
Fixpoint add_accessories (appliances : list Ha) (accs : list (string * Accessory)) (new : list string)
  : list (string * Accessory) * option (list string) * list Ev :=
  match appliances with
  | [] => (accs, Some new, [])
  | ha :: rest =>
      if negb (has_constructor (type ha)) then (accs, None, [EvUnsupported (type ha)])
      else
        let uuid := generate (haId ha) in
        let attempt := EvNewDevice (haId ha) :: (if constructs ha then [] else [EvFailed (haId ha)]) in
        let made := if constructs ha then Some (haId ha) else None in
        match get_accessory uuid accs with
        | Some acc =>
            match appliance acc with
            | Some _ => (accs, None, [])
            | None =>
                let acc' := {| displayName := displayName acc; UUID := UUID acc;
                               appliance := made |} in
                let '(accs1, r, evs) := add_accessories rest (set_accessory uuid acc' accs) new in
                (accs1, r, EvConnecting (name ha) :: attempt ++ evs)
            end
        | None =>
            let acc' := {| displayName := name ha; UUID := uuid; appliance := made |} in
            let '(accs1, r, evs) :=
              add_accessories rest (set_accessory uuid acc' accs) (new ++ [uuid]) in
            (accs1, r, EvAdding (name ha) :: attempt ++ evs)
        end
  end.

(** The second loop, over [Object.keys(this.accessories)]: the accessories
    without a matching appliance are deleted. *)
Fixpoint remove_accessories (listed : list string) (keys accs : list (string * Accessory))
  : list (string * Accessory) * list string * list Ev :=
  match keys with
  | [] => (accs, [], [])
  | (uuid, acc) :: keys' =>
      if bool_decide (uuid ∈ listed) then remove_accessories listed keys' accs
      else
        let '(accs1, old, evs) := remove_accessories listed keys' (delete_accessory uuid accs) in
        (accs1, uuid :: old,
         EvRemoving (displayName acc)
           :: match appliance acc with
              | Some id => [EvUnregisterAppliance id]
              | None => []
              end ++ evs)
  end.

Definition addRemoveAccessories (appliances : list Ha) (accs : list (string * Accessory))
  : list (string * Accessory) * list Ev :=
  let '(accs1, r, evs1) := add_accessories appliances accs [] in
  match r with
  | None => (accs1, evs1)
  | Some new =>
      let listed := map (λ ha, generate (haId ha)) appliances in
      let '(accs2, old, evs2) := remove_accessories listed accs1 accs1 in
      (accs2, evs1 ++ [EvRegister new] ++ evs2 ++ [EvUnregister old])
  end.

End WithEnvironment.

(** [configureAccessory(accessory)]: a cached accessory is restored. *)
Definition configureAccessory (acc : Accessory) (accs : list (string * Accessory)) : list (string * Accessory) :=
  set_accessory (UUID acc) acc accs.

(** ** What the statements about the platform speak of *)

(** Homebridge is told to register or to unregister accessories, or the
    appliance of an accessory is told to stop. *)
Definition changes_registration (e : Ev) : bool :=
  match e with
  | EvRegister _ | EvUnregister _ | EvRemoving _ | EvUnregisterAppliance _ => true
  | _ => false
  end.

(** The accessory of the appliance has its appliance object already. *)
Definition connected_already (generate : string → string) (accs : list (string * Accessory)) (ha : Ha)
  : Prop :=
  ∃ acc id, get_accessory (generate (haId ha)) accs = Some acc ∧ appliance acc = Some id.

Definition keys (accs : list (string * Accessory)) : list string := map fst accs.

(** [ha.uuid], as the first loop assigns it. *)
Definition uuid_of (generate : string → string) (ha : Ha) : string := generate (haId ha).

(** An account with an oven and a refrigerator, an appliance of a type
    without a class, and an accessory restored from the cache of Homebridge
    that matches none of them. *)
Definition example_generate (id : string) : string := "uuid:" +:+ id.
Definition oven_ha : Ha := {| haId := "oven-1"; type := "Oven"; name := "Oven" |}.
Definition fridge_ha : Ha :=
  {| haId := "fridge-1"; type := "Refrigerator"; name := "Fridge" |}.
Definition toaster_ha : Ha := {| haId := "toaster-1"; type := "Toaster"; name := "Toaster" |}.
Definition restored : list (string * Accessory) :=
  [("uuid:old", {| displayName := "Old"; UUID := "uuid:old"; appliance := None |})].

End Platform.

(** * The persistent cache ([PersistCache])

    The cache of an accessory, kept in memory and written to persistent
    storage.  Every method first awaits [this.initialised], the promise of
    [load]: a call made before the stored cache has been read waits, in the
    order of the calls, and runs when [load] is done.  [save] and [doSave]
    are cut at their three [await]s.  The value of an entry is of a type
    the cache does not look at.  [this.cache] is an object used as a map;
    [cache] holds its own entries, and the keys asked for are not names that
    every object inherits (the accessory asks for keys that start with
    [Appliance]). *)

Module PersistCache.

Section WithValues.
Context {V : Type}.
Variable PLUGIN_VERSION : string.

(** An individual cache entry; [version] is missing in an entry written by
    an old version of the plugin. *)
Record CacheItem := {
  value : V;
  preferred : string;
  updated : Z;
  version : option string
}.

(** [this.ttl]: 24 hours in milliseconds. *)
Definition ttl : Z := 24 * 60 * 60 * MS.

Inductive Phase :=
| AwaitSaving (job : nat)   (* [await this.saving] *)
| AwaitImmediate            (* [await setImmediateP()] *)
| AwaitWrite.               (* [await this.saveDeferred()], [persist.setItem] under way *)

(** A call that waits for [this.initialised]. *)
Inductive Call :=
| CallGet (key : string)
| CallSet (key : string) (v : V) (now : Z).

Record State := {
  this_preferred : string;
  initialised : bool;
  waiting : list Call;
  cache : gmap string CacheItem;
  saving : option nat;
  pendingSave : option nat;
  jobs : list (nat * Phase);
  nextJob : nat
}.

Inductive Ev :=
| EvGot (key : string) (v : option V)                 (* what [get] resolves with *)
| EvWritten (key : string)                            (* '"key" written to cache' *)
| EvLoaded (entries : option nat)                      (* 'Cache loaded' / 'No cache found' *)
| EvLoadFailed                                        (* logError 'Cache read' *)
| EvSetItem (job : nat) (snapshot : gmap string CacheItem)  (* persist.setItem(name, this.cache) *)
| EvSaved (entries : nat)                             (* 'Cache saved' *)
| EvSaveFailed.                                       (* logError 'Cache write' *)

(** [new PersistCache(log, persist, name, preferred)]: [load] is under way. *)
Definition new_cache (preferred' : string) : State :=
  {| this_preferred := preferred'; initialised := false; waiting := [];
     cache := ∅; saving := None; pendingSave := None; jobs := []; nextJob := 0 |}.

(** The body of [get] after its [await]. *)
Definition get (key : string) (c : gmap string CacheItem) : option V :=
  value <$> c !! key.

(** The reasons [getWithExpiry] collects in [expired]. *)
Inductive Reason := DoesNotExist | NotWrittenBy | NoMatch | TooOld.

Definition expired (preferred' : string) (now : Z) (item : option CacheItem) : list Reason :=
  match item with
  | None => [DoesNotExist]
  | Some item =>
      let age := (now - updated item)%Z in
      (if bool_decide (version item ≠ Some PLUGIN_VERSION) then [NotWrittenBy] else [])
      ++ (if bool_decide (preferred item ≠ preferred') then [NoMatch] else [])
      ++ (if (ttl <? age)%Z then [TooOld] else [])
  end.

(** The body of [getWithExpiry] after its [await]: [undefined] without an
    entry, else the value and whether it is valid. *)
Definition getWithExpiry (key : string) (now : Z) (s : State) : option (V * bool) :=
  match cache s !! key with
  | None => None
  | Some item =>
      Some (value item,
            bool_decide (expired (this_preferred s) now (Some item) = []))
  end.

(** [save()]: a new [doSave] unless one is pending; it runs up to its first
    [await]. *)
Definition save (s : State) : State :=
  match pendingSave s with
  | Some _ => s
  | None =>
      let j := nextJob s in
      let phase := match saving s with Some k => AwaitSaving k | None => AwaitImmediate end in
      {| this_preferred := this_preferred s; initialised := initialised s;
         waiting := waiting s; cache := cache s; saving := saving s;
         pendingSave := Some j; jobs := jobs s ++ [(j, phase)]; nextJob := S j |}
  end.

(** The body of [set] after its first [await], up to [await this.save()]. *)
Definition set (key : string) (v : V) (now : Z) (s : State) : State * list Ev :=
  let item := {| value := v; preferred := this_preferred s; updated := now;
                 version := Some PLUGIN_VERSION |} in
  (save {| this_preferred := this_preferred s; initialised := initialised s;
           waiting := waiting s; cache := <[key := item]> (cache s);
           saving := saving s; pendingSave := pendingSave s; jobs := jobs s;
           nextJob := nextJob s |},
   [EvWritten key]).

Definition run_call (c : Call) (s : State) : State * list Ev :=
  match c with
  | CallGet key => (s, [EvGot key (get key (cache s))])
  | CallSet key v now => set key v now s
  end.

Fixpoint run_calls (cs : list Call) (s : State) : State * list Ev :=
  match cs with
  | [] => (s, [])
  | c :: cs' =>
      let '(s1, evs1) := run_call c s in
      let '(s2, evs2) := run_calls cs' s1 in
      (s2, evs1 ++ evs2)
  end.

(** A method is called: it runs at once when the cache has been loaded, and
    waits for [this.initialised] otherwise. *)
Definition call (c : Call) (s : State) : State * list Ev :=
  if initialised s then run_call c s
  else ({| this_preferred := this_preferred s; initialised := false;
           waiting := waiting s ++ [c]; cache := cache s; saving := saving s;
           pendingSave := pendingSave s; jobs := jobs s; nextJob := nextJob s |}, []).

(** What [persist.getItem] settles with in [load]: a stored cache, nothing,
    or a rejection. *)
Inductive Stored :=
| StoredCache (c : gmap string CacheItem)
| StoredNothing
| StoredError.

(** [load] after its [await]; the calls that waited then run in order. *)
Definition loaded (r : Stored) (s : State) : State * list Ev :=
  if initialised s then (s, [])
  else
    let '(c, ev) :=
      match r with
      | StoredCache c => (c, EvLoaded (Some (size c)))
      | StoredNothing => (cache s, EvLoaded None)
      | StoredError => (cache s, EvLoadFailed)
      end in
    let '(s1, evs) :=
      run_calls (waiting s)
        {| this_preferred := this_preferred s; initialised := true; waiting := [];
           cache := c; saving := saving s; pendingSave := pendingSave s;
           jobs := jobs s; nextJob := nextJob s |} in
    (s1, ev :: evs).

Definition phase_of (j : nat) (s : State) : option Phase :=
  snd <$> head (filter (λ x, x.1 = j) (jobs s)).

Definition set_phase (j : nat) (p : Phase) (l : list (nat * Phase)) : list (nat * Phase) :=
  map (λ x, if decide (x.1 = j) then (j, p) else x) l.

(** [doSave] after [await setImmediateP()]: the pending save becomes the
    one under way and [saveDeferred] hands the cache to the storage. *)
Definition immediate (j : nat) (s : State) : State * list Ev :=
  match phase_of j s with
  | Some AwaitImmediate =>
      ({| this_preferred := this_preferred s; initialised := initialised s;
          waiting := waiting s; cache := cache s; saving := pendingSave s;
          pendingSave := None; jobs := set_phase j AwaitWrite (jobs s);
          nextJob := nextJob s |},
       [EvSetItem j (cache s)])
  | _ => (s, [])
  end.

(** The jobs that awaited the promise of job [j] go on to their next
    [await]. *)
Definition release (j : nat) (l : list (nat * Phase)) : list (nat * Phase) :=
  map (λ x, match x.2 with
            | AwaitSaving k => if decide (k = j) then (x.1, AwaitImmediate) else x
            | _ => x
            end) l.

(** [persist.setItem] has settled for job [j]: [saveDeferred] logs, [doSave]
    clears [this.saving] and is done. *)
Definition written (j : nat) (ok : bool) (s : State) : State * list Ev :=
  match phase_of j s with
  | Some AwaitWrite =>
      ({| this_preferred := this_preferred s; initialised := initialised s;
          waiting := waiting s; cache := cache s; saving := None;
          pendingSave := pendingSave s;
          jobs := release j (filter (λ x, x.1 ≠ j) (jobs s));
          nextJob := nextJob s |},
       [if ok then EvSaved (size (cache s)) else EvSaveFailed])
  | _ => (s, [])
  end.

Inductive Input :=
| InCall (c : Call)
| InLoaded (r : Stored)
| InImmediate (job : nat)
| InWritten (job : nat) (ok : bool).

Definition step (i : Input) (s : State) : State * list Ev :=
  match i with
  | InCall c => call c s
  | InLoaded r => loaded r s
  | InImmediate j => immediate j s
  | InWritten j ok => written j ok s
  end.

Fixpoint run (ins : list Input) (s : State) : State * list Ev :=
  match ins with
  | [] => (s, [])
  | i :: ins' =>
      let '(s1, evs1) := step i s in
      let '(s2, evs2) := run ins' s1 in
      (s2, evs1 ++ evs2)
  end.

(** ** What the statements about the cache speak of *)

Definition is_writing (x : nat * Phase) : bool :=
  match x.2 with AwaitWrite => true | _ => false end.

(** The writes to the storage that are under way. *)
Definition writes_under_way (s : State) : nat := how_many is_writing (jobs s).

(** The cache as it was last handed to the storage. *)
Definition last_snapshot (evs : list Ev) : option (gmap string CacheItem) :=
  last (omap (λ e, match e with EvSetItem _ c => Some c | _ => None end) evs).

Definition is_set (c : Call) : bool :=
  match c with CallSet _ _ _ => true | CallGet _ => false end.

Definition has_set (ins : list Input) : bool :=
  existsb (λ i, match i with InCall c => is_set c | _ => false end) ins.

(** What holds of the jobs of [doSave] in every state of the cache: a job
    writing is the one [this.saving] holds, a job that has not yet started to
    write is the one [this.pendingSave] holds, it waits for the immediate
    only when nothing is being written, and else for the job that writes. *)
Definition job_ok (s : State) (x : nat * Phase) : Prop :=
  match x.2 with
  | AwaitWrite => saving s = Some x.1
  | AwaitImmediate => pendingSave s = Some x.1 ∧ saving s = None
  | AwaitSaving k => pendingSave s = Some x.1 ∧ saving s = Some k
  end.

Definition jobs_ok (s : State) : Prop :=
  NoDup (map fst (jobs s))
  ∧ Forall (λ x, x.1 < nextJob s) (jobs s)
  ∧ Forall (job_ok s) (jobs s)
  ∧ (∀ k, saving s = Some k → (k, AwaitWrite) ∈ jobs s).

(** Nothing is lost: when no save is pending, the cache is as it was last
    handed to the storage, unless [set] has not run at all. *)
Definition saved_or_pending (s : State) (evs : list Ev) (set_called : bool) : Prop :=
  (pendingSave s = None →
     last_snapshot evs = Some (cache s) ∨ set_called && initialised s = false)
  ∧ (initialised s = false →
       pendingSave s = None ∧ jobs s = [] ∧ last_snapshot evs = None
       ∧ set_called = existsb is_set (waiting s)).

End WithValues.

(** The cache is loaded (nothing was stored), two values are set for one
    key at once, and the immediate of the save completes. *)
Definition two_sets : list (@Input Z) :=
  [InLoaded StoredNothing; InCall (CallSet "Appliance power" 1%Z 0%Z);
   InCall (CallSet "Appliance power" 2%Z 5%Z); InImmediate 0].

Arguments CacheItem : clear implicits.
Arguments State : clear implicits.
Arguments Ev : clear implicits.
Arguments Call : clear implicits.
Arguments Input : clear implicits.
Arguments Stored : clear implicits.

End PersistCache.

(** * The power switch of an accessory ([HasPower])

    The part of [init] that keeps the characteristic [On] of the power
    service up to date: the closure [update] and the two listeners that
    [init] registers on the device before its first [await].
    [isDisconnected], [isOn] and [scheduled] are the variables of the
    closure; they start [undefined]. *)

Module HasPower.

Record State := {
  isDisconnected : option bool;
  isOn : option bool;
  scheduled : option nat;
  timers : list nat;
  nextId : nat
}.

Inductive Ev :=
| EvLog (on disconnected : bool)          (* 'On' / 'Off', with ' (disconnected)' *)
| EvUpdateCharacteristic (on : bool).     (* updateCharacteristic(Characteristic.On, powerOn) *)

Definition init : State :=
  {| isDisconnected := None; isOn := None; scheduled := None; timers := []; nextId := 0 |}.

(** [update()]: the timer scheduled before is cleared, a new one is set. *)
Definition update (s : State) : State :=
  let cleared :=
    match scheduled s with
    | Some t => filter (λ x, x ≠ t) (timers s)
    | None => timers s
    end in
  {| isDisconnected := isDisconnected s; isOn := isOn s;
     scheduled := Some (nextId s); timers := cleared ++ [nextId s];
     nextId := S (nextId s) |}.

(** The listener on the power setting of the device. *)
Definition on_power (powerState : Value) (s : State) : State :=
  update {| isDisconnected := isDisconnected s;
            isOn := Some (bool_decide (powerState = PowerState_On));
            scheduled := scheduled s; timers := timers s; nextId := nextId s |}.

(** The listener on the item [connected] of the device. *)
Definition on_connected (isConnected : Value) (s : State) : State :=
  update {| isDisconnected := Some (negb (truthy isConnected)); isOn := isOn s;
            scheduled := scheduled s; timers := timers s; nextId := nextId s |}.

(** [!isDisconnected && isOn]: [false] when disconnected, else [isOn], which
    may be [undefined]. *)
Definition powerOn (s : State) : option bool :=
  match isDisconnected s with
  | Some true => Some false
  | _ => isOn s
  end.

(** The callback of the timer. *)
Definition elapsed (s : State) : list Ev :=
  match powerOn s with
  | None => []
  | Some on =>
      [EvLog on (default false (isDisconnected s)); EvUpdateCharacteristic on]
  end.

Inductive Input :=
| InPower (powerState : Value)
| InConnected (isConnected : Value)
| InTimer (t : nat).

Definition step (i : Input) (s : State) : State * list Ev :=
  match i with
  | InPower v => (on_power v s, [])
  | InConnected v => (on_connected v s, [])
  | InTimer t =>
      if bool_decide (t ∈ timers s) then
        ({| isDisconnected := isDisconnected s; isOn := isOn s; scheduled := scheduled s;
            timers := filter (λ x, x ≠ t) (timers s); nextId := nextId s |},
         elapsed s)
      else (s, [])
  end.

Fixpoint run (ins : list Input) (s : State) : State * list Ev :=
  match ins with
  | [] => (s, [])
  | i :: ins' =>
      let '(s1, evs1) := step i s in
      let '(s2, evs2) := run ins' s1 in
      (s2, evs1 ++ evs2)
  end.

(** ** What the statements about the power switch speak of *)

(** The value of the latest notification of each kind. *)
Definition latest_connected (ins : list Input) : option Value :=
  last (omap (λ i, match i with InConnected v => Some v | _ => None end) ins).

Definition latest_power (ins : list Input) : option Value :=
  last (omap (λ i, match i with InPower v => Some v | _ => None end) ins).

(** What the switch is to show after these notifications: nothing while the
    power setting is unknown and the appliance is not known to be
    disconnected. *)
Definition shown (connected' power : option Value) : option bool :=
  match connected' with
  | Some c => if truthy c then (λ p, bool_decide (p = PowerState_On)) <$> power
              else Some false
  | None => (λ p, bool_decide (p = PowerState_On)) <$> power
  end.

(** At most one timer is pending, the one [scheduled] holds. *)
Definition debounced (s : State) : Prop :=
  timers s = [] ∨ ∃ t, timers s = [t] ∧ scheduled s = Some t.

End HasPower.

(** ** The power switch on its device

    The listeners of the device of a generic accessory, in the order in which
    they are registered: the two of the constructor of the device, the one
    of the constructor of the accessory (it logs the connection and updates
    the reachability), and the two of [HasPower].  None of the three
    observers throws. *)
Definition accessory_listeners : list Listener :=
  [LBlackout; LInfer;
   LObserver 0 K_connected observer_never_throws;
   LObserver 1 K_PowerState observer_never_throws;
   LObserver 2 K_connected observer_never_throws].

(** What the two listeners of [HasPower] are told in a trace of the device. *)
Definition power_switch_inputs (evs : list Ev) : list HasPower.Input :=
  omap (λ n, match n with
             | (lid, _, v, _) =>
                 if decide (lid = 1) then Some (HasPower.InPower v)
                 else if decide (lid = 2) then Some (HasPower.InConnected v)
                 else None
             end) (notifications evs).

(** The identifiers of the calls in flight were created before [nextId]. *)
Definition calls_fresh (d : Device) : Prop :=
  Forall (λ c, c.1 < nextId d) (calls d).

(** * Properties *)

Ltac unfold_setters :=
  unfold set_connected, set_items, set_listeners, set_stopEvents, set_streamEnded,
    set_hasPrograms, set_blackoutScheduled, set_setConnectedScheduled,
    set_stopScheduled, set_readAllScheduled, set_readAllActions, set_timers,
    set_calls, set_nextId in *.

(** ** Observers and the item store during [update] *)

Lemma notifications_infer nested : notifications_of (EvInfer nested) = notifications nested.
Proof. simpl. induction nested as [|x l IH]; simpl; [done | by rewrite IH]. Qed.

Lemma notifications_nil : notifications [] = [].
Proof. done. Qed.

Lemma notifications_app evs1 evs2 :
  notifications (evs1 ++ evs2) = notifications evs1 ++ notifications evs2.
Proof. unfold notifications. by rewrite flat_map_app. Qed.

Lemma notifications_cons e evs :
  notifications (e :: evs) = notifications_of e ++ notifications evs.
Proof. done. Qed.

Lemma batch_applied_refl m : batch_applied m m.
Proof. split; auto. Qed.

Section UpdateFacts.
Variable hook : Value → Device → Device * list Ev.
Variable m0 : gmap string Value.

(** What the facts below need of the operation state listener. *)
Hypothesis hook_listeners : ∀ v d, listeners (hook v d).1 = listeners d.
Hypothesis hook_applied : ∀ v d,
  batch_applied m0 (items d) →
  batch_applied m0 (items (hook v d).1)
  ∧ Forall (λ n, batch_applied m0 (snapshot_of n)) (notifications (hook v d).2).

Lemma call_listeners_listeners k v ls d :
  listeners (call_listeners hook k v ls d).1.1 = listeners d.
Proof.
  revert d. induction ls as [|l ls IH]; intros d; simpl; [done|].
  destruct (decide (listener_key l = k)); [|apply IH].
  destruct l.
  - rewrite IH. unfold arm_blackout. by destruct (blackoutScheduled d).
  - pose proof (hook_listeners v d) as H1.
    destruct (hook v d) as [d1 evs1].
    pose proof (IH d1) as H.
    destruct (call_listeners hook k v ls d1) as [[d2 evs2] threw].
    simpl in *. congruence.
  - destruct (throws (items d) v); [done|].
    pose proof (IH d) as H.
    destruct (call_listeners hook k v ls d) as [[d1 evs] threw]. done.
Qed.

Lemma call_listeners_applied k v ls d :
  batch_applied m0 (items d) →
  batch_applied m0 (items (call_listeners hook k v ls d).1.1)
  ∧ Forall (λ n, batch_applied m0 (snapshot_of n))
           (notifications (call_listeners hook k v ls d).1.2).
Proof.
  revert d. induction ls as [|l ls IH]; intros d Hd; simpl.
  { split; [done | rewrite notifications_nil; constructor]. }
  destruct (decide (listener_key l = k)); [|by apply IH].
  destruct l.
  - apply IH. unfold arm_blackout. by destruct (blackoutScheduled d).
  - destruct (hook_applied v d Hd) as [H1 H2].
    destruct (hook v d) as [d1 evs1]. simpl in H1, H2.
    destruct (IH d1 H1) as [H3 H4].
    destruct (call_listeners hook k v ls d1) as [[d2 evs2] threw]. simpl in *.
    split; [done|]. rewrite notifications_cons, notifications_infer.
    apply Forall_app. done.
  - destruct (throws (items d) v).
    { simpl. split; [done|]. rewrite notifications_cons, notifications_nil. simpl.
      constructor; [exact Hd | constructor]. }
    destruct (IH d Hd) as [H3 H4].
    destruct (call_listeners hook k v ls d) as [[d1 evs] threw]. simpl in *.
    split; [done|]. rewrite notifications_cons. simpl. constructor; done.
Qed.

Lemma notify_item_listeners it d : listeners (notify_item hook it d).1 = listeners d.
Proof.
  unfold notify_item.
  pose proof (call_listeners_listeners (key it) (value it) (listeners d) d) as H.
  destruct (call_listeners _ _ _ _ _) as [[d1 evs] threw]. done.
Qed.

Lemma notify_item_applied it d :
  batch_applied m0 (items d) →
  batch_applied m0 (items (notify_item hook it d).1)
  ∧ Forall (λ n, batch_applied m0 (snapshot_of n)) (notifications (notify_item hook it d).2).
Proof.
  intros Hd. unfold notify_item.
  pose proof (call_listeners_applied (key it) (value it) (listeners d) d Hd) as [H1 H2].
  destruct (call_listeners _ _ _ _ _) as [[d1 evs] threw]. simpl in *.
  split; [done|].
  rewrite notifications_cons, notifications_app. simpl.
  apply Forall_app. split; [done|]. destruct (threw || _); constructor.
Qed.

Lemma notify_all_listeners its d : listeners (notify_all hook its d).1 = listeners d.
Proof.
  revert d. induction its as [|it its IH]; intros d; simpl; [done|].
  pose proof (notify_item_listeners it d) as H1.
  destruct (notify_item hook it d) as [d1 evs1].
  pose proof (IH d1) as H2.
  destruct (notify_all hook its d1) as [d2 evs2]. simpl in *. congruence.
Qed.

Lemma notify_all_applied its d :
  batch_applied m0 (items d) →
  batch_applied m0 (items (notify_all hook its d).1)
  ∧ Forall (λ n, batch_applied m0 (snapshot_of n)) (notifications (notify_all hook its d).2).
Proof.
  revert d. induction its as [|it its IH]; intros d Hd; simpl.
  { split; [done | rewrite notifications_nil; constructor]. }
  pose proof (notify_item_applied it d Hd) as [H1 H2].
  destruct (notify_item hook it d) as [d1 evs1]. simpl in *.
  pose proof (IH d1 H1) as [H3 H4].
  destruct (notify_all hook its d1) as [d2 evs2]. simpl in *.
  split; [done|]. rewrite notifications_app. apply Forall_app. done.
Qed.
End UpdateFacts.

Lemma store_all_app its1 its2 m :
  store_all (its1 ++ its2) m = store_all its2 (store_all its1 m).
Proof. unfold store_all. apply foldl_app. Qed.

(** After the first loop of [update] every key of the batch holds the value
    of the last item of the batch with that key. *)
Lemma store_all_lookup its m it :
  it ∈ its →
  ∃ it', it' ∈ its ∧ key it' = key it ∧ store_all its m !! key it = Some (value it').
Proof.
  revert m. induction its as [|x its IH] using rev_ind; intros m Hin.
  { by apply elem_of_nil in Hin. }
  rewrite store_all_app. simpl.
  destruct (decide (key x = key it)) as [Heq | Hne].
  - exists x. split; [apply elem_of_app; right; by apply list_elem_of_singleton|].
    split; [done|]. rewrite Heq. apply lookup_insert_eq.
  - apply elem_of_app in Hin as [Hin | Hin].
    + destruct (IH m Hin) as (it' & H1 & H2 & H3).
      exists it'. split; [apply elem_of_app; by left|]. split; [done|].
      rewrite lookup_insert_ne; done.
    + apply list_elem_of_singleton in Hin. congruence.
Qed.

Lemma store_all_other its m k :
  k ∉ map key its → store_all its m !! k = m !! k.
Proof.
  revert m. induction its as [|x its IH]; intros m Hk; simpl; [done|].
  rewrite IH.
  - apply lookup_insert_ne. intros Heq. apply Hk. simpl. rewrite Heq.
    apply elem_of_cons. by left.
  - intros H. apply Hk. simpl. apply elem_of_cons. by right.
Qed.

Lemma update_with_listeners hook its d :
  (∀ v d, listeners (hook v d).1 = listeners d) →
  listeners (update_with hook its d).1 = listeners d.
Proof. intros H. unfold update_with. by rewrite notify_all_listeners. Qed.

Lemma update_nested_listeners its d : listeners (update_nested its d).1 = listeners d.
Proof. by apply update_with_listeners. Qed.

(** A nested [update] leaves the store as its first loop wrote it. *)
Lemma update_nested_applied its d :
  batch_applied (store_all its (items d)) (items (update_nested its d).1)
  ∧ Forall (λ n, batch_applied (store_all its (items d)) (snapshot_of n))
           (notifications (update_nested its d).2).
Proof.
  unfold update_nested, update_with.
  apply notify_all_applied; [| apply batch_applied_refl].
  intros v d' H. split; [done | simpl; rewrite notifications_nil; constructor].
Qed.

Lemma batch_applied_corrected m0 m m' v :
  batch_applied m0 m → v = PowerState_On ∨ v = PowerState_Standby →
  batch_applied (<[K_PowerState := v]> m) m' → batch_applied m0 m'.
Proof.
  intros [H1 H2] Hv [H3 H4]. split.
  - intros k Hk. rewrite H3, lookup_insert_ne; auto.
  - rewrite lookup_insert_eq in H4. destruct Hv as [-> | ->]; tauto.
Qed.

Lemma infer_power_listeners v d :
  listeners (infer_power update_nested v d).1 = listeners d.
Proof.
  unfold infer_power.
  destruct (operationImpliesOn v) as [b|]; [|done].
  destruct (b && _).
  - destruct (blackoutScheduled d); [done|].
    pose proof (update_nested_listeners [power_item PowerState_On] d) as H.
    destruct (update_nested _ d). done.
  - destruct (negb b && _); [|done].
    pose proof (update_nested_listeners [power_item PowerState_Standby] d) as H.
    destruct (update_nested _ d). done.
Qed.

Lemma infer_power_applied m0 v d :
  batch_applied m0 (items d) →
  batch_applied m0 (items (infer_power update_nested v d).1)
  ∧ Forall (λ n, batch_applied m0 (snapshot_of n))
           (notifications (infer_power update_nested v d).2).
Proof.
  intros Hd. unfold infer_power.
  assert (Hnil : Forall (λ n, batch_applied m0 (snapshot_of n)) (notifications []))
    by (rewrite notifications_nil; constructor).
  assert (Hupd : ∀ w, w = PowerState_On ∨ w = PowerState_Standby →
    batch_applied m0 (items (update_nested [power_item w] d).1)
    ∧ Forall (λ n, batch_applied m0 (snapshot_of n))
             (notifications (update_nested [power_item w] d).2)).
  { intros w Hw. destruct (update_nested_applied [power_item w] d) as [H1 H2].
    simpl in H1, H2. split.
    - eapply batch_applied_corrected; eauto.
    - eapply Forall_impl; [exact H2|]. intros n Hn.
      eapply batch_applied_corrected; eauto. }
  destruct (operationImpliesOn v) as [b|]; [|done].
  destruct (b && _).
  - destruct (blackoutScheduled d).
    { simpl. split; [done|]. rewrite notifications_cons, notifications_nil. constructor. }
    destruct (Hupd PowerState_On) as [H1 H2]; [by left|].
    destruct (update_nested _ d). simpl in *. split; [done|].
    by rewrite notifications_cons.
  - destruct (negb b && _); [|done].
    destruct (Hupd PowerState_Standby) as [H1 H2]; [by right|].
    destruct (update_nested _ d). simpl in *. split; [done|].
    by rewrite notifications_cons.
Qed.

Lemma update_listeners its d : listeners (update its d).1 = listeners d.
Proof. apply update_with_listeners, infer_power_listeners. Qed.

Lemma update_applied its d :
  batch_applied (store_all its (items d)) (items (update its d).1)
  ∧ Forall (λ n, batch_applied (store_all its (items d)) (snapshot_of n))
           (notifications (update its d).2).
Proof.
  unfold update, update_with.
  apply notify_all_applied; [| apply batch_applied_refl].
  intros v d'. apply infer_power_applied.
Qed.

(** The nested [update] is [update]: for the power setting the operation
    state listener is not among the listeners called. *)
Lemma call_listeners_hook_irrelevant h1 h2 k v ls d :
  k ≠ K_OperationState →
  call_listeners h1 k v ls d = call_listeners h2 k v ls d.
Proof.
  intros Hk. revert d. induction ls as [|l ls IH]; intros d; simpl; [done|].
  destruct (decide (listener_key l = k)) as [He|]; [|apply IH].
  destruct l; simpl in He.
  - by rewrite IH.
  - congruence.
  - destruct (throws (items d) v); [done|]. by rewrite IH.
Qed.

Lemma update_nested_power v d :
  update_nested [power_item v] d = update [power_item v] d.
Proof.
  unfold update_nested, update, update_with. simpl. unfold notify_item. simpl.
  by rewrite (call_listeners_hook_irrelevant _ (infer_power update_nested)).
Qed.

Lemma call_listeners_of_item hook k v ls d :
  Forall (of_item k v) (call_listeners hook k v ls d).1.2.
Proof.
  revert d. induction ls as [|l ls IH]; intros d; simpl; [constructor|].
  destruct (decide (listener_key l = k)); [|apply IH].
  destruct l.
  - apply IH.
  - destruct (hook v d) as [d1 evs1].
    pose proof (IH d1) as H.
    destruct (call_listeners hook k v ls d1) as [[d2 evs2] threw].
    simpl in *. constructor; done.
  - destruct (throws (items d) v).
    { simpl. repeat constructor. }
    pose proof (IH d) as H.
    destruct (call_listeners hook k v ls d) as [[d1 evs] threw].
    simpl in *. constructor; done.
Qed.

Lemma store_all_spec its m k : store_all its m !! k = after_batch its m k.
Proof.
  revert m. induction its as [|x its IH] using rev_ind; intros m; [done|].
  rewrite store_all_app. unfold after_batch, batch_value. rewrite filter_app.
  change (store_all [x] (store_all its m)) with (<[key x := value x]> (store_all its m)).
  destruct (decide (key x = k)) as [He | Hne].
  - rewrite (filter_cons_True (λ it, key it = k)) by done.
    rewrite filter_nil, last_snoc. simpl. rewrite <- He. apply lookup_insert_eq.
  - rewrite (filter_cons_False (λ it, key it = k)) by done.
    rewrite filter_nil, app_nil_r, lookup_insert_ne by done. apply IH.
Qed.

Section Segments.
Variable hook : Value → Device → Device * list Ev.
Variable inner : list Ev → Prop.
Variable ls0 : list Listener.

Hypothesis hook_listeners : ∀ v d, listeners (hook v d).1 = listeners d.
Hypothesis hook_inner : ∀ v d, listeners d = ls0 → inner (hook v d).2.

Lemma call_listeners_during_emit k v ls d :
  listeners d = ls0 →
  Forall (during_emit inner k v) (call_listeners hook k v ls d).1.2
  ∧ notified (call_listeners hook k v ls d).1.2 `prefix_of` observers_of k ls
  ∧ ((call_listeners hook k v ls d).2 = false →
     notified (call_listeners hook k v ls d).1.2 = observers_of k ls).
Proof.
  revert d. induction ls as [|l ls IH]; intros d Hd; simpl.
  { split; [constructor|]. split; [done|]. done. }
  destruct (decide (listener_key l = k)) as [He | Hne].
  - destruct l; simpl in He.
    + apply IH. unfold arm_blackout. by destruct (blackoutScheduled d).
    + pose proof (hook_inner v d Hd) as Hi.
      pose proof (hook_listeners v d) as Hl.
      destruct (hook v d) as [d1 evs1]. simpl in Hi, Hl.
      destruct (IH d1) as (H1 & H2 & H3); [congruence|].
      destruct (call_listeners hook k v ls d1) as [[d2 evs2] threw]. simpl in *.
      split; [constructor; [by split | done]|]. done.
    + rewrite decide_True by done.
      destruct (throws (items d) v); simpl.
      * split; [repeat constructor|]. split; [|done].
        by exists (observers_of k ls).
      * destruct (IH d Hd) as (H1 & H2 & H3).
        destruct (call_listeners hook k v ls d) as [[d1 evs] threw]. simpl in *.
        split; [constructor; [by split | done]|].
        split; [by apply prefix_cons|]. intros Ht. by rewrite H3.
  - assert (Ho : match l with
                 | LObserver lid k' _ => if decide (k' = k) then Some lid else None
                 | _ => None
                 end = None).
    { destruct l; try done. simpl in Hne. by rewrite decide_False. }
    rewrite Ho. by apply IH.
Qed.

Lemma notify_item_segment it d :
  listeners d = ls0 → segment_of inner ls0 (key it) (value it) (notify_item hook it d).2.
Proof.
  intros Hd. unfold notify_item, listenerCount. rewrite Hd.
  destruct (call_listeners_during_emit (key it) (value it) ls0 d Hd) as (H1 & H2 & H3).
  destruct (call_listeners _ _ _ _ _) as [[d1 evs] threw]. simpl in *.
  eexists evs, _. split; [done|]. split; [done|]. split; [done|].
  destruct threw; simpl; [by right|].
  destruct (bool_decide _ && bool_decide _); [by right | left; auto].
Qed.

Lemma notify_all_segments its d :
  listeners d = ls0 →
  ∃ segs, (notify_all hook its d).2 = concat segs
          ∧ Forall2 (λ it, segment_of inner ls0 (key it) (value it)) its segs.
Proof.
  revert d. induction its as [|it its IH]; intros d Hd; simpl.
  { exists []. split; [done | constructor]. }
  pose proof (notify_item_segment it d Hd) as H1.
  pose proof (notify_item_listeners hook hook_listeners it d) as Hl.
  destruct (notify_item hook it d) as [d1 evs1]. simpl in Hl.
  destruct (IH d1) as (segs & H2 & H3); [congruence|].
  destruct (notify_all hook its d1) as [d2 evs2]. simpl in *.
  exists (evs1 :: segs). split; [by rewrite H2 | by constructor].
Qed.
End Segments.

Lemma segment_of_no_inference inner ls k v seg :
  k ≠ K_OperationState → segment_of inner ls k v seg → segment_of (λ _, False) ls k v seg.
Proof.
  intros Hk (body & failure & H1 & H2 & H3 & H4).
  exists body, failure. split; [done|]. split; [|done].
  eapply Forall_impl; [exact H2|]. intros e He. destruct e; try done.
  by destruct He.
Qed.

(** The inference publishes the power setting by an [update] of its own. *)
Lemma update_nested_segment w d :
  segment_of (λ _, False) (listeners d) K_PowerState w (update_nested [power_item w] d).2.
Proof.
  unfold update_nested, update_with. simpl.
  pose proof (notify_item_segment (λ _ d, (d, [])) (λ nested, nested = []) (listeners d)
                (λ _ _, eq_refl) (λ _ _ _, eq_refl) (power_item w)
                (set_items (<[K_PowerState := w]> (items d)) d) eq_refl) as H.
  destruct (notify_item _ _ _) as [d1 evs1]. simpl in *. rewrite app_nil_r.
  by apply (segment_of_no_inference (λ nested, nested = [])).
Qed.

Lemma infer_power_inferred v d : inferred (listeners d) (infer_power update_nested v d).2.
Proof.
  unfold infer_power, inferred.
  destruct (operationImpliesOn v) as [b|]; [|by left].
  destruct (b && _).
  - destruct (blackoutScheduled d); [right; by left|].
    pose proof (update_nested_segment PowerState_On d) as H.
    destruct (update_nested _ d) as [d1 evs]. simpl in *.
    right. right. left. by exists evs.
  - destruct (negb b && _); [|by left].
    pose proof (update_nested_segment PowerState_Standby d) as H.
    destruct (update_nested _ d) as [d1 evs]. simpl in *.
    right. right. right. by exists evs.
Qed.

(** The trace of [update]: one segment per item, in the order of the batch. *)
Lemma update_segments its d :
  ∃ segs, (update its d).2 = concat segs
          ∧ Forall2 (item_segment (listeners d)) its segs.
Proof.
  unfold update, update_with.
  apply (notify_all_segments (infer_power update_nested) (inferred (listeners d)));
    [apply infer_power_listeners | | done].
  intros v d' <-. apply infer_power_inferred.
Qed.

(** Without an item for the operation state nothing writes to the store
    while the batch is notified. *)
Lemma call_listeners_store hook k v ls d :
  k ≠ K_OperationState →
  items (call_listeners hook k v ls d).1.1 = items d
  ∧ Forall (λ n, snapshot_of n = items d) (notifications (call_listeners hook k v ls d).1.2).
Proof.
  intros Hk. revert d. induction ls as [|l ls IH]; intros d; simpl.
  { split; [done | rewrite notifications_nil; constructor]. }
  destruct (decide (listener_key l = k)) as [He|]; [|apply IH].
  destruct l; simpl in He; [| congruence |].
  - destruct (IH (arm_blackout d)) as [H1 H2].
    assert (Hi : items (arm_blackout d) = items d)
      by (unfold arm_blackout; by destruct (blackoutScheduled d)).
    rewrite Hi in *. done.
  - destruct (throws (items d) v).
    { simpl. split; [done|]. rewrite notifications_cons, notifications_nil. simpl.
      constructor; [done | constructor]. }
    destruct (IH d) as [H1 H2].
    destruct (call_listeners hook k v ls d) as [[d1 evs] threw]. simpl in *.
    split; [done|]. rewrite notifications_cons. simpl. constructor; done.
Qed.

Lemma notify_all_store hook its d :
  K_OperationState ∉ map key its →
  items (notify_all hook its d).1 = items d
  ∧ Forall (λ n, snapshot_of n = items d) (notifications (notify_all hook its d).2).
Proof.
  revert d. induction its as [|it its IH]; intros d Hk; simpl.
  { split; [done | rewrite notifications_nil; constructor]. }
  apply not_elem_of_cons in Hk as [Hk1 Hk2].
  unfold notify_item.
  destruct (call_listeners_store hook (key it) (value it) (listeners d) d) as [H1 H2];
    [done|].
  destruct (call_listeners _ _ _ _ _) as [[d1 evs] threw]. simpl in *.
  destruct (IH d1 Hk2) as [H3 H4].
  destruct (notify_all hook its d1) as [d2 evs2]. simpl in *.
  rewrite H1 in *. split; [done|].
  rewrite notifications_cons, !notifications_app. simpl.
  apply Forall_app. split; [|done]. apply Forall_app. split; [done|].
  destruct (threw || _); rewrite ?notifications_nil; [|constructor].
  rewrite notifications_cons, notifications_nil. constructor.
Qed.

Lemma update_store its d :
  K_OperationState ∉ map key its →
  items (update its d).1 = store_all its (items d)
  ∧ Forall (λ n, snapshot_of n = store_all its (items d)) (notifications (update its d).2).
Proof. intros Hk. unfold update, update_with. by apply notify_all_store. Qed.

Lemma eventListener_batch tag its b d :
  tag ∈ batch_events →
  eventListener {| event := tag; data := Some its; err := b |} d
  = ((update its d).1, EvLog (LogEvent tag (length its)) :: (update its d).2, false).
Proof.
  intros Htag. unfold batch_events in Htag.
  repeat (apply elem_of_cons in Htag as [-> | Htag]);
    [| | | by apply elem_of_nil in Htag];
    unfold eventListener; simpl; by destruct (update its d).
Qed.


(** ** What [update] leaves alone *)

Lemma call_listeners_frame hook k v ls d :
  (∀ v d, frame (hook v d).1 = frame d) →
  frame (call_listeners hook k v ls d).1.1 = frame d.
Proof.
  intros Hh. revert d. induction ls as [|l ls IH]; intros d; simpl; [done|].
  destruct (decide (listener_key l = k)); [|apply IH].
  destruct l.
  - rewrite IH. unfold arm_blackout. by destruct (blackoutScheduled d).
  - pose proof (Hh v d) as H1.
    destruct (hook v d) as [d1 evs1].
    pose proof (IH d1) as H.
    destruct (call_listeners hook k v ls d1) as [[d2 evs2] threw].
    simpl in *. congruence.
  - destruct (throws (items d) v); [done|].
    pose proof (IH d) as H.
    destruct (call_listeners hook k v ls d) as [[d1 evs] threw]. done.
Qed.

Lemma update_with_frame hook its d :
  (∀ v d, frame (hook v d).1 = frame d) →
  frame (update_with hook its d).1 = frame d.
Proof.
  intros Hh. unfold update_with.
  assert (H : ∀ d, frame (notify_all hook its d).1 = frame d).
  { clear d. induction its as [|it its IH]; intros d; simpl; [done|].
    unfold notify_item.
    pose proof (call_listeners_frame hook (key it) (value it) (listeners d) d Hh) as H1.
    destruct (call_listeners _ _ _ _ _) as [[d1 evs] threw].
    pose proof (IH d1) as H2.
    destruct (notify_all hook its d1) as [d2 evs2]. simpl in *. congruence. }
  by rewrite H.
Qed.

Lemma update_nested_frame its d : frame (update_nested its d).1 = frame d.
Proof. by apply update_with_frame. Qed.

Lemma infer_power_frame v d : frame (infer_power update_nested v d).1 = frame d.
Proof.
  unfold infer_power.
  destruct (operationImpliesOn v) as [b|]; [|done].
  destruct (b && _).
  - destruct (blackoutScheduled d); [done|].
    pose proof (update_nested_frame [power_item PowerState_On] d) as H.
    destruct (update_nested _ d). done.
  - destruct (negb b && _); [|done].
    pose proof (update_nested_frame [power_item PowerState_Standby] d) as H.
    destruct (update_nested _ d). done.
Qed.

Lemma update_frame its d : frame (update its d).1 = frame d.
Proof. apply update_with_frame, infer_power_frame. Qed.

Ltac frame_of H :=
  unfold frame in H; simplify_eq H; intros.

(** ** An observer that throws *)

(** An observer is reached by [emit] when the listeners for the key
    registered before it do not throw. *)
Lemma call_listeners_reaches hook k v l1 lid throws l2 d :
  Forall (never_throws k) l1 →
  ∃ snap, EvNotify lid k v snap ∈ (call_listeners hook k v (l1 ++ LObserver lid k throws :: l2) d).1.2.
Proof.
  intros Hq. revert d. induction Hq as [|l l1 Hl Hq IH]; intros d; simpl.
  - destruct (decide (k = k)); [|done].
    destruct (throws (items d) v).
    + exists (items d). simpl. apply elem_of_cons. by left.
    + destruct (call_listeners hook k v l2 d) as [[d1 evs] threw].
      exists (items d). simpl. apply elem_of_cons. by left.
  - destruct (decide (listener_key l = k)) as [He|]; [|apply IH].
    destruct l.
    + apply IH.
    + destruct (hook v d) as [d1 evs1].
      destruct (IH d1) as [snap H].
      destruct (call_listeners hook k v _ d1) as [[d2 evs2] threw].
      exists snap. simpl in *. apply elem_of_cons. by right.
    + simpl in He, Hl. rewrite (Hl He).
      destruct (IH d) as [snap H].
      destruct (call_listeners hook k v _ d) as [[d2 evs2] threw].
      exists snap. simpl in *. apply elem_of_cons. by right.
Qed.

(** ... and when it throws, the emit throws. *)
Lemma call_listeners_throws hook k v l1 lid throws l2 d :
  Forall (never_throws k) l1 → (∀ m, throws m v = true) →
  (call_listeners hook k v (l1 ++ LObserver lid k throws :: l2) d).2 = true.
Proof.
  intros Hq Ht. revert d. induction Hq as [|l l1 Hl Hq IH]; intros d; simpl.
  - destruct (decide (k = k)); [|done]. by rewrite Ht.
  - destruct (decide (listener_key l = k)) as [He|]; [|apply IH].
    destruct l.
    + apply IH.
    + destruct (hook v d) as [d1 evs1].
      pose proof (IH d1) as H.
      destruct (call_listeners hook k v _ d1) as [[d2 evs2] threw]. done.
    + simpl in He, Hl. rewrite (Hl He).
      pose proof (IH d) as H.
      destruct (call_listeners hook k v _ d) as [[d2 evs2] threw]. done.
Qed.

Lemma notify_all_notifies hook its d it l1 lid throws l2 :
  (∀ v d, listeners (hook v d).1 = listeners d) →
  it ∈ its →
  listeners d = l1 ++ LObserver lid (key it) throws :: l2 →
  Forall (never_throws (key it)) l1 →
  (∃ snap, EvNotify lid (key it) (value it) snap ∈ (notify_all hook its d).2)
  ∧ ((∀ m, throws m (value it) = true) →
     EvLog (LogEmitError (key it) (value it)) ∈ (notify_all hook its d).2).
Proof.
  intros Hh Hin. revert d. induction its as [|x its IH]; intros d Hl Hq.
  { by apply elem_of_nil in Hin. }
  simpl.
  pose proof (notify_item_listeners hook Hh x d) as Hl1.
  apply elem_of_cons in Hin as [<- | Hin].
  - unfold notify_item in *. rewrite Hl in *.
    destruct (call_listeners_reaches hook (key it) (value it) l1 lid throws l2 d Hq)
      as [snap Hs].
    pose proof (call_listeners_throws hook (key it) (value it) l1 lid throws l2 d Hq) as Ht.
    destruct (call_listeners _ _ _ _ _) as [[d1 evs] threw]. simpl in *.
    destruct (notify_all hook its d1) as [d2 evs2]. simpl. split.
    + exists snap. apply elem_of_cons. right. apply elem_of_app. left.
      apply elem_of_app. by left.
    + intros Hthrows. rewrite (Ht Hthrows). apply elem_of_cons. right.
      apply elem_of_app. left. apply elem_of_app. right.
      apply elem_of_cons. by left.
  - destruct (notify_item hook x d) as [d1 evs1]. simpl in Hl1.
    destruct (IH Hin d1) as [[snap Hs] Ht]; [congruence | done |].
    destruct (notify_all hook its d1) as [d2 evs2]. simpl in *. split.
    + exists snap. apply elem_of_app. by right.
    + intros Hthrows. apply elem_of_app. right. by apply Ht.
Qed.

Lemma update_streamEnded its d : streamEnded (update its d).1 = streamEnded d.
Proof. pose proof (update_frame its d) as H. frame_of H. done. Qed.

Lemma update_stopEvents its d : stopEvents (update its d).1 = stopEvents d.
Proof. pose proof (update_frame its d) as H. frame_of H. done. Qed.

(** C10, amended.  An observer that throws while [update] notifies the
    listeners of an item does not stop [update]: the failure is logged there
    and nothing reaches the caller, so the loop of [processEvents], which an
    exception would end, goes on.  The store keeps what the batch wrote:
    every key but the power setting holds the value of the last item of the
    batch with that key (and is as it was when the batch has none), and so
    does the power setting unless the batch has an operation state, whose
    inference may have set it to [On] or [Standby].  Every item of the batch
    still gets its emit, in order, and every observer that the listeners
    before it let through is still called for every item of its key. *)
Theorem update_survives_throwing_observer
    (its : list Item) (d : Device) (bad : Item)
    (l1 l2 : list Listener) (lid : nat) (throws : gmap string Value → Value → bool) :
  plain_keys its →
  bad ∈ its →
  listeners d = l1 ++ LObserver lid (key bad) throws :: l2 →
  Forall (never_throws (key bad)) l1 →
  (∀ m, throws m (value bad) = true) →
  EvLog (LogEmitError (key bad) (value bad)) ∈ (update its d).2
  ∧ (∀ k, k ≠ K_PowerState →
       items (update its d).1 !! k = after_batch its (items d) k)
  ∧ (items (update its d).1 !! K_PowerState = after_batch its (items d) K_PowerState
     ∨ (K_OperationState ∈ map key its
        ∧ (items (update its d).1 !! K_PowerState = Some PowerState_On
           ∨ items (update its d).1 !! K_PowerState = Some PowerState_Standby)))
  ∧ (∃ segs, (update its d).2 = concat segs
             ∧ Forall2 (item_segment (listeners d)) its segs)
  ∧ (∀ it l1' l2' lid' throws',
       it ∈ its →
       listeners d = l1' ++ LObserver lid' (key it) throws' :: l2' →
       Forall (never_throws (key it)) l1' →
       ∃ snap, EvNotify lid' (key it) (value it) snap ∈ (update its d).2)
  ∧ (∀ tag b, tag ∈ batch_events → streamEnded d = false → stopEvents d = false →
       processEvent {| event := tag; data := Some its; err := b |} d
       = ((update its d).1, EvLog (LogEvent tag (length its)) :: (update its d).2)
       ∧ streamEnded (update its d).1 = false).
Proof.
  intros _ Hin Hl Hq Ht.
  destruct (update_applied its d) as [[Ha1 Ha2] _].
  split.
  { unfold update, update_with.
    eapply notify_all_notifies; eauto using infer_power_listeners. }
  split; [intros k Hk; by rewrite Ha1, store_all_spec|].
  split.
  { destruct (decide (K_OperationState ∈ map key its)) as [Ho | Ho].
    - rewrite store_all_spec in Ha2. destruct Ha2 as [H | H]; [by left | right; auto].
    - left. destruct (update_store its d Ho) as [-> _]. apply store_all_spec. }
  split; [apply update_segments|].
  split.
  { intros it l1' l2' lid' throws' Hin' Hl' Hq'. unfold update, update_with.
    eapply notify_all_notifies; eauto using infer_power_listeners. }
  intros tag b Htag Hs Hstop. unfold processEvent. rewrite Hs.
  rewrite eventListener_batch by done. cbn [orb].
  rewrite update_stopEvents, Hstop, update_streamEnded, app_nil_r. done.
Qed.

(** ** Concrete devices used by the examples below *)

Lemma plain_keys_cons it its : key it ≠ "__proto__" → plain_keys its → plain_keys (it :: its).
Proof.
  unfold plain_keys. intros H1 H2 H. simpl in H.
  apply elem_of_cons in H as [H | H]; [congruence | done].
Qed.

Lemma plain_keys_nil : plain_keys [].
Proof. unfold plain_keys. apply not_elem_of_nil. Qed.



(** C10, as stated, fails on the code.  The observer of the power setting
    throws whenever it is called.  The batch brings the operation state
    [Run] and the power setting [Off]: the failure of the emit for the power
    setting is logged, and the store does not hold the new value [Off] of
    that item but the [On] that the inference wrote over it. *)
Lemma inferred_power_setting_replaces_the_stored_value :
  let bad := power_item PowerState_Off in
  let its := [item K_OperationState (VStr OperationState_Run); bad] in
  let d := set_listeners (listeners oven ++ [LObserver 7 K_PowerState observer_always_throws])
             oven in
  last (update its d).2 = Some (EvLog (LogEmitError (key bad) (value bad)))
  ∧ getItem (key bad) (update its d).1 = PowerState_On
  ∧ value bad ≠ PowerState_On.
Proof. vm_compute. done. Qed.

(** The observer of the operation state throws; the batch brings the
    operation state and the door state. *)
Lemma update_survives_throwing_observer_witness :
  let bad := item K_OperationState (VStr OperationState_Run) in
  let door := "BSH.Common.Status.DoorState" in
  let its := [bad; item door (VStr "BSH.Common.EnumType.DoorState.Closed")] in
  let d := set_listeners (listeners oven ++ [LObserver 7 K_OperationState observer_always_throws]) oven in
  plain_keys its
  ∧ EvLog (LogEmitError (key bad) (value bad)) ∈ (update its d).2
  ∧ getItem K_OperationState (update its d).1 = VStr OperationState_Run
  ∧ getItem door (update its d).1 = VStr "BSH.Common.EnumType.DoorState.Closed"
  ∧ (∃ snap, EvNotify 7 (key bad) (value bad) snap ∈ (update its d).2).
Proof.
  intros bad door its d.
  assert (Hk : plain_keys its) by (repeat apply plain_keys_cons; try done; apply plain_keys_nil).
  assert (Hin : bad ∈ its) by (apply elem_of_cons; by left).
  destruct (update_survives_throwing_observer its d bad [LBlackout; LInfer] [] 7
              observer_always_throws Hk Hin eq_refl) as (H1 & H2 & _ & _ & H5 & _).
  { repeat constructor. }
  { intros m. reflexivity. }
  split; [exact Hk|]. split; [exact H1|].
  split; [unfold getItem; by rewrite (H2 K_OperationState)|].
  split; [unfold getItem; by rewrite (H2 door)|].
  apply (H5 bad [LBlackout; LInfer] [] 7 observer_always_throws Hin eq_refl).
  repeat constructor.
Defined.

(** ** Power state inference and its blackout *)

Lemma infer_power_on_suppressed upd v d t :
  operationImpliesOn v = Some true →
  getItem K_PowerState d ≠ PowerState_On →
  blackoutScheduled d = Some t →
  infer_power upd v d = (d, [EvLog LogImpliesOnIgnored]).
Proof.
  intros Hv Hp Hb. unfold infer_power. rewrite Hv, Hb. simpl.
  by rewrite bool_decide_eq_false_2.
Qed.

Lemma infer_power_on_published upd v d :
  operationImpliesOn v = Some true →
  getItem K_PowerState d ≠ PowerState_On →
  blackoutScheduled d = None →
  infer_power upd v d
  = ((upd [power_item PowerState_On] d).1,
     EvLog LogImpliesOn :: (upd [power_item PowerState_On] d).2).
Proof.
  intros Hv Hp Hb. unfold infer_power. rewrite Hv, Hb. simpl.
  rewrite bool_decide_eq_false_2 by done. simpl. by destruct (upd _ d).
Qed.

(** The correction towards standby does not look at the blackout. *)
Lemma infer_power_standby_published upd v d :
  operationImpliesOn v = Some false →
  getItem K_PowerState d = PowerState_On →
  infer_power upd v d
  = ((upd [power_item PowerState_Standby] d).1,
     EvLog LogImpliesOff :: (upd [power_item PowerState_Standby] d).2).
Proof.
  intros Hv Hp. unfold infer_power. rewrite Hv. simpl.
  rewrite bool_decide_eq_true_2 by done. simpl. by destruct (upd _ d).
Qed.

(** C5, on the code.  An oven whose power setting was just reported [On]
    (the blackout is armed) receives the operation state [Inactive]: the
    inference publishes [Standby] at once, blackout or not.  In the other
    direction (power just reported [Off], operation state [Run]) the armed
    blackout does suppress the correction, which is only logged; once the
    blackout timer has fired the same operation state publishes [On]. *)
Theorem blackout_does_not_cover_standby_inference :
  let reported_on := run [batch_event "NOTIFY" [power_item PowerState_On]] (all_scopes, oven) in
  let reported_off := run [batch_event "NOTIFY" [power_item PowerState_Off]] (all_scopes, oven) in
  let inactive := batch_event "STATUS" [item K_OperationState (VStr OperationState_Inactive)] in
  let running := batch_event "STATUS" [item K_OperationState (VStr OperationState_Run)] in
  blackoutScheduled reported_on.1.2 = Some 1
  ∧ (step inactive reported_on.1).2
    = [EvLog (LogEvent "STATUS" 1);
       EvEmit K_OperationState (VStr OperationState_Inactive) 1;
       EvInfer [EvLog LogImpliesOff; EvEmit K_PowerState PowerState_Standby 1]]
  ∧ getItem K_PowerState (step inactive reported_on.1).1.2 = PowerState_Standby
  ∧ blackoutScheduled reported_off.1.2 = Some 1
  ∧ (step running reported_off.1).2
    = [EvLog (LogEvent "STATUS" 1);
       EvEmit K_OperationState (VStr OperationState_Run) 1;
       EvInfer [EvLog LogImpliesOnIgnored]]
  ∧ (run [InTimer 1; running] reported_off.1).2
    = [EvLog (LogEvent "STATUS" 1);
       EvEmit K_OperationState (VStr OperationState_Run) 1;
       EvInfer [EvLog LogImpliesOn; EvEmit K_PowerState PowerState_On 1]].
Proof. vm_compute. repeat split; reflexivity. Qed.

(** ** The remote control gate of the mutating operations *)

(** C6, as stated, fails on the code: with the Control scope granted, the
    oven connected and local control active, [openDoor] calls the transport,
    and [stopProgram] (no program is active) returns to its caller without a
    failure. *)
Lemma mutations_not_all_gated :
  let d := locally_controlled_oven in
  mutating (OpenDoor true) = true ∧ mutating StopProgram = true
  ∧ scope_gate (OpenDoor true) all_scopes d = None
  ∧ truthy (getItem K_LocalControlActive d) = true
  ∧ (call_op (OpenDoor true) all_scopes d).2
    = [EvCall 1 (ApiSetCommand "BSH.Common.Command.OpenDoor")]
  ∧ (call_op StopProgram all_scopes d).2
    = [EvLog LogIgnoringStop; EvSettled 1 Returned].
Proof. vm_compute. repeat split; reflexivity. Qed.

Lemma gate_seq_refused (g1 g2 : Gate) a d e2 :
  g2 a d = Some e2 →
  ∃ e, gate_seq g1 g2 a d = Some e
       ∧ (g1 a d = None → e = e2) ∧ (∀ e1, g1 a d = Some e1 → e = e1).
Proof.
  intros H2. unfold gate_seq. destruct (g1 a d) as [e1|].
  - exists e1. split; [done|]. split; [done|]. by intros ? [= ->].
  - exists e2. split; [done|]. split; [done|]. done.
Qed.

Lemma requireRemoteControl_refused a d :
  truthy (getItem K_LocalControlActive d) = true
  ∨ getItem K_RemoteControlActive d = VBool false →
  ∃ e, requireRemoteControl a d = Some e ∧ remote_control_denied e = true.
Proof.
  intros H. unfold requireRemoteControl.
  destruct (truthy (getItem K_LocalControlActive d)) eqn:E; [by eexists|].
  destruct H as [H | H]; [done|].
  rewrite bool_decide_eq_true_2 by done. by eexists.
Qed.

Lemma requireRemoteStart_refused a d :
  truthy (getItem K_LocalControlActive d) = true
  ∨ getItem K_RemoteControlActive d = VBool false
  ∨ getItem K_RemoteControlStartAllowed d = VBool false →
  ∃ e, requireRemoteStart a d = Some e ∧ remote_control_denied e = true.
Proof.
  intros H. unfold requireRemoteStart, gate_seq.
  destruct (requireRemoteControl a d) as [e|] eqn:E.
  - exists e. split; [done|]. unfold requireRemoteControl in E.
    destruct (truthy _); [by injection E as <-|].
    destruct (bool_decide _); [by injection E as <-|]. done.
  - destruct H as [H | [H | H]].
    + destruct (requireRemoteControl_refused a d) as (e & He & _); [by left | congruence].
    + destruct (requireRemoteControl_refused a d) as (e & He & _); [by right | congruence].
    + rewrite bool_decide_eq_true_2 by done. by eexists.
Qed.

Lemma call_op_throw o a d e :
  op_begin a d o = BThrow e → suppressed o e = false →
  call_op o a d
  = (a, set_nextId (S (nextId d)) d,
     [EvLog (LogOpError o e); EvSettled (nextId d) (Threw e)]).
Proof. intros H Hs. unfold call_op, op_throw. by rewrite H, Hs. Qed.

Lemma gate_error_not_suppressed o e :
  (∀ code, e ≠ ErrApi code) → suppressed o e = false.
Proof. intros H. destruct o, e; try done; by destruct (H code). Qed.

(** C6, amended.  [setSetting], [setSelectedProgram], [startProgram],
    [pauseProgram], [setActiveProgramOption], and [stopProgram] while a
    program is active, check before their transport call that local control
    is not active and that remote control is enabled (and remote start, for
    starting a program).  When the check fails the operation throws before
    any transport call: the caller gets the failure, which is one of the
    remote control errors whenever the scope and connection check before it
    passed, and is the error of that check otherwise.  [stopProgram] without
    an active program returns without a check and without a transport call. *)
Theorem remote_control_gate (a : Api) (d : Device) (o : Op) :
  checks_remote_control o d = true →
  remote_control_refused o d →
  ∃ e, op_begin a d o = BThrow e
       ∧ (scope_gate o a d = None → remote_control_denied e = true)
       ∧ (∀ e1, scope_gate o a d = Some e1 → e = e1)
       ∧ call_op o a d
         = (a, set_nextId (S (nextId d)) d,
            [EvLog (LogOpError o e); EvSettled (nextId d) (Threw e)])
       ∧ has_call (call_op o a d).2 = false
       ∧ (includes activeStates (getItem K_OperationState d) = false →
          call_op StopProgram a d
          = (a, set_nextId (S (nextId d)) d,
             [EvLog LogIgnoringStop; EvSettled (nextId d) Returned])).
Proof.
  intros Hc Hr.
  assert (Hstop : includes activeStates (getItem K_OperationState d) = false →
          call_op StopProgram a d
          = (a, set_nextId (S (nextId d)) d,
             [EvLog LogIgnoringStop; EvSettled (nextId d) Returned])).
  { intros Hi. unfold call_op. simpl. by rewrite Hi. }
  assert (Hgen : ∀ g2 r w,
    op_begin a d o = gated (gate_seq (scope_gate o) g2) a d r w →
    (∃ e2, g2 a d = Some e2 ∧ remote_control_denied e2 = true) →
    ∃ e, op_begin a d o = BThrow e
       ∧ (scope_gate o a d = None → remote_control_denied e = true)
       ∧ (∀ e1, scope_gate o a d = Some e1 → e = e1)
       ∧ (∀ code, e ≠ ErrApi code)).
  { intros g2 r w Hb (e2 & He2 & Hd2).
    destruct (gate_seq_refused (scope_gate o) g2 a d e2 He2) as (e & He & H1 & H2).
    exists e. rewrite Hb. unfold gated. rewrite He. split; [done|].
    split; [by intros ->%H1|]. split; [done|].
    intros code ->. unfold gate_seq in He.
    destruct (scope_gate o a d) as [e1|] eqn:Es.
    - injection He as ->. destruct o; simpl in Es;
        unfold requireIdentify, requireMonitor, requireSettings, requireControl,
          requireScope, gate_seq, requireConnected in Es;
        repeat (match type of Es with context [if ?b then _ else _] => destruct b end);
        discriminate.
    - rewrite He in He2. injection He2 as <-. done. }
  assert (Hrc : truthy (getItem K_LocalControlActive d) = true
                ∨ getItem K_RemoteControlActive d = VBool false →
                ∃ e2, requireRemoteControl a d = Some e2 ∧ remote_control_denied e2 = true)
    by apply requireRemoteControl_refused.
  assert (Hfin : (∃ e, op_begin a d o = BThrow e
       ∧ (scope_gate o a d = None → remote_control_denied e = true)
       ∧ (∀ e1, scope_gate o a d = Some e1 → e = e1)
       ∧ (∀ code, e ≠ ErrApi code)) →
     ∃ e, op_begin a d o = BThrow e
       ∧ (scope_gate o a d = None → remote_control_denied e = true)
       ∧ (∀ e1, scope_gate o a d = Some e1 → e = e1)
       ∧ call_op o a d
         = (a, set_nextId (S (nextId d)) d,
            [EvLog (LogOpError o e); EvSettled (nextId d) (Threw e)])
       ∧ has_call (call_op o a d).2 = false
       ∧ (includes activeStates (getItem K_OperationState d) = false →
          call_op StopProgram a d
          = (a, set_nextId (S (nextId d)) d,
             [EvLog LogIgnoringStop; EvSettled (nextId d) Returned]))).
  { intros (e & Hb & H1 & H2 & H3). exists e.
    pose proof (call_op_throw o a d e Hb (gate_error_not_suppressed o e H3)) as Hcall.
    repeat (split; [done|]). split; [by rewrite Hcall | done]. }
  apply Hfin.
  destruct Hr as [Hr | [Hr | ((pk & opts & ->) & Hr)]].
  - destruct o; try discriminate Hc;
      try (eapply Hgen; [reflexivity | ]; first [apply Hrc; by left
           | apply requireRemoteStart_refused; by left]).
    simpl in Hc. eapply Hgen; [simpl; by rewrite Hc | apply Hrc; by left].
  - destruct o; try discriminate Hc;
      try (eapply Hgen; [reflexivity | ]; first [apply Hrc; by right
           | apply requireRemoteStart_refused; right; by left]).
    simpl in Hc. eapply Hgen; [simpl; by rewrite Hc | apply Hrc; by right].
  - eapply Hgen; [reflexivity | apply requireRemoteStart_refused; right; by right].
Qed.

Lemma remote_control_gate_witness :
  let d := locally_controlled_oven in
  let o := SetSetting K_PowerState PowerState_Off in
  ∃ e, op_begin all_scopes d o = BThrow e
       ∧ (scope_gate o all_scopes d = None → remote_control_denied e = true)
       ∧ (∀ e1, scope_gate o all_scopes d = Some e1 → e = e1)
       ∧ call_op o all_scopes d
         = (all_scopes, set_nextId (S (nextId d)) d,
            [EvLog (LogOpError o e); EvSettled (nextId d) (Threw e)])
       ∧ has_call (call_op o all_scopes d).2 = false
       ∧ (includes activeStates (getItem K_OperationState d) = false →
          call_op StopProgram all_scopes d
          = (all_scopes, set_nextId (S (nextId d)) d,
             [EvLog LogIgnoringStop; EvSettled (nextId d) Returned])).
Proof.
  intros d o. apply (remote_control_gate all_scopes d o).
  - reflexivity.
  - left. reflexivity.
Defined.

(** ** Teardown *)

Lemma unregister_effect a d :
  run unregister (a, d) = (a, set_listeners [] (set_stopEvents true d), []).
Proof. reflexivity. Qed.

(** C7, on the code.  [stop()] sets a flag and [removeAllListeners()]
    empties the listeners: teardown clears no timer and drops no pending
    call.  For the oven above the four timers are still pending after
    [unregister()]; the retry timer then calls the transport again, the next
    failure schedules another retry, the grace timer still marks the
    appliance disconnected, and the event that arrives after [stop()] is
    still handled before the stream loop ends. *)
Theorem teardown_cancels_no_timer :
  (∀ a d, timers (run unregister (a, d)).1.2 = timers d
          ∧ calls (run unregister (a, d)).1.2 = calls d
          ∧ listeners (run unregister (a, d)).1.2 = []
          ∧ stopEvents (run unregister (a, d)).1.2 = true)
  ∧ (let torn_down := (run unregister busy_oven).1 in
     timers torn_down.2
     = [{| tid := 4; delay := 5000; callback := CbReadAll |};
        {| tid := 5; delay := 2000; callback := CbBlackout |};
        {| tid := 6; delay := 3000; callback := CbStop |};
        {| tid := 7; delay := 0; callback := CbSetConnected (Some true) |}]
     ∧ (run [InTimer 4; InResponse 8 (RFail (ErrOther "timeout"))] torn_down).2
       = [EvCall 8 ApiGetAppliance;
          EvLog (LogOpError GetAppliance (ErrOther "timeout"));
          EvLog (LogReadAllRetry (ErrOther "timeout") 10)]
     ∧ connected (step (InTimer 6) torn_down).1.2 = Some false
     ∧ (step (plain_event "STOP") torn_down).2 = [EvLog (LogEvent "STOP" 0)]
     ∧ length (timers (step (plain_event "STOP") torn_down).1.2) = 5).
Proof.
  split.
  - intros a d. rewrite unregister_effect. done.
  - vm_compute. repeat split; reflexivity.
Qed.

(** ** Two devices on one transport object *)

(** C8, as stated, fails on the code: the delay the dishwasher waits after
    the failure of its read is 5 s when the oven has done nothing, and 10 s
    when the read of the oven has failed before. *)
Lemma retry_delay_is_shared :
  (world_run (failed_read "dishwasher") kitchen).2
  = [EvLog (LogReading true); EvCall 3 ApiGetAppliance;
     EvLog (LogOpError GetAppliance (ErrOther "timeout"));
     EvLog (LogReadAllRetry (ErrOther "timeout") 5)]
  ∧ (world_run (failed_read "dishwasher") (world_run (failed_read "oven") kitchen).1).2
    = [EvLog (LogReading true); EvCall 3 ApiGetAppliance;
       EvLog (LogOpError GetAppliance (ErrOther "timeout"));
       EvLog (LogReadAllRetry (ErrOther "timeout") 10)].
Proof. vm_compute. split; reflexivity. Qed.

Lemma readAll_catch_connected e a d :
  is_connected d = true →
  readAll_catch e a d
  = (set_readAllRetryDelay (Some (next_retry_delay (readAllRetryDelay a))) a,
     set_readAllScheduled (Some (nextId d))
       (set_nextId (S (nextId d))
          (set_timers (timers d ++ [{| tid := nextId d;
                                       delay := next_retry_delay (readAllRetryDelay a) * MS;
                                       callback := CbReadAll |}]) d)),
     [EvLog (LogReadAllRetry e (next_retry_delay (readAllRetryDelay a)))]).
Proof. intros H. unfold readAll_catch. rewrite H. reflexivity. Qed.


(** ** The delays between retries of [readAll] *)




Lemma retry_delay_pos k : (0 < retry_delay k)%Z.
Proof.
  unfold retry_delay, CONNECTED_RETRY_MIN_DELAY, CONNECTED_RETRY_FACTOR,
    CONNECTED_RETRY_MAX_DELAY.
  assert (0 < 2 ^ Z.of_nat k)%Z by (apply Z.pow_pos_nonneg; lia). lia.
Qed.

Lemma next_retry_delay_after k :
  next_retry_delay (delay_after k) = retry_delay k.
Proof.
  destruct k as [|k]; simpl.
  - reflexivity.
  - pose proof (retry_delay_pos k) as Hpos.
    destruct (Z.eqb_spec (retry_delay k) 0); [lia|].
    unfold retry_delay, CONNECTED_RETRY_MIN_DELAY, CONNECTED_RETRY_FACTOR,
      CONNECTED_RETRY_MAX_DELAY in *.
    rewrite Nat2Z.inj_succ, Z.pow_succ_r by lia.
    assert (0 < 2 ^ Z.of_nat k)%Z by (apply Z.pow_pos_nonneg; lia). lia.
Qed.

Lemma call_listeners_from_update hook k v ls d :
  Forall from_update (call_listeners hook k v ls d).1.2.
Proof.
  revert d. induction ls as [|l ls IH]; intros d; simpl; [constructor|].
  destruct (decide (listener_key l = k)); [|apply IH].
  destruct l.
  - apply IH.
  - destruct (hook v d) as [d1 evs1].
    pose proof (IH d1) as H.
    destruct (call_listeners hook k v ls d1) as [[d2 evs2] threw].
    simpl in *. constructor; done.
  - destruct (throws (items d) v).
    { simpl. repeat constructor. }
    pose proof (IH d) as H.
    destruct (call_listeners hook k v ls d) as [[d1 evs] threw].
    simpl in *. constructor; done.
Qed.

Lemma update_from_update its d : Forall from_update (update its d).2.
Proof.
  unfold update, update_with. generalize (set_items (store_all its (items d)) d).
  induction its as [|it its IH]; intros d0; simpl; [constructor|].
  unfold notify_item.
  pose proof (call_listeners_from_update (infer_power update_nested)
                (key it) (value it) (listeners d0) d0) as H1.
  destruct (call_listeners _ _ _ _ _) as [[d1 evs] threw].
  pose proof (IH d1) as H2.
  destruct (notify_all _ its d1) as [d2 evs2]. simpl in *.
  constructor; [done|]. apply Forall_app. split; [|done].
  apply Forall_app. split; [done|]. destruct (threw || _); repeat constructor.
Qed.

Lemma from_update_quiet e : from_update e → quiet e.
Proof. destruct e as [m| | | | |]; try done. destruct m; done. Qed.

Lemma update_quiet its d : Forall quiet (update its d).2.
Proof. eapply Forall_impl; [apply update_from_update | apply from_update_quiet]. Qed.

Ltac split_update :=
  repeat match goal with
  | |- context [reported_program ?x ?y] =>
      destruct (reported_program x y) as [[[? ?] ?]|]
  | |- context [update ?its ?d] =>
      let H := fresh "Hq" in
      pose proof (update_quiet its d) as H;
      destruct (update its d) as [? ?]; simpl in H
  end.

Ltac solve_quiet :=
  simpl;
  repeat first
    [ apply Forall_nil_2
    | apply Forall_cons; split; [exact I|]
    | apply Forall_app; split
    | assumption ].

Lemma onConnected_quiet d : Forall quiet (onConnected d).2.
Proof.
  unfold onConnected. destruct (readAllActions d); [solve_quiet|].
  simpl. destruct (readAllScheduled d); solve_quiet.
Qed.

Lemma setConnectedState_quiet c d : Forall quiet (setConnectedState c d).2.
Proof.
  unfold setConnectedState.
  destruct c as [[|]|]; simpl; try solve_quiet.
  destruct (readAllActions d) as [[arr [|o q]]|]; solve_quiet.
Qed.

Lemma setConnected_elapsed_quiet c d : Forall quiet (setConnected_elapsed c d).2.
Proof.
  unfold setConnected_elapsed.
  destruct (negb (is_connected d) && _); split_update.
  - destruct c as [[|]|]; simpl; try solve_quiet;
      match goal with |- context [onConnected ?x] =>
        pose proof (onConnected_quiet x) as H; destruct (onConnected x)
      end; solve_quiet.
  - destruct c as [[|]|]; simpl; try solve_quiet;
      match goal with |- context [onConnected ?x] =>
        pose proof (onConnected_quiet x) as H; destruct (onConnected x)
      end; solve_quiet.
Qed.

Lemma op_throw_quiet o e d : Forall quiet (op_throw o e d).1.2.
Proof. unfold op_throw. destruct (suppressed o e); solve_quiet. Qed.

Lemma op_resume_quiet o r d : Forall quiet (op_resume o r d).1.2.
Proof.
  unfold op_resume.
  destruct r; try apply op_throw_quiet;
    destruct o; try apply op_throw_quiet; split_update; try solve_quiet.
  - pose proof (setConnectedState_quiet isConnected d) as H.
    destruct (setConnectedState _ _). solve_quiet.
  - destruct (bool_decide _); split_update; solve_quiet.
Qed.

Lemma eventListener_quiet e d : Forall quiet (eventListener e d).1.2.
Proof.
  unfold eventListener.
  repeat (destruct (decide _); [
    try match goal with |- context [setConnectedState ?c ?x] =>
      pose proof (setConnectedState_quiet c x) as H; destruct (setConnectedState c x)
    end; solve_quiet |]).
  - destruct (data e); split_update; solve_quiet.
  - solve_quiet.
Qed.

Lemma processEvent_quiet e d : Forall quiet (processEvent e d).2.
Proof.
  unfold processEvent. destruct (streamEnded d); [solve_quiet|].
  pose proof (eventListener_quiet e d) as H.
  destruct (eventListener e d) as [[d1 evs] threw]. simpl in *.
  destruct threw; solve_quiet.
Qed.









Lemma run_cons i ins w :
  run (i :: ins) w
  = let '(a1, d1, evs1) := step i w in
    let '(a2, d2, evs2) := run ins (a1, d1) in
    (a2, d2, evs1 ++ evs2).
Proof. reflexivity. Qed.


(** An operation that fails after its transport call leaves the device as
    it was before the response. *)
Lemma op_resume_threw o r d d1 evs e :
  op_resume o r d = (d1, evs, Threw e) → d1 = d ∧ evs = [EvLog (LogOpError o e)].
Proof.
  assert (Ht : ∀ e0, op_throw o e0 d = (d1, evs, Threw e) →
                     d1 = d ∧ evs = [EvLog (LogOpError o e)]).
  { intros e0. unfold op_throw. destruct (suppressed o e0); [by destruct o|].
    by intros [= <- <- <-]. }
  unfold op_resume.
  destruct r; try apply Ht; destruct o; try apply Ht;
    repeat match goal with
    | |- context [reported_program ?x ?y] =>
        destruct (reported_program x y) as [[[? ?] ?]|]
    | |- context [update ?its ?x] => destruct (update its x) as [? ?]
    | |- context [setConnectedState ?c ?x] => destruct (setConnectedState c x) as [? ?]
    | |- context [if ?b then _ else _] => destruct b
    end; done.
Qed.



(** ** The retry delay on the shared transport object *)

Lemma api_rule_quiet a d evs : Forall quiet evs → api_rule a (a, d, evs).
Proof. intros Hq. split; [done|]. by left. Qed.

Lemma api_rule_prefix a (d : Device) evs1 (r : Api * Device * list Ev) :
  Forall quiet evs1 → api_rule a r → api_rule a (r.1.1, d, evs1 ++ r.2).
Proof.
  intros Hq [H1 H2]. split; [done|]. cbn [fst snd].
  destruct H2 as [[H2 H3] | [[[e H2] H3] | [H2 H3]]].
  - left. split; [by apply Forall_app | done].
  - right. left. split; [|done]. exists e. apply elem_of_app. by right.
  - right. right. split; [|done]. apply elem_of_app. by right.
Qed.

Lemma readAll_catch_api e a d : api_rule a (readAll_catch e a d).
Proof.
  unfold readAll_catch. destruct (is_connected d).
  - split; [done|]. right. left. split; [|done]. exists e. simpl.
    apply elem_of_cons. by left.
  - apply api_rule_quiet. solve_quiet.
Qed.

Lemma readAll_end_api a d : api_rule a (readAll_end a d).
Proof.
  unfold readAll_end. simpl. destruct (readAllActions d).
  - destruct (is_connected _ && _); split_update;
      (split; [done|]); right; right; (split; [|done]); apply elem_of_cons; by left.
  - apply api_rule_quiet. solve_quiet.
Qed.

Lemma op_begin_done_quiet a d o out evs :
  op_begin a d o = BDone out evs → Forall quiet evs.
Proof.
  intros Eb. destruct o; simpl in Eb; unfold gated in Eb;
    repeat (match type of Eb with context [if ?b then _ else _] => destruct b
            | context [match ?g with Some _ => _ | None => _ end] => destruct g end);
    try discriminate; injection Eb as <- <-; solve_quiet.
Qed.

Lemma readAll_loop_api arr q a d : api_rule a (readAll_loop arr q a d).
Proof.
  revert d. induction q as [|o q IH]; intros d; simpl.
  { apply readAll_end_api. }
  destruct (op_begin a d o) as [e | r w | out evs1] eqn:Eb.
  - pose proof (op_throw_quiet o e d) as Hq.
    destruct (op_throw o e d) as [[d1 evs1] out]. simpl in Hq.
    assert (Hloop : ∀ d', api_rule a
              (let '(a2, d2, evs2) := readAll_loop arr q a d' in (a2, d2, evs1 ++ evs2))).
    { intros d'. pose proof (IH d') as H.
      destruct (readAll_loop arr q a d') as [[a2 d2] evs2].
      by apply (api_rule_prefix a d2 evs1 (a2, d2, evs2)). }
    destruct out as [| | |e0]; try apply Hloop.
    pose proof (readAll_catch_api e0 a d1) as H.
    destruct (readAll_catch e0 a d1) as [[a2 d2] evs2].
    by apply (api_rule_prefix a d2 evs1 (a2, d2, evs2)).
  - apply api_rule_quiet. solve_quiet.
  - pose proof (op_begin_done_quiet a d o out evs1 Eb) as Hq.
    pose proof (IH (set_readAllActions (Some (arr, q)) d)) as H.
    destruct (readAll_loop arr q a _) as [[a2 d2] evs2].
    by apply (api_rule_prefix a d2 evs1 (a2, d2, evs2)).
Qed.

Lemma readAll_api a d : api_rule a (readAll a d).
Proof.
  unfold readAll. destruct (readAllActions d) as [[arr q]|].
  - apply readAll_loop_api.
  - apply readAll_end_api.
Qed.

Lemma readAll_resume_api arr o r a d : api_rule a (readAll_resume arr o r a d).
Proof.
  unfold readAll_resume.
  pose proof (op_resume_quiet o r d) as Hq.
  destruct (op_resume o r d) as [[d1 evs1] out]. simpl in Hq.
  assert (Hgo : api_rule a
            (let '(a2, d2, evs2) := readAll a (shift_actions arr d1) in (a2, d2, evs1 ++ evs2))).
  { pose proof (readAll_api a (shift_actions arr d1)) as H.
    destruct (readAll a _) as [[a2 d2] evs2].
    by apply (api_rule_prefix a d2 evs1 (a2, d2, evs2)). }
  destruct out as [| | |e]; try apply Hgo.
  pose proof (readAll_catch_api e a d1) as H.
  destruct (readAll_catch e a d1) as [[a2 d2] evs2].
  by apply (api_rule_prefix a d2 evs1 (a2, d2, evs2)).
Qed.

Lemma step_api i a d : api_rule a (step i (a, d)).
Proof.
  unfold step. destruct i.
  - pose proof (processEvent_quiet e d) as H.
    destruct (processEvent e d). by apply api_rule_quiet.
  - destruct (find_timer t d) as [x|]; [|apply api_rule_quiet; solve_quiet].
    unfold fire. destruct (callback x).
    + pose proof (setConnectedState_quiet (Some false) (clearTimeout (Some t) d)) as H.
      destruct (setConnectedState _ _). apply api_rule_quiet; solve_quiet.
    + pose proof (setConnected_elapsed_quiet isConnected (clearTimeout (Some t) d)) as H.
      destruct (setConnected_elapsed _ _). by apply api_rule_quiet.
    + apply readAll_api.
    + apply api_rule_quiet; solve_quiet.
  - destruct (find_call cid d) as [c|]; [|apply api_rule_quiet; solve_quiet].
    destruct (well_shaped _ _); [|apply api_rule_quiet; solve_quiet].
    destruct c.
    + apply readAll_resume_api.
    + pose proof (op_resume_quiet o r (remove_call cid d)) as H.
      destruct (op_resume _ _ _) as [[d1 evs] out].
      apply api_rule_quiet; solve_quiet.
  - unfold call_op. destruct (op_begin a d o) as [e | r w | out evs1] eqn:Eb.
    + pose proof (op_throw_quiet o e (set_nextId (S (nextId d)) d)) as H.
      destruct (op_throw _ _ _) as [[d1 evs] out].
      apply api_rule_quiet; solve_quiet.
    + apply api_rule_quiet; solve_quiet.
    + pose proof (op_begin_done_quiet a d o out evs1 Eb) as Hq.
      apply api_rule_quiet; solve_quiet.
  - apply api_rule_quiet; solve_quiet.
  - apply api_rule_quiet; solve_quiet.
  - apply api_rule_quiet; solve_quiet.
  - apply api_rule_quiet; solve_quiet.
Qed.

(** C8, amended.  A step of one device leaves every other device of the
    platform as it was: item store, connection state, listeners, timers and
    read queue are owned by the instance.  The retry delay is not: it is a
    field of the transport object, which the devices share.  A step of
    device A leaves the field alone, or, when a read of A fails while A is
    connected, advances it (the delay A logs), or, when a read of A is
    completed, deletes it.  The next failure of a read of device B, connected,
    then waits the delay computed from the field as A left it: what B would
    have waited had A done nothing, the next step of the backoff after a
    failure of A, the minimum of 5 seconds after a completed read of A. *)
Theorem instances_share_only_the_retry_delay
    (w : World) (idA idB : string) (i : Input) (dB : Device)
    (cid arr : nat) (o : Op) (r : Response) (e : Error) :
  idA ≠ idB → devices w !! idB = Some dB →
  find_call cid dB = Some (KReadAll arr o) → well_shaped o r = true →
  (op_resume o r (remove_call cid dB)).2 = Threw e → is_connected dB = true →
  let stepA := world_step idA i w in
  let old := readAllRetryDelay (api w) in
  let shared := readAllRetryDelay (api stepA.1) in
  let stepB := world_step idB (InResponse cid r) stepA.1 in
  devices stepA.1 !! idB = Some dB
  ∧ api_hasScope (api stepA.1) = api_hasScope (api w)
  ∧ shared_delay old shared stepA.2
  ∧ stepB.2 = [EvLog (LogOpError o e); EvLog (LogReadAllRetry e (next_retry_delay shared))]
  ∧ (∃ dB', devices stepB.1 !! idB = Some dB'
            ∧ timers dB' = timers dB ++ [retry_timer (nextId dB) (next_retry_delay shared)]
            ∧ items dB' = items dB ∧ connected dB' = connected dB
            ∧ readAllActions dB' = readAllActions dB)
  ∧ readAllRetryDelay (api stepB.1) = Some (next_retry_delay shared)
  ∧ next_retry_delay None = 5%Z
  ∧ (∀ k, next_retry_delay (delay_after k) = retry_delay k).
Proof.
  intros Hne HB Hcall Hshape Hthrew Hc. cbv zeta.
  assert (HA : devices (world_step idA i w).1 !! idB = Some dB
               ∧ api_hasScope (api (world_step idA i w).1) = api_hasScope (api w)
               ∧ shared_delay (readAllRetryDelay (api w))
                   (readAllRetryDelay (api (world_step idA i w).1)) (world_step idA i w).2).
  { unfold world_step. destruct (devices w !! idA) as [dA|].
    - destruct (step_api i (api w) dA) as [H1 H2].
      destruct (step i (api w, dA)) as [[a1 d1] evs]. simpl in *.
      split; [by rewrite lookup_insert_ne|]. done.
    - simpl. split; [done|]. split; [done|]. left. split; [constructor | done]. }
  destruct HA as (H1 & H2 & H3).
  split; [done|]. split; [done|]. split; [done|].
  set (w1 := (world_step idA i w).1) in *.
  unfold world_step. rewrite H1. unfold step. rewrite Hcall. cbn [cont_op].
  rewrite Hshape. unfold readAll_resume.
  destruct (op_resume o r (remove_call cid dB)) as [[d1 evs1] out] eqn:E.
  simpl in Hthrew. subst out.
  destruct (op_resume_threw _ _ _ _ _ _ E) as [-> ->].
  rewrite readAll_catch_connected by done. cbn [fst snd api devices].
  split; [done|].
  split.
  { eexists. rewrite lookup_insert_eq. split; [done|]. done. }
  split; [done|]. split; [done|]. apply next_retry_delay_after.
Qed.

(** The reads of the oven and of the dishwasher are both in flight; that of
    the oven fails, then that of the dishwasher: the dishwasher waits 10
    seconds, the oven's 5 doubled.  Had the oven's read not failed, the
    dishwasher would wait 5 seconds. *)
Lemma instances_share_only_the_retry_delay_witness :
  let w := (world_run two_reads_in_flight kitchen).1 in
  let fail := RFail (ErrOther "timeout") in
  let dB := default oven (devices w !! "dishwasher") in
  "oven" ≠ "dishwasher" ∧ devices w !! "dishwasher" = Some dB
  ∧ find_call 3 dB = Some (KReadAll 1 GetAppliance) ∧ is_connected dB = true
  ∧ (world_step "oven" (InResponse 3 fail) w).2
    = [EvLog (LogOpError GetAppliance (ErrOther "timeout"));
       EvLog (LogReadAllRetry (ErrOther "timeout") 5)]
  ∧ (world_step "dishwasher" (InResponse 3 fail)
       (world_step "oven" (InResponse 3 fail) w).1).2
    = [EvLog (LogOpError GetAppliance (ErrOther "timeout"));
       EvLog (LogReadAllRetry (ErrOther "timeout") 10)]
  ∧ (world_step "dishwasher" (InResponse 3 fail) w).2
    = [EvLog (LogOpError GetAppliance (ErrOther "timeout"));
       EvLog (LogReadAllRetry (ErrOther "timeout") 5)].
Proof.
  intros w fail dB.
  assert (Hne : "oven" ≠ "dishwasher") by discriminate.
  assert (HB : devices w !! "dishwasher" = Some dB) by (vm_compute; reflexivity).
  assert (Hcall : find_call 3 dB = Some (KReadAll 1 GetAppliance)) by (vm_compute; reflexivity).
  assert (Hc : is_connected dB = true) by (vm_compute; reflexivity).
  destruct (instances_share_only_the_retry_delay w "oven" "dishwasher"
              (InResponse 3 fail) dB 3 1 GetAppliance fail (ErrOther "timeout")
              Hne HB Hcall eq_refl eq_refl Hc) as (_ & _ & _ & H4 & _).
  split; [exact Hne|]. split; [exact HB|]. split; [exact Hcall|]. split; [exact Hc|].
  split; [vm_compute; reflexivity|].
  split; [rewrite H4; vm_compute; reflexivity|].
  vm_compute. reflexivity.
Defined.

(** ** A relation that every effect of [update] keeps *)

Section UpdateRel.
Variable R : Device → Device → Prop.
Hypothesis R_refl : ∀ d, R d d.
Hypothesis R_trans : ∀ d1 d2 d3, R d1 d2 → R d2 d3 → R d1 d3.
Hypothesis R_items : ∀ m d, R d (set_items m d).
Hypothesis R_arm : ∀ d, R d (arm_blackout d).

Lemma call_listeners_rel hook k v ls d :
  (∀ v d, R d (hook v d).1) → R d (call_listeners hook k v ls d).1.1.
Proof.
  intros Hh. revert d. induction ls as [|l ls IH]; intros d; simpl; [done|].
  destruct (decide (listener_key l = k)); [|apply IH].
  destruct l.
  - eapply R_trans; [apply R_arm | apply IH].
  - pose proof (Hh v d) as H1.
    destruct (hook v d) as [d1 evs1].
    pose proof (IH d1) as H.
    destruct (call_listeners hook k v ls d1) as [[d2 evs2] threw].
    simpl in *. eauto.
  - destruct (throws (items d) v); [apply R_refl|].
    pose proof (IH d) as H.
    destruct (call_listeners hook k v ls d) as [[d1 evs] threw]. done.
Qed.

Lemma update_with_rel hook its d :
  (∀ v d, R d (hook v d).1) → R d (update_with hook its d).1.
Proof.
  intros Hh. unfold update_with.
  eapply R_trans; [apply (R_items (store_all its (items d)))|].
  generalize (set_items (store_all its (items d)) d). clear d.
  induction its as [|it its IH]; intros d; simpl; [done|].
  unfold notify_item.
  pose proof (call_listeners_rel hook (key it) (value it) (listeners d) d Hh) as H1.
  destruct (call_listeners _ _ _ _ _) as [[d1 evs] threw].
  pose proof (IH d1) as H2.
  destruct (notify_all hook its d1) as [d2 evs2]. simpl in *. eauto.
Qed.

Lemma infer_power_rel upd v d :
  (∀ its d, R d (upd its d).1) → R d (infer_power upd v d).1.
Proof.
  intros Hu. unfold infer_power.
  destruct (operationImpliesOn v) as [b|]; [|done].
  destruct (b && _).
  - destruct (blackoutScheduled d); [done|].
    pose proof (Hu [power_item PowerState_On] d) as H.
    destruct (upd _ d). done.
  - destruct (negb b && _); [|done].
    pose proof (Hu [power_item PowerState_Standby] d) as H.
    destruct (upd _ d). done.
Qed.

Lemma update_rel its d : R d (update its d).1.
Proof.
  apply update_with_rel. intros v d'. apply infer_power_rel.
  intros its' d''. by apply update_with_rel.
Qed.
End UpdateRel.


Lemma no_new_retry_trans d1 d2 d3 :
  no_new_retry d1 d2 → no_new_retry d2 d3 → no_new_retry d1 d3.
Proof. intros H1 H2 t Ht Hc. apply H1; [by apply H2 | done]. Qed.

Lemma no_new_retry_clear h d : no_new_retry d (clearTimeout h d).
Proof.
  intros t Ht _. destruct h as [x|]; [|done]. simpl in Ht.
  by apply list_elem_of_filter in Ht as [_ Ht].
Qed.



Lemma setConnectedState_fields c d :
  let d' := (setConnectedState c d).1 in
  connected d' = match c with Some b => Some b | None => connected d end
  ∧ readAllActions d' = match c with Some false => None | _ => readAllActions d end
  ∧ calls d' = calls d ∧ items d' = items d ∧ readAllScheduled d' = readAllScheduled d
  ∧ listeners d' = listeners d
  ∧ no_new_retry d d'.
Proof.
  unfold setConnectedState.
  assert (H : ∀ d0 : Device, no_new_retry d0
    (set_setConnectedScheduled (Some (nextId (clearTimeout (setConnectedScheduled d0) d0)))
       (setTimeout (CbSetConnected c) 0 (clearTimeout (setConnectedScheduled d0) d0)).2)).
  { intros d0. eapply no_new_retry_trans; [apply (no_new_retry_clear (setConnectedScheduled d0))|].
    intros t Ht Hc. simpl in Ht. apply elem_of_app in Ht as [Ht | Ht]; [done|].
    apply list_elem_of_singleton in Ht. subst t. done. }
  destruct c as [[|]|]; simpl.
  - repeat split; try by destruct (setConnectedScheduled d). apply (H (set_connected (Some true) d)).
  - repeat split; try by destruct (setConnectedScheduled d).
    apply (H (set_readAllActions None (set_connected (Some false) d))).
  - repeat split; try by destruct (setConnectedScheduled d). apply (H d).
Qed.

(** ** Publishing the connection *)
















(** ** An abandoned read of the appliance state *)

























(** ** The grace period after STOP *)

Lemma filter_tid_ne n (l : list Timer) :
  Forall (λ x, tid x < n) l → filter (λ x, tid x ≠ n) l = l.
Proof.
  induction 1 as [|x l Hx Hl IH]; [done|].
  rewrite filter_cons_True by lia. by rewrite IH.
Qed.

Lemma filter_tid_eq n (l : list Timer) :
  Forall (λ x, tid x < n) l → filter (λ x, tid x = n) l = [].
Proof.
  induction 1 as [|x l Hx Hl IH]; [done|].
  rewrite filter_cons_False by lia. done.
Qed.

Lemma filter_tid_lt n m (l : list Timer) :
  Forall (λ x, tid x < n) l → Forall (λ x, tid x < n) (filter (λ x, tid x ≠ m) l).
Proof.
  intros H. apply Forall_forall. intros x Hx.
  apply list_elem_of_filter in Hx as [_ Hx].
  by apply (proj1 (Forall_forall _ _) H).
Qed.

Lemma stop_event_step a d dt b :
  streamEnded d = false → stopEvents d = false →
  step (InEvent (stop_event dt b)) (a, d)
  = (a, set_stopScheduled (Some (nextId d))
          (set_nextId (S (nextId d))
             (set_timers (timers d ++ [{| tid := nextId d;
                                          delay := if b then 0 else 3000;
                                          callback := CbStop |}]) d)),
     [EvLog (LogEvent "STOP" (item_count dt))]).
Proof.
  intros Hs Hstop. unfold step, processEvent. rewrite Hs.
  unfold eventListener, stop_event. cbn [event data err].
  destruct (decide ("STOP" = "START")) as [Heq|_]; [discriminate Heq|].
  destruct (decide ("STOP" = "STOP")) as [_|Hne]; [|done].
  cbn. rewrite Hstop. by destruct b.
Qed.

Lemma setConnectedState_stopEvents c d :
  stopEvents (setConnectedState c d).1 = stopEvents d.
Proof.
  unfold setConnectedState. destruct c as [[|]|]; simpl; by destruct (setConnectedScheduled d).
Qed.

Lemma start_event_step a d dt b :
  streamEnded d = false → stopEvents d = false →
  step (InEvent (start_event dt b)) (a, d)
  = (a, (setConnectedState None (clearTimeout (stopScheduled d) d)).1,
     [EvLog (LogEvent "START" (item_count dt))]).
Proof.
  intros Hs Hstop. unfold step, processEvent. rewrite Hs.
  unfold eventListener, start_event. cbn [event data err].
  destruct (decide ("START" = "START")) as [_|Hne]; [|done].
  pose proof (setConnectedState_stopEvents None (clearTimeout (stopScheduled d) d)) as H.
  destruct (setConnectedState None _) as [d1 evs] eqn:E. simpl in *.
  assert (Hevs : evs = []) by (unfold setConnectedState in E; by injection E as _ <-).
  subst evs. rewrite H. by destruct (stopScheduled d); simpl; rewrite Hstop.
Qed.

Lemma update_disconnections d :
  disconnections (update [item K_connected (VBool false)] d).2 = 1.
Proof.
  unfold update, update_with. simpl. unfold notify_item. simpl.
  pose proof (call_listeners_of_item (infer_power update_nested) K_connected (VBool false)
                (listeners d) (set_items (<[K_connected := VBool false]> (items d)) d)) as H1.
  destruct (call_listeners _ _ _ _ _) as [[d1 evs] threw]. simpl in *.
  unfold disconnections. rewrite filter_cons_True by done. simpl. f_equal.
  rewrite app_nil_r, filter_app, length_app.
  assert (H0 : filter (λ e, publishes_disconnected e = true) evs = []).
  { clear -H1. induction H1 as [|e l He Hl IH]; [done|].
    rewrite filter_cons_False; [done|]. by destruct e. }
  rewrite H0. by destruct (threw || _).
Qed.

Lemma update_disconnected_item d :
  getItem K_connected (update [item K_connected (VBool false)] d).1 = VBool false.
Proof.
  destruct (update_applied [item K_connected (VBool false)] d) as [[H _] _].
  unfold getItem. rewrite H by done. simpl. by rewrite lookup_insert_eq.
Qed.

(** The listeners of [inferPowerState] are not registered for other keys:
    an emit for such a key changes nothing of the device. *)
Lemma call_listeners_observers hook k v ls d :
  k ≠ K_PowerState → k ≠ K_OperationState → (call_listeners hook k v ls d).1.1 = d.
Proof.
  intros H1 H2. revert d. induction ls as [|l ls IH]; intros d; simpl; [done|].
  destruct (decide (listener_key l = k)) as [He|]; [|apply IH].
  destruct l; simpl in He; try congruence.
  destruct (throws (items d) v); [done|].
  pose proof (IH d) as H. destruct (call_listeners hook k v ls d) as [[d1 evs] threw]. done.
Qed.

Lemma update_connected_device v d :
  (update [item K_connected v] d).1
  = set_items (<[K_connected := v]> (items d)) d.
Proof.
  unfold update, update_with. simpl. unfold notify_item. simpl.
  pose proof (call_listeners_observers (infer_power update_nested) K_connected v
                (listeners d) (set_items (<[K_connected := v]> (items d)) d)) as H.
  destruct (call_listeners _ _ _ _ _) as [[d1 evs] threw]. simpl in *.
  apply H; discriminate.
Qed.

Lemma find_timer_new (l : list Timer) n ms cb d :
  timers d = l ++ [{| tid := n; delay := ms; callback := cb |}] →
  Forall (λ x, tid x < n) l →
  find_timer n d = Some {| tid := n; delay := ms; callback := cb |}.
Proof.
  intros Ht Hl. unfold find_timer. rewrite Ht, filter_app, filter_tid_eq by done.
  simpl. by rewrite filter_cons_True.
Qed.

Lemma clear_new_timer (l : list Timer) n ms cb :
  Forall (λ x, tid x < n) l →
  filter (λ x, tid x ≠ n) (l ++ [{| tid := n; delay := ms; callback := cb |}]) = l.
Proof.
  intros Hl. rewrite filter_app, filter_tid_ne by done.
  rewrite filter_cons_False by (simpl; lia). by rewrite app_nil_r.
Qed.

Lemma not_pending_fresh n (l : list Timer) :
  Forall (λ x, tid x < n) l → n ∉ map tid l.
Proof.
  intros H Hin. apply list_elem_of_fmap in Hin as (x & -> & Hx).
  apply (proj1 (Forall_forall _ _) H) in Hx. lia.
Qed.

Lemma step_timer_not_pending t a d :
  pending t d = false → step (InTimer t) (a, d) = (a, d, []).
Proof.
  intros H. unfold step, find_timer.
  assert (Hf : filter (λ x, tid x = t) (timers d) = []).
  { apply bool_decide_eq_false in H.
    destruct (filter _ _) as [|x l] eqn:E; [done|]. exfalso. apply H.
    assert (Hx : x ∈ filter (λ x, tid x = t) (timers d)) by (rewrite E; apply elem_of_cons; by left).
    apply list_elem_of_filter in Hx as [<- Hx]. apply list_elem_of_fmap. by exists x. }
  by rewrite Hf.
Qed.

Lemma setConnectedState_timers c d :
  timers (setConnectedState c d).1
  = timers (clearTimeout (setConnectedScheduled d) d) ++ [evaluation_timer (nextId d) c]
  ∧ nextId (setConnectedState c d).1 = S (nextId d)
  ∧ setConnectedScheduled (setConnectedState c d).1 = Some (nextId d).
Proof.
  unfold setConnectedState.
  destruct c as [[|]|]; simpl; by destruct (setConnectedScheduled d).
Qed.

Lemma clearTimeout_bounded n h d :
  Forall (λ x, tid x < n) (timers d) → Forall (λ x, tid x < n) (timers (clearTimeout h d)).
Proof.
  intros Hl. destruct h as [m|]; [|done]. simpl. by apply filter_tid_lt.
Qed.

Lemma bounded_weaken n m (l : list Timer) :
  n ≤ m → Forall (λ x, tid x < n) l → Forall (λ x, tid x < m) l.
Proof. intros Hle Hl. eapply Forall_impl; [exact Hl|]. intros x Hx. simpl in Hx. lia. Qed.

Lemma pending_false t d : t ∉ map tid (timers d) → pending t d = false.
Proof. intros H. unfold pending. by apply bool_decide_eq_false_2. Qed.

Lemma step_timer_fires t x a d :
  find_timer t d = Some x →
  step (InTimer t) (a, d) = fire (callback x) a (clearTimeout (Some t) d).
Proof. intros H. unfold step. by rewrite H. Qed.

Lemma disconnections_app evs1 evs2 :
  disconnections (evs1 ++ evs2) = disconnections evs1 + disconnections evs2.
Proof. unfold disconnections. by rewrite filter_app, length_app. Qed.

Lemma setConnectedState_disconnections c d :
  disconnections (setConnectedState c d).2 = 0.
Proof.
  unfold setConnectedState. destruct c as [[|]|]; simpl; try done.
  by destruct (readAllActions d) as [[arr [|o q]]|].
Qed.

(** One STOP event.  It only starts the grace timer: 3 seconds, none when
    the stream ended with an error; nothing is published and the connection
    state is not touched.  A START event that follows it before the timer has
    fired clears the timer: it is no longer pending, its expiry never happens
    and nothing is published.  Without a START the timer fires once: the appliance is marked
    disconnected, the queue of [readAll] is deleted, and the evaluation this
    schedules publishes [connected = false] exactly once (not at all when the
    store says so already); both timers are then spent. *)
Theorem stop_grace_period (a : Api) (d : Device) (dt : option (list Item)) (b : bool) :
  timers_fresh d → streamEnded d = false → stopEvents d = false →
  let t := nextId d in
  let stopped := (step (InEvent (stop_event dt b)) (a, d)).1 in
  (timers stopped.2 = timers d ++ [stop_timer t b]
   ∧ stopScheduled stopped.2 = Some t
   ∧ connected stopped.2 = connected d ∧ items stopped.2 = items d
   ∧ (step (InEvent (stop_event dt b)) (a, d)).2 = [EvLog (LogEvent "STOP" (item_count dt))])
  ∧ (∀ dt' b',
       let started := step (InEvent (start_event dt' b')) stopped in
       pending t started.1.2 = false
       ∧ step (InTimer t) started.1 = (started.1, [])
       ∧ connected started.1.2 = connected d ∧ items started.1.2 = items d
       ∧ started.2 = [EvLog (LogEvent "START" (item_count dt'))])
  ∧ (let elapsed := run [InTimer t; InTimer (S t)] stopped in
     connected elapsed.1.2 = Some false
     ∧ readAllActions elapsed.1.2 = None
     ∧ getItem K_connected elapsed.1.2 = VBool false
     ∧ disconnections elapsed.2
       = (if bool_decide (getItem K_connected d = VBool false) then 0 else 1)
     ∧ pending t elapsed.1.2 = false ∧ pending (S t) elapsed.1.2 = false
     ∧ step (InTimer t) elapsed.1 = (elapsed.1, [])).
Proof.
  intros Hfresh Hs Hstop. cbv zeta.
  rewrite stop_event_step by done. cbn [fst snd].
  set (t := nextId d).
  set (d1 := set_stopScheduled (Some t) _).
  assert (Ht1 : timers d1 = timers d ++ [stop_timer t b]) by (by destruct b).
  assert (Hfind : find_timer t d1 = Some (stop_timer t b)).
  { by apply (find_timer_new (timers d)). }
  assert (Hclear : timers (clearTimeout (Some t) d1) = timers d).
  { simpl. fold t. change (timers d ++ _) with (timers d1). rewrite Ht1.
    by apply clear_new_timer. }
  split; [|split].
  - repeat split; done.
  - intros dt' b'. rewrite start_event_step by done. cbn [fst snd].
    set (d1c := clearTimeout (stopScheduled d1) d1).
    assert (Hc : timers d1c = timers d) by apply Hclear.
    destruct (setConnectedState_timers None d1c) as (Ht2 & Hn2 & _).
    destruct (setConnectedState_fields None d1c) as (Hcon & _ & _ & Hit & _).
    cbv zeta in Hcon, Hit.
    set (d2 := (setConnectedState None d1c).1) in *.
    assert (Hp : pending t d2 = false).
    { apply pending_false. rewrite Ht2, map_app. intros Hin.
      apply elem_of_app in Hin as [Hin | Hin].
      - revert Hin. apply not_pending_fresh. apply clearTimeout_bounded. by rewrite Hc.
      - apply list_elem_of_singleton in Hin. simpl in Hin. unfold t in Hin. lia. }
    split; [done|]. split; [by apply step_timer_not_pending|].
    split; [by rewrite Hcon|]. split; [by rewrite Hit | done].
  - rewrite run_cons, (step_timer_fires t _ a d1 Hfind).
    change (callback (stop_timer t b)) with CbStop. unfold fire.
    set (d1c := clearTimeout (Some t) d1) in *.
    destruct (setConnectedState_timers (Some false) d1c) as (Ht2 & Hn2 & _).
    destruct (setConnectedState_fields (Some false) d1c) as (Hcon & Hq & _ & Hit & _).
    pose proof (setConnectedState_disconnections (Some false) d1c) as Hdis.
    cbv zeta in Hcon, Hq, Hit.
    destruct (setConnectedState (Some false) d1c) as [d2 evs2]. cbn [fst snd] in *.
    set (l := timers (clearTimeout (setConnectedScheduled d1c) d1c)) in *.
    change (nextId d1c) with (S t) in Ht2, Hn2.
    assert (Hl : Forall (λ x, tid x < t) l).
    { apply clearTimeout_bounded. by rewrite Hclear. }
    assert (Hfind2 : find_timer (S t) d2 = Some (evaluation_timer (S t) (Some false))).
    { apply (find_timer_new l); [exact Ht2|]. apply (bounded_weaken t); [lia | done]. }
    rewrite run_cons, (step_timer_fires (S t) _ a d2 Hfind2).
    change (callback (evaluation_timer (S t) (Some false))) with (CbSetConnected (Some false)).
    unfold fire, setConnected_elapsed.
    set (d2c := clearTimeout (Some (S t)) d2).
    assert (Hc2 : timers d2c = l).
    { simpl. rewrite Ht2. apply clear_new_timer. apply (bounded_weaken t); [lia | done]. }
    assert (Hcon2 : connected d2c = Some false) by done.
    assert (Hit2 : getItem K_connected d2c = getItem K_connected d).
    { unfold getItem. simpl. by rewrite Hit. }
    assert (Hpt : ∀ d', timers d' = l → pending t d' = false ∧ pending (S t) d' = false).
    { intros d' Hd'. split; apply pending_false; rewrite Hd'; apply not_pending_fresh;
        [done | apply (bounded_weaken t); [lia | done]]. }
    unfold is_connected. rewrite Hcon2, Hit2. cbn [negb andb].
    destruct (bool_decide (getItem K_connected d = VBool false)) eqn:Eb; cbn [negb].
    + cbn [fst snd run]. rewrite !app_nil_r.
      destruct (Hpt d2c Hc2) as [Hp1 Hp2].
      split; [done|]. split; [done|].
      split; [rewrite Hit2; by apply bool_decide_eq_true in Eb|].
      split; [exact Hdis|].
      split; [done|]. split; [done|]. by apply step_timer_not_pending.
    + pose proof (update_connected_device (VBool false) d2c) as Hu.
      pose proof (update_disconnections d2c) as Hd1.
      pose proof (update_disconnected_item d2c) as Hd2.
      destruct (update [item K_connected (VBool false)] d2c) as [d3 evs3].
      cbn [fst snd run] in *. rewrite !app_nil_r.
      assert (Ht3 : timers d3 = l) by (by rewrite Hu).
      destruct (Hpt d3 Ht3) as [Hp1 Hp2].
      split; [by rewrite Hu|]. split; [by rewrite Hu|].
      split; [done|].
      split; [change (disconnections (evs2 ++ evs3) = 1);
              by rewrite disconnections_app, Hdis, Hd1|].
      split; [done|]. split; [done|]. by apply step_timer_not_pending.
Qed.

Lemma stop_grace_period_witness :
  let a := all_scopes in let d := oven in
  let t := nextId d in
  let stopped := (step (InEvent (stop_event None false)) (a, d)).1 in
  (timers stopped.2 = timers d ++ [stop_timer t false]
   ∧ stopScheduled stopped.2 = Some t
   ∧ connected stopped.2 = connected d ∧ items stopped.2 = items d
   ∧ (step (InEvent (stop_event None false)) (a, d)).2 = [EvLog (LogEvent "STOP" 0)])
  ∧ (∀ dt' b',
       let started := step (InEvent (start_event dt' b')) stopped in
       pending t started.1.2 = false
       ∧ step (InTimer t) started.1 = (started.1, [])
       ∧ connected started.1.2 = connected d ∧ items started.1.2 = items d
       ∧ started.2 = [EvLog (LogEvent "START" (item_count dt'))])
  ∧ (let elapsed := run [InTimer t; InTimer (S t)] stopped in
     connected elapsed.1.2 = Some false
     ∧ readAllActions elapsed.1.2 = None
     ∧ getItem K_connected elapsed.1.2 = VBool false
     ∧ disconnections elapsed.2
       = (if bool_decide (getItem K_connected d = VBool false) then 0 else 1)
     ∧ pending t elapsed.1.2 = false ∧ pending (S t) elapsed.1.2 = false
     ∧ step (InTimer t) elapsed.1 = (elapsed.1, [])).
Proof.
  apply (stop_grace_period all_scopes oven None false).
  - vm_compute. repeat constructor.
  - reflexivity.
  - reflexivity.
Defined.

(** C4, on the code.  The STOP branch of [eventListener] overwrites
    [stopScheduled] without clearing the timer it held, unlike
    [setConnectedState] and the blackout of [inferPowerState], which call
    [clearTimeout] before they schedule anew.  After two STOP events START can
    only clear the second grace timer.  For an oven that is connected and
    whose state has been read: after STOP and START no grace timer is left;
    after STOP, STOP and START the grace timer of the first STOP is still
    pending, and when it fires the appliance is marked disconnected and
    [connected = false] is published, although the START came before the
    grace period of either STOP had elapsed. *)
Theorem second_stop_leaks_the_grace_timer :
  let stopped_once := run [plain_event "STOP"; plain_event "START"] connected_oven in
  let stopped_twice :=
    run [plain_event "STOP"; plain_event "STOP"; plain_event "START"] connected_oven in
  let elapsed := run [InTimer 7; InTimer 10] stopped_twice.1 in
  getItem K_connected connected_oven.2 = VBool true
  ∧ timers connected_oven.2 = []
  ∧ timers stopped_once.1.2 = [evaluation_timer 8 None]
  ∧ timers stopped_twice.1.2 = [stop_timer 7 false; evaluation_timer 9 None]
  ∧ stopScheduled stopped_twice.1.2 = Some 8
  ∧ elapsed.2 = [EvLog LogStopElapsed; EvEmit K_connected (VBool false) 0]
  ∧ connected elapsed.1.2 = Some false
  ∧ getItem K_connected elapsed.1.2 = VBool false
  ∧ disconnections elapsed.2 = 1.
Proof. vm_compute. done. Qed.

(** * Facts about [serialise] *)

Module SerialiseFacts.
Import Serialise.

Lemma ids_ok_weaken l n m : n ≤ m → ids_ok l n → ids_ok l m.
Proof.
  intros Hle [H1 H2]. split; [done|].
  eapply Forall_impl; [exact H2|]. intros x Hx. simpl in Hx. lia.
Qed.

Lemma ids_ok_add l n op : ids_ok l n → ids_ok (l ++ [(n, op)]) (S n).
Proof.
  intros [H1 H2]. split.
  - rewrite map_app. simpl. apply NoDup_app. split; [done|]. split.
    + intros x Hx Hn. apply list_elem_of_singleton in Hn. subst x.
      apply list_elem_of_fmap in Hx as ([i o] & Hi & Hx). simpl in Hi. subst i.
      apply (proj1 (Forall_forall _ _) H2) in Hx. simpl in Hx. lia.
    + apply NoDup_singleton.
  - apply Forall_app. split.
    + eapply Forall_impl; [exact H2|]. intros x Hx. simpl in Hx. lia.
    + constructor; [simpl; lia | constructor].
Qed.

Lemma ids_ok_remove l n i : ids_ok l n → ids_ok (remove_id i l) n.
Proof.
  intros [H1 H2]. split.
  - unfold remove_id. clear H2. induction l as [|x l IH]; [done|].
    simpl in H1. apply NoDup_cons in H1 as [Hx Hl].
    destruct (decide (x.1 ≠ i)).
    + rewrite filter_cons_True by done. simpl. apply NoDup_cons. split; [|by apply IH].
      intros Hin. apply Hx. apply list_elem_of_fmap in Hin as (y & Hy & Hin).
      apply list_elem_of_filter in Hin as [_ Hin]. apply list_elem_of_fmap. by exists y.
    + rewrite filter_cons_False by done. by apply IH.
  - apply Forall_forall. intros x Hx. apply list_elem_of_filter in Hx as [_ Hx].
    by apply (proj1 (Forall_forall _ _) H2).
Qed.

Lemma for_op_add_eq l n op : length (for_op op (l ++ [(n, op)])) = S (length (for_op op l)).
Proof.
  unfold for_op. rewrite filter_app, length_app, filter_cons_True by done. simpl. lia.
Qed.

Lemma for_op_add_ne l n op op' : op' ≠ op → for_op op' (l ++ [(n, op)]) = for_op op' l.
Proof.
  intros Hne. unfold for_op. rewrite filter_app, filter_cons_False by (simpl; congruence).
  simpl. by rewrite app_nil_r.
Qed.

(** Removing the handle of an operation removes exactly one of its
    entries, and none of another operation. *)
Lemma for_op_remove l n i op :
  ids_ok l n → lookup_id i l = Some op →
  S (length (for_op op (remove_id i l))) = length (for_op op l)
  ∧ ∀ op', op' ≠ op → for_op op' (remove_id i l) = for_op op' l.
Proof.
  intros [H1 _]. unfold lookup_id, remove_id, for_op.
  induction l as [|x l IH]; intros Hl; [done|].
  simpl in H1. apply NoDup_cons in H1 as [Hx Hnd].
  destruct (decide (x.1 = i)) as [Hi | Hi].
  - rewrite filter_cons_True in Hl by done. simpl in Hl. injection Hl as Hop.
    rewrite (filter_cons_False (λ y, y.1 ≠ i)) by (intros H; by apply H).
    assert (Hrest : filter (λ y, y.1 ≠ i) l = l).
    { clear -Hx Hi. induction l as [|y l IH]; [done|].
      rewrite filter_cons_True.
      - rewrite IH; [done|]. intros H. apply Hx. simpl. apply elem_of_cons. by right.
      - intros Hy. apply Hx. simpl. apply elem_of_cons. left. congruence. }
    rewrite Hrest. split.
    + by rewrite (filter_cons_True (λ y, y.2 = op)).
    + intros op' Hne. rewrite (filter_cons_False (λ y, y.2 = op')); [done|]. congruence.
  - rewrite filter_cons_False in Hl by done.
    destruct (IH Hnd Hl) as [IH1 IH2].
    rewrite (filter_cons_True (λ y, y.1 ≠ i)) by done. split.
    + destruct (decide (x.2 = op)).
      * rewrite !(filter_cons_True (λ y, y.2 = op)) by done. simpl. by rewrite IH1.
      * rewrite !(filter_cons_False (λ y, y.2 = op)) by done. done.
    + intros op' Hne. destruct (decide (x.2 = op')).
      * rewrite !(filter_cons_True (λ y, y.2 = op')) by done. by rewrite IH2.
      * rewrite !(filter_cons_False (λ y, y.2 = op')) by done. by apply IH2.
Qed.

(** ** Finding and assigning entries *)

Lemma find_in_operation op l e : find_in op l = Some e → operation e = op.
Proof.
  unfold find_in. intros H.
  assert (Hin : e ∈ filter (λ e, operation e = op) l).
  { destruct (filter _ l) as [|x l']; [done|]. injection H as ->. apply elem_of_cons. by left. }
  by apply list_elem_of_filter in Hin as [Hin _].
Qed.

Lemma find_in_set_eq e l :
  find_in (operation e) l ≠ None →
  find_in (operation e)
    (map (λ x, if decide (operation x = operation e) then e else x) l) = Some e.
Proof.
  unfold find_in. induction l as [|x l IH]; [done|]. intros H. simpl.
  destruct (decide (operation x = operation e)) as [He | He].
  - by rewrite filter_cons_True.
  - rewrite filter_cons_False in H by done. rewrite filter_cons_False by done. by apply IH.
Qed.

Lemma find_in_set_ne e op l :
  op ≠ operation e →
  find_in op (map (λ x, if decide (operation x = operation e) then e else x) l)
  = find_in op l.
Proof.
  intros Hne. unfold find_in. induction l as [|x l IH]; [done|]. simpl.
  destruct (decide (operation x = operation e)) as [He | He].
  - rewrite !filter_cons_False by congruence. apply IH.
  - destruct (decide (operation x = op)).
    + by rewrite !filter_cons_True.
    + rewrite !filter_cons_False by done. apply IH.
Qed.

Lemma find_in_app op l e :
  find_in op (l ++ [e])
  = match find_in op l with
    | Some x => Some x
    | None => if decide (operation e = op) then Some e else None
    end.
Proof.
  unfold find_in. rewrite filter_app.
  destruct (filter _ l) as [|x l']; simpl; [|done].
  destruct (decide (operation e = op)).
  - by rewrite filter_cons_True.
  - by rewrite filter_cons_False.
Qed.
Lemma entry_of_operation op s : operation (entry_of op s) = op.
Proof.
  unfold entry_of. destruct (find op s) as [e|] eqn:E; [|done].
  by apply (find_in_operation op (serialiseOps s)).
Qed.

Lemma entry_of_set_eq e s :
  find (operation e) s ≠ None → entry_of (operation e) (set_entry e s) = e.
Proof.
  intros H. pose proof (find_in_set_eq e (serialiseOps s) H) as H'.
  unfold entry_of, find, set_entry, find_in in *. simpl. by rewrite H'.
Qed.

Lemma entry_of_set_ne e op s :
  op ≠ operation e → entry_of op (set_entry e s) = entry_of op s.
Proof.
  intros H. pose proof (find_in_set_ne e op (serialiseOps s) H) as H'.
  unfold entry_of, find, set_entry, find_in in *. simpl. by rewrite H'.
Qed.

Lemma ensure_entry_spec op s :
  let '(e, s1) := ensure_entry op s in
  e = entry_of op s ∧ find op s1 = Some e
  ∧ timers s1 = timers s ∧ running s1 = running s ∧ nextId s1 = nextId s
  ∧ ∀ op', entry_of op' s1 = entry_of op' s.
Proof.
  unfold ensure_entry, entry_of. destruct (find op s) as [e|] eqn:E; [done|].
  assert (Hf : ∀ op', find op' {| serialiseOps := serialiseOps s ++ [empty_entry op];
                      timers := timers s; running := running s; nextId := nextId s |}
                = match find op' s with
                  | Some x => Some x
                  | None => if decide (op = op') then Some (empty_entry op) else None
                  end).
  { intros op'. exact (find_in_app op' (serialiseOps s) (empty_entry op)). }
  repeat split; auto.
  - rewrite Hf, E. by destruct (decide (op = op)).
  - intros op'. rewrite Hf. destruct (find op' s); [done|].
    by destruct (decide (op = op')) as [<-|].
Qed.

Lemma invariant_ensure op s : invariant s → invariant (ensure_entry op s).2.
Proof.
  intros (H1 & H2 & H3).
  pose proof (ensure_entry_spec op s) as H. destruct (ensure_entry op s) as [e s1].
  destruct H as (_ & _ & Ht & Hr & Hn & He). simpl.
  unfold invariant. rewrite Ht, Hr, Hn. split; [done|]. split; [done|].
  intros op'. rewrite He. apply H3.
Qed.
Lemma entry_of_found op s e : find op s = Some e → entry_of op s = e.
Proof. intros H. unfold entry_of. by rewrite H. Qed.

(** How the invariant is re-established after the entry of one operation
    and the lists of timers and executions have changed. *)
Lemma invariant_update (s s' : State) (e' : Entry) :
  invariant s →
  ids_ok (timers s') (nextId s') → ids_ok (running s') (nextId s') →
  entry_of (operation e') s' = e' →
  (∀ op, op ≠ operation e' → entry_of op s' = entry_of op s) →
  (∀ op, op ≠ operation e' → for_op op (timers s') = for_op op (timers s)) →
  (∀ op, op ≠ operation e' → for_op op (running s') = for_op op (running s)) →
  entry_ok e' (length (for_op (operation e') (timers s')))
              (length (for_op (operation e') (running s'))) →
  invariant s'.
Proof.
  intros (H1 & H2 & H3) Ht Hr He Hne Hnt Hnr Hok.
  split; [done|]. split; [done|]. intros op.
  destruct (decide (op = operation e')) as [-> | Hop].
  - by rewrite He.
  - rewrite Hne, Hnt, Hnr by done. apply H3.
Qed.

Lemma request_invariant e opts s1 :
  invariant s1 → find (operation e) s1 = Some e →
  invariant (request e opts s1).1.1.
Proof.
  intros Hinv Hf.
  pose proof Hinv as (Ht & Hr & Hall).
  pose proof (Hall (operation e)) as Hok.
  rewrite (entry_of_found _ _ _ Hf) in Hok.
  destruct e as [op pend act]. simpl in *.
  destruct Hok as (Hnr & Hnt & Hcond).
  assert (Hfound : ∀ s3, serialiseOps s3 = serialiseOps s1 → find op s3 ≠ None).
  { intros s3 H3. unfold find. rewrite H3. unfold find in Hf. by rewrite Hf. }
  assert (Hother : ∀ s3 e', serialiseOps s3 = serialiseOps s1 → operation e' = op →
            ∀ op', op' ≠ operation e' → entry_of op' (set_entry e' s3) = entry_of op' s1).
  { intros s3 e' H3 He' op' Hne. rewrite entry_of_set_ne by done.
    unfold entry_of, find. by rewrite H3. }
  unfold request. simpl.
  destruct pend as [[o rs rj [t|]]|]; simpl in *.
  - (* a scheduled request is pending *)
    eapply (invariant_update s1); [done
      | simpl; apply (ids_ok_weaken _ (nextId s1)); [lia | done]
      | simpl; apply (ids_ok_weaken _ (nextId s1)); [lia | done]
      | by apply entry_of_set_eq, Hfound | by apply Hother | done | done |].
    simpl. by subst act.
  - (* an unscheduled request is pending: a request is active *)
    destruct act as [q|]; [|done]. simpl.
    eapply (invariant_update s1); [done
      | simpl; apply (ids_ok_weaken _ (nextId s1)); [lia | done]
      | simpl; apply (ids_ok_weaken _ (nextId s1)); [lia | done]
      | by apply entry_of_set_eq, Hfound | by apply Hother | done | done |].
    simpl. done.
  - destruct act as [q|]; simpl.
    + (* nothing pending, a request is active *)
      eapply (invariant_update s1); [done
        | simpl; apply (ids_ok_weaken _ (nextId s1)); [lia | done]
        | simpl; apply (ids_ok_weaken _ (nextId s1)); [lia | done]
        | by apply entry_of_set_eq, Hfound | by apply Hother | done | done |].
      simpl. done.
    + (* idle: the new request is scheduled *)
      eapply (invariant_update s1); [done | | | by apply entry_of_set_eq, Hfound
        | by apply Hother | | done |]; simpl.
      * apply (ids_ok_weaken _ (S (nextId s1))); [lia|]. by apply ids_ok_add.
      * apply (ids_ok_weaken _ (nextId s1)); [lia | done].
      * intros op' Hne. by apply for_op_add_ne.
      * rewrite for_op_add_eq, Hnt, Hnr. done.
Qed.

Lemma serialise_invariant op opts s :
  invariant s → invariant (serialise op opts s).1.1.
Proof.
  intros Hinv. unfold serialise.
  pose proof (invariant_ensure op s Hinv) as H1.
  pose proof (ensure_entry_spec op s) as H2.
  destruct (ensure_entry op s) as [e s1]. destruct H2 as (He & Hf & _). simpl in H1.
  apply request_invariant; [done|].
  by rewrite He, entry_of_operation, <- He.
Qed.
(** The entry of an operation that has a timer or an execution. *)
Lemma entry_found op s :
  invariant s →
  0 < length (for_op op (timers s)) + length (for_op op (running s)) →
  find op s = Some (entry_of op s).
Proof.
  intros (_ & _ & Hall) Hpos. destruct (Hall op) as (Hnr & Hnt & _).
  unfold entry_of in *. destruct (find op s) as [e|]; [done|].
  simpl in *. lia.
Qed.

(** The timer of an operation fires: the pending request becomes the
    active one and the operation is performed, once, with its options. *)
Lemma timer_step t op s :
  invariant s → lookup_id t (timers s) = Some op →
  ∃ p, pending (entry_of op s) = Some p ∧ active (entry_of op s) = None
       ∧ step (InTimer t) s
         = ({| serialiseOps :=
                 serialiseOps (set_entry {| operation := op; pending := None;
                                            active := Some p |} s);
               timers := remove_id t (timers s);
               running := running s ++ [(nextId s, op)];
               nextId := S (nextId s) |},
            [EvPerforming (nextId s) op (options p)]).
Proof.
  intros Hinv Hl. pose proof Hinv as ([Hnd Hlt] & _ & Hall).
  destruct (for_op_remove _ _ _ _ (conj Hnd Hlt) Hl) as [Hlen _].
  assert (Hf : find op s = Some (entry_of op s)) by (apply entry_found; [done | lia]).
  destruct (Hall op) as (Hnr & Hnt & Hcond).
  destruct (pending (entry_of op s)) as [p|] eqn:Ep; [|lia].
  destruct (scheduled p) eqn:Es; [|lia].
  exists p. split; [done|]. split; [done|].
  unfold step. rewrite Hl. unfold doOperation, find in *. simpl. rewrite Hf, Ep. done.
Qed.

(** The operation of an execution settles: the promises queued on the
    active request are all resolved with the result, or all rejected with
    the error; then a pending request, if any, is scheduled. *)
Lemma settled_step exec op result s :
  invariant s → lookup_id exec (running s) = Some op →
  ∃ q, active (entry_of op s) = Some q
       ∧ (step (InSettled exec result) s).2
         = match result with
           | inl v => map (λ promise, EvResolve promise v) (resolve q)
           | inr e => map (λ promise, EvReject promise e) (reject q)
           end
       ∧ active (entry_of op (step (InSettled exec result) s).1) = None
       ∧ running (step (InSettled exec result) s).1 = remove_id exec (running s)
       ∧ invariant (step (InSettled exec result) s).1.
Proof.
  intros Hinv Hl. pose proof Hinv as (Ht & [Hnd Hlt] & Hall).
  destruct (for_op_remove _ _ _ _ (conj Hnd Hlt) Hl) as [Hlen Hoth].
  assert (Hf : find op s = Some (entry_of op s)) by (apply entry_found; [done | lia]).
  destruct (Hall op) as (Hnr & Hnt & Hcond).
  pose proof (entry_of_operation op s) as Hop.
  destruct (entry_of op s) as [op0 pend act] eqn:Ee. simpl in *. subst op0.
  destruct act as [q|]; [|lia].
  exists q. split; [done|].
  unfold step. rewrite Hl. unfold settle, finish, find in *. simpl. rewrite Hf. simpl.
  assert (Hfound : ∀ s3, serialiseOps s3 = serialiseOps s → find op s3 ≠ None).
  { intros s3 H3. unfold find. by rewrite H3, Hf. }
  assert (Hother : ∀ s3 e', serialiseOps s3 = serialiseOps s → operation e' = op →
            ∀ op', op' ≠ operation e' → entry_of op' (set_entry e' s3) = entry_of op' s).
  { intros s3 e' H3 He' op' Hne. rewrite entry_of_set_ne by done.
    unfold entry_of, find. by rewrite H3. }
  split; [done|].
  destruct pend as [p|]; simpl.
  - destruct (scheduled p) eqn:Es; [done|].
    set (e' := {| operation := op; pending := Some (with_scheduled (Some (nextId s)) p);
                  active := None |}).
    assert (He' : entry_of op (set_entry e'
              {| serialiseOps := serialiseOps s; timers := timers s ++ [(nextId s, op)];
                 running := remove_id exec (running s); nextId := S (nextId s) |}) = e').
    { by apply (entry_of_set_eq e'), Hfound. }
    split; [by rewrite He'|]. split; [done|].
    eapply (invariant_update s _ e'); [done | | | exact He' | by apply Hother | | |]; simpl.
    + by apply ids_ok_add.
    + apply (ids_ok_weaken _ (nextId s)); [lia|]. by apply ids_ok_remove.
    + intros op' Hne. by apply for_op_add_ne.
    + intros op' Hne. by apply Hoth.
    + rewrite for_op_add_eq. unfold e', entry_ok. simpl.
      split; [lia|]. split; [lia | done].
  - set (e' := {| operation := op; pending := None; active := None |}).
    assert (He' : entry_of op (set_entry e'
              {| serialiseOps := serialiseOps s; timers := timers s;
                 running := remove_id exec (running s); nextId := nextId s |}) = e').
    { by apply (entry_of_set_eq e'), Hfound. }
    split; [by rewrite He'|]. split; [done|].
    eapply (invariant_update s _ e'); [done | | | exact He' | by apply Hother | | |]; simpl.
    + done.
    + by apply ids_ok_remove.
    + done.
    + intros op' Hne. by apply Hoth.
    + unfold e', entry_ok. simpl. split; [lia|]. split; [lia | done].
Qed.

Lemma timer_step_invariant t op s :
  invariant s → lookup_id t (timers s) = Some op → invariant (step (InTimer t) s).1.
Proof.
  intros Hinv Hl. destruct (timer_step t op s Hinv Hl) as (p & Hp & Ha & ->).
  pose proof Hinv as ([Hnd Hlt] & Hr & Hall).
  destruct (for_op_remove _ _ _ _ (conj Hnd Hlt) Hl) as [Hlen Hoth].
  assert (Hf : find op s = Some (entry_of op s)) by (apply entry_found; [done | lia]).
  destruct (Hall op) as (Hnr & Hnt & Hcond). rewrite Ha in Hnr.
  set (e' := {| operation := op; pending := None; active := Some p |}).
  eapply (invariant_update s _ e'); [done | | | | | | |]; simpl.
  - apply (ids_ok_weaken _ (nextId s)); [lia|]. by apply ids_ok_remove.
  - by apply ids_ok_add.
  - pose proof (entry_of_set_eq e' s) as H. unfold entry_of, find, set_entry in *.
    simpl in *. apply H. by rewrite Hf.
  - intros op' Hne. pose proof (entry_of_set_ne e' op' s Hne) as H.
    unfold entry_of, find, set_entry in *. simpl in *. done.
  - intros op' Hne. by apply Hoth.
  - intros op' Hne. by apply for_op_add_ne.
  - rewrite for_op_add_eq. unfold e', entry_ok. simpl.
    rewrite Hp in Hnt. split; [lia|]. split; [|done]. destruct (scheduled p); lia.
Qed.

Lemma step_invariant i s : invariant s → invariant (step i s).1.
Proof.
  intros Hinv. destruct i as [op opts | t | exec result].
  - pose proof (serialise_invariant op opts s Hinv) as H. unfold step.
    by destruct (serialise op opts s) as [[s1 promise] evs].
  - destruct (lookup_id t (timers s)) as [op|] eqn:El.
    + by apply (timer_step_invariant t op).
    + unfold step. by rewrite El.
  - destruct (lookup_id exec (running s)) as [op|] eqn:El.
    + by destruct (settled_step exec op result s Hinv El) as (q & _ & _ & _ & _ & H).
    + unfold step. by rewrite El.
Qed.

Lemma invariant_init : invariant init.
Proof.
  split; [|split].
  - split; [apply NoDup_nil_2 | constructor].
  - split; [apply NoDup_nil_2 | constructor].
  - intros op. by repeat split.
Qed.

Lemma run_invariant ins s : invariant s → invariant (run ins s).1.
Proof.
  revert s. induction ins as [|i ins IH]; intros s Hinv; [done|]. simpl.
  pose proof (step_invariant i s Hinv) as H1.
  destruct (step i s) as [s1 evs1].
  pose proof (IH s1 H1) as H2.
  by destruct (run ins s1) as [s2 evs2].
Qed.
(** The pending request a call of [serialise] leaves: the options of the
    call merged over the ones already pending, the promise of the call
    queued after the ones already queued; it is scheduled or a request is
    active.  A call that finds a request pending which is scheduled, or
    while a request is active, changes nothing else. *)
Lemma serialise_spec op opts s :
  let '(s1, promise, evs) := serialise op opts s in
  let e := entry_of op s in
  ∃ q, entry_of op s1 = {| operation := op; pending := Some q; active := active e |}
       ∧ running s1 = running s
       ∧ (scheduled q ≠ None ∨ active e ≠ None)
       ∧ match pending e with
         | Some p =>
             options q = opts ∪ options p
             ∧ resolve q = resolve p ++ [promise] ∧ reject q = reject p ++ [promise]
             ∧ evs = [EvCoalescing (length (resolve p) + 1)]
             ∧ (scheduled p ≠ None ∨ active e ≠ None →
                scheduled q = scheduled p ∧ timers s1 = timers s)
         | None =>
             options q = opts ∧ resolve q = [promise] ∧ reject q = [promise]
             ∧ evs = [EvCreating]
         end.
Proof.
  unfold serialise.
  pose proof (ensure_entry_spec op s) as H.
  destruct (ensure_entry op s) as [e s1].
  destruct H as (He & Hf & Ht & Hr & Hn & Hoth).
  pose proof (entry_of_operation op s) as Hop. rewrite <- He in *. clear He.
  destruct e as [op0 pend act]. simpl in *. subst op0.
  assert (Hfound : ∀ s3, serialiseOps s3 = serialiseOps s1 → find op s3 ≠ None).
  { intros s3 H3. unfold find. rewrite H3. unfold find in Hf. by rewrite Hf. }
  unfold request. simpl.
  destruct pend as [[o rs rj [t|]]|]; [| destruct act as [q|] | destruct act as [q|]];
    simpl;
    (eexists; split; [by apply (entry_of_set_eq (Build_Entry op _ _)), Hfound|]);
    simpl; (split; [done|]); (split; [first [by left | by right]|]);
    repeat split; try done;
    match goal with Hx : _ ∨ _ |- _ => by destruct Hx end.
Qed.

(** Two calls for one operation, the second before the operation is
    performed for the first. *)
Lemma serialise_twice op opts1 opts2 s :
  let '(s1, promise1, _) := serialise op opts1 s in
  let '(s2, promise2, evs2) := serialise op opts2 s1 in
  ∃ q1 q2,
    pending (entry_of op s1) = Some q1 ∧ pending (entry_of op s2) = Some q2
    ∧ options q2 = opts2 ∪ options q1
    ∧ promise1 ∈ resolve q1 ∧ promise1 ∈ reject q1
    ∧ resolve q2 = resolve q1 ++ [promise2] ∧ reject q2 = reject q1 ++ [promise2]
    ∧ scheduled q2 = scheduled q1
    ∧ active (entry_of op s2) = active (entry_of op s1)
    ∧ timers s2 = timers s1 ∧ running s2 = running s1
    ∧ evs2 = [EvCoalescing (length (resolve q1) + 1)].
Proof.
  pose proof (serialise_spec op opts1 s) as H1.
  destruct (serialise op opts1 s) as [[s1 promise1] evs1].
  pose proof (serialise_spec op opts2 s1) as H2.
  destruct (serialise op opts2 s1) as [[s2 promise2] evs2].
  cbv zeta in *.
  destruct H1 as (q1 & He1 & Hr1 & Hs1 & Hm1).
  destruct H2 as (q2 & He2 & Hr2 & Hs2 & Hm2).
  rewrite He1 in He2, Hs2, Hm2. simpl in *.
  destruct Hm2 as (Ho & Hres & Hrej & Hev & Hsame).
  destruct (Hsame Hs1) as [Hsch Htim].
  exists q1, q2. rewrite He1, He2. simpl.
  assert (Hin : promise1 ∈ resolve q1 ∧ promise1 ∈ reject q1).
  { destruct (pending (entry_of op s)) as [p|].
    - destruct Hm1 as (_ & -> & -> & _). split; apply elem_of_app; right;
        by apply list_elem_of_singleton.
    - destruct Hm1 as (_ & -> & -> & _). split; by apply list_elem_of_singleton. }
  destruct Hin. repeat split; auto.
Qed.

(** C9.  A second call of [serialise] for an operation, made before the
    operation has been performed for the first, adds no timer and no
    execution: its options are merged over the pending ones (the value
    given last wins) and its promise is queued behind the first one.  When
    the timer of the operation fires, the operation is performed once,
    with the options of the pending request; when it settles, every promise
    queued on that request is resolved with its result, or every one
    rejected with its error.  In every state the accessory can reach, an
    operation has at most one execution in flight. *)
Theorem serialise_coalesces :
  (∀ op opts1 opts2 s,
     let '(s1, promise1, _) := serialise op opts1 s in
     let '(s2, promise2, evs2) := serialise op opts2 s1 in
     ∃ q1 q2,
       pending (entry_of op s1) = Some q1 ∧ pending (entry_of op s2) = Some q2
       ∧ options q2 = opts2 ∪ options q1
       ∧ promise1 ∈ resolve q1 ∧ promise1 ∈ reject q1
       ∧ resolve q2 = resolve q1 ++ [promise2] ∧ reject q2 = reject q1 ++ [promise2]
       ∧ scheduled q2 = scheduled q1
       ∧ active (entry_of op s2) = active (entry_of op s1)
       ∧ timers s2 = timers s1 ∧ running s2 = running s1
       ∧ evs2 = [EvCoalescing (length (resolve q1) + 1)])
  ∧ (∀ (opts1 opts2 : gmap string Value) k v,
       opts2 !! k = Some v → (opts2 ∪ opts1) !! k = Some v)
  ∧ (∀ (opts1 opts2 : gmap string Value) k,
       opts2 !! k = None → (opts2 ∪ opts1) !! k = opts1 !! k)
  ∧ (∀ ins t op,
       let s := (run ins init).1 in
       lookup_id t (timers s) = Some op →
       ∃ p, pending (entry_of op s) = Some p
            ∧ (step (InTimer t) s).2 = [EvPerforming (nextId s) op (options p)]
            ∧ active (entry_of op (step (InTimer t) s).1) = Some p
            ∧ running (step (InTimer t) s).1 = running s ++ [(nextId s, op)])
  ∧ (∀ ins exec op result,
       let s := (run ins init).1 in
       lookup_id exec (running s) = Some op →
       ∃ q, active (entry_of op s) = Some q
            ∧ (step (InSettled exec result) s).2
              = match result with
                | inl v => map (λ promise, EvResolve promise v) (resolve q)
                | inr e => map (λ promise, EvReject promise e) (reject q)
                end)
  ∧ (∀ ins op, length (for_op op (running (run ins init).1)) ≤ 1).
Proof.
  split; [|split; [|split; [|split; [|split]]]].
  - intros op opts1 opts2 s. apply serialise_twice.
  - intros opts1 opts2 k v H. by apply lookup_union_Some_l.
  - intros opts1 opts2 k H. by apply lookup_union_r.
  - intros ins t op s Hl.
    assert (Hinv : invariant s) by apply run_invariant, invariant_init.
    destruct (timer_step t op s Hinv Hl) as (p & Hp & Ha & Hstep).
    exists p. rewrite Hstep. simpl. repeat split; auto.
    pose proof Hinv as ([Hnd Hlt] & _ & _).
    destruct (for_op_remove _ _ _ _ (conj Hnd Hlt) Hl) as [Hlen _].
    assert (Hf : find op s = Some (entry_of op s)) by (apply entry_found; [done | lia]).
    pose proof (entry_of_set_eq {| operation := op; pending := None; active := Some p |} s) as H.
    unfold entry_of, find, set_entry in *. simpl in *. rewrite H; [done|]. by rewrite Hf.
  - intros ins exec op result s Hl.
    assert (Hinv : invariant s) by apply run_invariant, invariant_init.
    destruct (settled_step exec op result s Hinv Hl) as (q & Hq & Hev & _).
    by exists q.
  - intros ins op.
    assert (Hinv : invariant (run ins init).1) by apply run_invariant, invariant_init.
    destruct Hinv as (_ & _ & Hall). destruct (Hall op) as (Hnr & _).
    rewrite Hnr. destruct (active _); lia.
Qed.

(** Two calls that set one option of a program, then the timer, then the
    result of the operation. *)
Lemma serialise_coalesces_witness :
  let duration := "BSH.Common.Option.Duration" in
  let ins := [InSerialise 7 {[duration := VNum 60]}; InSerialise 7 {[duration := VNum 90]}] in
  (let s := (run ins init).1 in
   lookup_id 0 (timers s) = Some 7
   ∧ ∃ p, pending (entry_of 7 s) = Some p
          ∧ (step (InTimer 0) s).2 = [EvPerforming (nextId s) 7 (options p)]
          ∧ active (entry_of 7 (step (InTimer 0) s).1) = Some p
          ∧ running (step (InTimer 0) s).1 = running s ++ [(nextId s, 7)])
  ∧ (run (ins ++ [InTimer 0; InSettled 3 (inl (VBool true))]) init).2
    = [EvCreating; EvCoalescing 2; EvPerforming 3 7 {[duration := VNum 90]};
       EvResolve 1 (VBool true); EvResolve 2 (VBool true)].
Proof.
  intros duration ins.
  assert (Hl : lookup_id 0 (timers (run ins init).1) = Some 7) by reflexivity.
  split.
  - split; [exact Hl|].
    exact (proj1 (proj2 (proj2 (proj2 serialise_coalesces))) ins 0 7 Hl).
  - vm_compute. reflexivity.
Defined.
End SerialiseFacts.


(** * Further properties of the engine *)

(** ** The event stream once it has ended *)

Lemma update_flags its d : stream_flags (update its d).1 = stream_flags d.
Proof. unfold stream_flags. by rewrite update_streamEnded, update_stopEvents. Qed.

Lemma onDisconnected_flags d : stream_flags (onDisconnected d).1 = stream_flags d.
Proof. done. Qed.

Lemma onConnected_flags d : stream_flags (onConnected d).1 = stream_flags d.
Proof.
  unfold onConnected. destruct (readAllActions d); [done|]. simpl.
  by destruct (readAllScheduled d).
Qed.

Lemma clearTimeout_flags h d : stream_flags (clearTimeout h d) = stream_flags d.
Proof. by destruct h. Qed.

Lemma setConnectedState_flags c d : stream_flags (setConnectedState c d).1 = stream_flags d.
Proof.
  unfold setConnectedState. destruct c as [[|]|]; simpl; by destruct (setConnectedScheduled d).
Qed.

Lemma setConnected_elapsed_flags c d :
  stream_flags (setConnected_elapsed c d).1 = stream_flags d.
Proof.
  unfold setConnected_elapsed.
  destruct (negb (is_connected d) && _).
  - pose proof (update_flags [item K_connected (VBool false)] d) as H1.
    destruct (update _ d) as [d1 evs1]. simpl in H1.
    destruct c as [[|]|]; simpl; try done.
    + pose proof (onConnected_flags d1) as H2. destruct (onConnected d1). unfold stream_flags in *; simpl in *; congruence.
    + pose proof (onConnected_flags d1) as H2. destruct (onConnected d1). unfold stream_flags in *; simpl in *; congruence.
  - destruct c as [[|]|]; simpl; try done.
    + pose proof (onConnected_flags d) as H2. by destruct (onConnected d).
    + pose proof (onConnected_flags d) as H2. by destruct (onConnected d).
Qed.

Lemma op_throw_flags o e d : stream_flags (op_throw o e d).1.1 = stream_flags d.
Proof. unfold op_throw. by destruct (suppressed o e). Qed.

Ltac flags_update H its d :=
  pose proof (update_flags its d) as H; destruct (update its d); simpl in H |- *.

Lemma op_resume_flags o r d : stream_flags (op_resume o r d).1.1 = stream_flags d.
Proof.
  unfold op_resume.
  destruct r as [|c|its|it|pk opts|active selected|commands|e]; try apply op_throw_flags;
    destruct o; try apply op_throw_flags; try done.
  all: repeat match goal with
       | |- context [reported_program ?x ?y] =>
           destruct (reported_program x y) as [[[? ?] ?]|]
       | |- context [update ?its ?d] =>
           let H := fresh "H" in flags_update H its d
       | |- context [setConnectedState ?c ?d] =>
           let H := fresh "H" in
           pose proof (setConnectedState_flags c d) as H;
           destruct (setConnectedState c d); simpl in H |- *
       | |- context [if ?b then _ else _] => destruct b
       end; simpl; congruence.
Qed.

Lemma readAll_catch_flags e a d : stream_flags (readAll_catch e a d).1.2 = stream_flags d.
Proof. unfold readAll_catch. by destruct (is_connected d). Qed.

Lemma readAll_end_flags a d : stream_flags (readAll_end a d).1.2 = stream_flags d.
Proof.
  unfold readAll_end. simpl. destruct (readAllActions d); [|done].
  destruct (is_connected _ && _); [|done].
  pose proof (update_flags [item K_connected (VBool true)] (set_readAllScheduled None d)) as H.
  by destruct (update _ _).
Qed.

Lemma readAll_loop_flags arr q a d :
  stream_flags (readAll_loop arr q a d).1.2 = stream_flags d.
Proof.
  revert a d. induction q as [|o q IH]; intros a d; simpl; [apply readAll_end_flags|].
  destruct (op_begin a d o) as [e | r w | out evs1].
  - pose proof (op_throw_flags o e d) as H1.
    destruct (op_throw o e d) as [[d1 evs1] out]. simpl in H1.
    destruct out.
    + pose proof (IH a (set_readAllActions (Some (arr, q)) d1)) as H2.
      destruct (readAll_loop _ _ _ _) as [[a2 d2] evs2]. unfold stream_flags in *; simpl in *; congruence.
    + pose proof (IH a (set_readAllActions (Some (arr, q)) d1)) as H2.
      destruct (readAll_loop _ _ _ _) as [[a2 d2] evs2]. unfold stream_flags in *; simpl in *; congruence.
    + pose proof (IH a (set_readAllActions (Some (arr, q)) d1)) as H2.
      destruct (readAll_loop _ _ _ _) as [[a2 d2] evs2]. unfold stream_flags in *; simpl in *; congruence.
    + pose proof (readAll_catch_flags e0 a d1) as H2.
      destruct (readAll_catch _ _ _) as [[a2 d2] evs2]. unfold stream_flags in *; simpl in *; congruence.
  - done.
  - pose proof (IH a (set_readAllActions (Some (arr, q)) d)) as H2.
    by destruct (readAll_loop _ _ _ _) as [[a2 d2] evs2].
Qed.

Lemma readAll_flags a d : stream_flags (readAll a d).1.2 = stream_flags d.
Proof.
  unfold readAll. destruct (readAllActions d) as [[arr q]|];
    [apply readAll_loop_flags | apply readAll_end_flags].
Qed.

Lemma shift_actions_flags arr d : stream_flags (shift_actions arr d) = stream_flags d.
Proof. unfold shift_actions. by repeat case_match. Qed.

Lemma readAll_resume_flags arr o r a d :
  stream_flags (readAll_resume arr o r a d).1.2 = stream_flags d.
Proof.
  unfold readAll_resume.
  pose proof (op_resume_flags o r d) as H1.
  destruct (op_resume o r d) as [[d1 evs1] out]. simpl in H1.
  destruct out.
  - pose proof (readAll_flags a (shift_actions arr d1)) as H2.
    rewrite shift_actions_flags in H2.
    destruct (readAll _ _) as [[a2 d2] evs2]. unfold stream_flags in *; simpl in *; congruence.
  - pose proof (readAll_flags a (shift_actions arr d1)) as H2.
    rewrite shift_actions_flags in H2.
    destruct (readAll _ _) as [[a2 d2] evs2]. unfold stream_flags in *; simpl in *; congruence.
  - pose proof (readAll_flags a (shift_actions arr d1)) as H2.
    rewrite shift_actions_flags in H2.
    destruct (readAll _ _) as [[a2 d2] evs2]. unfold stream_flags in *; simpl in *; congruence.
  - pose proof (readAll_catch_flags e a d1) as H2.
    destruct (readAll_catch _ _ _) as [[a2 d2] evs2]. unfold stream_flags in *; simpl in *; congruence.
Qed.

Lemma call_op_flags o a d : stream_flags (call_op o a d).1.2 = stream_flags d.
Proof.
  unfold call_op. destruct (op_begin a d o) as [e | r w | out evs1]; try done.
  pose proof (op_throw_flags o e (set_nextId (S (nextId d)) d)) as H.
  by destruct (op_throw _ _ _) as [[d1 evs] out].
Qed.

Lemma fire_flags cb a d : stream_flags (fire cb a d).1.2 = stream_flags d.
Proof.
  destruct cb; unfold fire.
  - pose proof (setConnectedState_flags (Some false) d) as H. by destruct (setConnectedState _ _).
  - pose proof (setConnected_elapsed_flags isConnected d) as H.
    by destruct (setConnected_elapsed _ _).
  - apply readAll_flags.
  - done.
Qed.

(** Only the event stream itself and [stop()] touch the flags of the stream. *)
Lemma step_flags i a d :
  (∀ e, i ≠ InEvent e) → i ≠ InStop →
  stream_flags (step i (a, d)).1.2 = stream_flags d.
Proof.
  intros He Hs. unfold step. destruct i; try done.
  - by destruct (He e).
  - destruct (find_timer t d); [|done]. by rewrite fire_flags, clearTimeout_flags.
  - destruct (find_call cid d) as [c|]; [|done].
    destruct (well_shaped _ _); [|done]. destruct c.
    + by rewrite readAll_resume_flags.
    + pose proof (op_resume_flags o r (remove_call cid d)) as H.
      by destruct (op_resume _ _ _) as [[d1 evs] out].
  - apply call_op_flags.
Qed.

Lemma step_streamEnded i a d :
  streamEnded d = true → streamEnded (step i (a, d)).1.2 = true.
Proof.
  intros H.
  assert (Hgen : ∀ i0, (∀ e, i0 ≠ InEvent e) → i0 ≠ InStop →
                       streamEnded (step i0 (a, d)).1.2 = true).
  { intros i0 H1 H2. pose proof (step_flags i0 a d H1 H2) as Hf.
    unfold stream_flags in Hf. injection Hf as _ Hf. exact (eq_trans Hf H). }
  destruct i as [e|t|cid r|o|lid k th|en| |]; try (by apply Hgen); [|done].
  simpl. unfold processEvent. by rewrite H.
Qed.

Lemma run_streamEnded ins a d :
  streamEnded d = true → streamEnded (run ins (a, d)).1.2 = true.
Proof.
  revert a d. induction ins as [|i ins IH]; intros a d H; [done|].
  rewrite run_cons. pose proof (step_streamEnded i a d H) as H1.
  destruct (step i (a, d)) as [[a1 d1] evs1]. simpl in H1.
  pose proof (IH a1 d1 H1) as H2.
  by destruct (run ins (a1, d1)) as [[a2 d2] evs2].
Qed.

(** X1.  A STATUS, EVENT or NOTIFY event without items makes [eventListener]
    throw on [event.data.items]; the exception leaves the loop of
    [processEvents], whose [catch] logs it, and nothing starts the loop
    again.  The device is
    otherwise left as it was, and whatever happens afterwards (timers,
    responses, calls of the accessory), every later event of the stream is
    ignored: it changes nothing and logs nothing. *)
Theorem data_event_without_items_ends_stream
    (a : Api) (d : Device) (tag : string) (b : bool) (ins : list Input) (e : StreamEvent) :
  tag ∈ batch_events → streamEnded d = false →
  let w1 := (step (InEvent (empty_data_event tag b)) (a, d)).1 in
  w1 = (a, set_streamEnded true d)
  ∧ (step (InEvent (empty_data_event tag b)) (a, d)).2
    = [EvLog (LogEvent tag 0); EvLog LogDeviceEvents]
  ∧ (let w2 := (run ins w1).1 in step (InEvent e) w2 = (w2, [])).
Proof.
  intros Htag Hs.
  assert (H1 : step (InEvent (empty_data_event tag b)) (a, d)
               = (a, set_streamEnded true d,
                  [EvLog (LogEvent tag 0); EvLog LogDeviceEvents])).
  { unfold step, processEvent. rewrite Hs.
    unfold batch_events in Htag.
    repeat (apply elem_of_cons in Htag as [-> | Htag]);
      [| | | by apply elem_of_nil in Htag]; reflexivity. }
  rewrite H1. cbn [fst snd]. split; [done|]. split; [done|].
  pose proof (run_streamEnded ins a (set_streamEnded true d) eq_refl) as H2.
  destruct (run ins _) as [[a2 d2] evs2]. cbn [fst snd] in *.
  unfold step, processEvent. by rewrite H2.
Qed.

Lemma data_event_without_items_ends_stream_witness :
  "NOTIFY" ∈ batch_events ∧ streamEnded oven = false
  ∧ step (InEvent {| event := "CONNECTED"; data := None; err := false |})
      (run [InTimer 0; InCall GetStatus]
         (step (InEvent (empty_data_event "NOTIFY" false)) (all_scopes, oven)).1).1
    = ((run [InTimer 0; InCall GetStatus]
          (step (InEvent (empty_data_event "NOTIFY" false)) (all_scopes, oven)).1).1, []).
Proof.
  assert (H1 : "NOTIFY" ∈ batch_events) by (unfold batch_events; set_solver).
  split; [exact H1|]. split; [reflexivity|].
  exact (proj2 (proj2 (data_event_without_items_ends_stream all_scopes oven "NOTIFY" false
                         [InTimer 0; InCall GetStatus]
                         {| event := "CONNECTED"; data := None; err := false |}
                         H1 eq_refl))).
Defined.

(** ** [stop()] and the event in flight *)

Lemma arm_blackout_stop d :
  arm_blackout (set_stopEvents true d) = set_stopEvents true (arm_blackout d).
Proof. unfold arm_blackout. simpl. by destruct (blackoutScheduled d). Qed.

Lemma call_listeners_stop hook k v ls d :
  (∀ v d, hook v (set_stopEvents true d)
          = (set_stopEvents true (hook v d).1, (hook v d).2)) →
  call_listeners hook k v ls (set_stopEvents true d)
  = (set_stopEvents true (call_listeners hook k v ls d).1.1,
     (call_listeners hook k v ls d).1.2, (call_listeners hook k v ls d).2).
Proof.
  intros Hh. revert d. induction ls as [|l ls IH]; intros d; simpl; [done|].
  destruct (decide (listener_key l = k)); [|apply IH].
  destruct l.
  - rewrite arm_blackout_stop. apply IH.
  - rewrite Hh. destruct (hook v d) as [d1 evs1]. cbn [fst snd].
    rewrite IH. by destruct (call_listeners hook k v ls d1) as [[d2 evs2] threw].
  - destruct (throws (items d) v); [done|].
    rewrite IH. by destruct (call_listeners hook k v ls d) as [[d2 evs2] threw].
Qed.

Lemma update_with_stop hook its d :
  (∀ v d, hook v (set_stopEvents true d)
          = (set_stopEvents true (hook v d).1, (hook v d).2)) →
  update_with hook its (set_stopEvents true d)
  = (set_stopEvents true (update_with hook its d).1, (update_with hook its d).2).
Proof.
  intros Hh. unfold update_with.
  change (set_items (store_all its (items (set_stopEvents true d))) (set_stopEvents true d))
    with (set_stopEvents true (set_items (store_all its (items d)) d)).
  generalize (set_items (store_all its (items d)) d). clear d.
  induction its as [|it its IH]; intros d; simpl; [done|].
  unfold notify_item.
  change (listeners (set_stopEvents true d)) with (listeners d).
  change (listenerCount (key it) (set_stopEvents true d)) with (listenerCount (key it) d).
  rewrite call_listeners_stop by done.
  destruct (call_listeners hook (key it) (value it) (listeners d) d) as [[d1 evs] threw].
  cbn [fst snd]. rewrite IH. by destruct (notify_all hook its d1) as [d2 evs2].
Qed.

Lemma infer_power_stop upd v d :
  (∀ its d, upd its (set_stopEvents true d)
            = (set_stopEvents true (upd its d).1, (upd its d).2)) →
  infer_power upd v (set_stopEvents true d)
  = (set_stopEvents true (infer_power upd v d).1, (infer_power upd v d).2).
Proof.
  intros Hu. unfold infer_power.
  change (getItem K_PowerState (set_stopEvents true d)) with (getItem K_PowerState d).
  change (blackoutScheduled (set_stopEvents true d)) with (blackoutScheduled d).
  destruct (operationImpliesOn v) as [b|]; [|done].
  destruct (b && _).
  - destruct (blackoutScheduled d); [done|]. rewrite Hu. by destruct (upd _ d).
  - destruct (negb b && _); [|done]. rewrite Hu. by destruct (upd _ d).
Qed.

Lemma update_stop its d :
  update its (set_stopEvents true d)
  = (set_stopEvents true (update its d).1, (update its d).2).
Proof.
  apply update_with_stop. intros v d'. apply infer_power_stop.
  intros its' d''. by apply update_with_stop.
Qed.

Lemma setConnectedState_stop c d :
  setConnectedState c (set_stopEvents true d)
  = (set_stopEvents true (setConnectedState c d).1, (setConnectedState c d).2).
Proof.
  unfold setConnectedState.
  destruct c as [[|]|]; simpl; by destruct (setConnectedScheduled d).
Qed.

Lemma eventListener_stop e d :
  eventListener e (set_stopEvents true d)
  = (set_stopEvents true (eventListener e d).1.1,
     (eventListener e d).1.2, (eventListener e d).2).
Proof.
  unfold eventListener.
  repeat match goal with
         | |- context [decide ?P] => destruct (decide P)
         end;
    try (rewrite setConnectedState_stop; by destruct (setConnectedState _ d));
    try done.
  - change (clearTimeout (stopScheduled (set_stopEvents true d)) (set_stopEvents true d))
      with (match stopScheduled d with
            | Some t => set_stopEvents true (clearTimeout (Some t) d)
            | None => set_stopEvents true d
            end).
    destruct (stopScheduled d).
    + rewrite setConnectedState_stop. by destruct (setConnectedState _ _).
    + rewrite setConnectedState_stop. by destruct (setConnectedState _ _).
  - destruct (data e) as [its|]; [|done].
    rewrite update_stop. by destruct (update its d).
Qed.

(** X2.  [stop()] only sets a flag that the loop of [processEvents] tests
    after it has handled an event.  The loop is waiting for the next event
    when [stop()] is called, so that event is still handled in full, exactly
    as it is without [stop()]: same trace, same changes of the device.  Only
    then the loop is left, and every event after that one is ignored. *)
Theorem stop_lets_one_more_event_through
    (a : Api) (d : Device) (e e' : StreamEvent) (ins : list Input) :
  streamEnded d = false →
  let unstopped := step (InEvent e) (a, d) in
  let stopped := step (InEvent e) (step InStop (a, d)).1 in
  stopped = (a, set_streamEnded true (set_stopEvents true unstopped.1.2), unstopped.2)
  ∧ (let w := (run ins stopped.1).1 in step (InEvent e') w = (w, [])).
Proof.
  intros Hs. cbv zeta.
  assert (H1 : step (InEvent e) (step InStop (a, d)).1
               = (a, set_streamEnded true (set_stopEvents true (step (InEvent e) (a, d)).1.2),
                  (step (InEvent e) (a, d)).2)).
  { unfold step. cbn [fst snd]. unfold processEvent.
    change (streamEnded (set_stopEvents true d)) with (streamEnded d). rewrite Hs.
    rewrite eventListener_stop.
    destruct (eventListener e d) as [[d1 evs] threw]. cbn [fst snd].
    change (stopEvents (set_stopEvents true d1)) with true.
    rewrite orb_true_r. by destruct (threw || stopEvents d1). }
  split; [exact H1|]. rewrite H1. cbn [fst snd].
  pose proof (run_streamEnded ins a
    (set_streamEnded true (set_stopEvents true (step (InEvent e) (a, d)).1.2)) eq_refl) as H2.
  destruct (run ins _) as [[a2 d2] evs2]. cbn [fst snd] in *.
  unfold step, processEvent. by rewrite H2.
Qed.

Lemma stop_lets_one_more_event_through_witness :
  streamEnded oven = false
  ∧ (step (batch_event "NOTIFY" [power_item PowerState_On]) (step InStop (all_scopes, oven)).1).2
    = [EvLog (LogEvent "NOTIFY" 1); EvEmit K_PowerState PowerState_On 1]
  ∧ getItem K_PowerState
      (step (batch_event "NOTIFY" [power_item PowerState_On])
            (step InStop (all_scopes, oven)).1).1.2 = PowerState_On.
Proof.
  split; [reflexivity|].
  pose proof (proj1 (stop_lets_one_more_event_through all_scopes oven
    {| event := "NOTIFY"; data := Some [power_item PowerState_On]; err := false |}
    {| event := "NOTIFY"; data := None; err := false |} [] eq_refl)) as H.
  unfold batch_event. rewrite H. split; vm_compute; reflexivity.
Defined.

(** ** No transport call for an appliance that is offline *)

(** X3.  Every operation but [getAppliance] calls [requireConnected] before
    its transport call (through [requireMonitor], [requireSettings] or
    [requireControl]).  While the appliance is not known to be connected no
    other operation reaches the transport: the call of the accessory ends at
    once, without a request and without a call left waiting, and, unless the
    operation has nothing to do in the current operation state, the caller
    gets an error. *)
Theorem offline_operations_make_no_transport_call (a : Api) (d : Device) (o : Op) :
  is_connected d = false → o ≠ GetAppliance →
  (∀ r w, op_begin a d o ≠ BCall r w)
  ∧ has_call (call_op o a d).2 = false
  ∧ calls (call_op o a d).1.2 = calls d
  ∧ items (call_op o a d).1.2 = items d
  ∧ ((∃ e, op_begin a d o = BThrow e
           ∧ (e = ErrOffline ∨ ∃ scope, e = ErrScope scope)
           ∧ (call_op o a d).2 = [EvLog (LogOpError o e); EvSettled (nextId d) (Threw e)])
     ∨ (o = GetActiveProgram ∧ includes inactiveStates (getItem K_OperationState d) = true)
     ∨ (o = StopProgram ∧ includes activeStates (getItem K_OperationState d) = false)).
Proof.
  intros Hc Ho.
  assert (Hscope : ∀ scope, ∃ e, requireScope scope a d = Some e
                              ∧ (e = ErrOffline ∨ ∃ s, e = ErrScope s)).
  { intros scope. unfold requireScope, gate_seq, requireConnected. rewrite Hc.
    destruct (hasScope a d scope); eauto. }
  assert (Hthrow : ∀ e, op_begin a d o = BThrow e → (e = ErrOffline ∨ ∃ s, e = ErrScope s) →
                        call_op o a d
                        = (a, set_nextId (S (nextId d)) d,
                           [EvLog (LogOpError o e); EvSettled (nextId d) (Threw e)])).
  { intros e He Hk. unfold call_op. rewrite He. unfold op_throw.
    replace (suppressed o e) with false; [done|].
    destruct Hk as [-> | [s ->]]; by destruct o. }
  assert (Hgate : ∀ (g : Gate) r w scope,
            (g = requireScope scope ∨ ∃ g2, g = gate_seq (requireScope scope) g2) →
            ∃ e, gated g a d r w = BThrow e ∧ (e = ErrOffline ∨ ∃ s, e = ErrScope s)).
  { intros g r w scope Hg. destruct (Hscope scope) as (e & He & Hk).
    exists e. split; [|done]. unfold gated.
    destruct Hg as [-> | [g2 ->]]; [by rewrite He|].
    unfold gate_seq at 1. by rewrite He. }
  assert (Hcases :
    (∃ e, op_begin a d o = BThrow e ∧ (e = ErrOffline ∨ ∃ s, e = ErrScope s))
    ∨ (o = GetActiveProgram ∧ includes inactiveStates (getItem K_OperationState d) = true
       ∧ op_begin a d o = BDone ReturnedNull [EvLog LogIgnoringGetActive])
    ∨ (o = StopProgram ∧ includes activeStates (getItem K_OperationState d) = false
       ∧ op_begin a d o = BDone Returned [EvLog LogIgnoringStop])).
  { destruct o; try done; cbn [op_begin].
    - left. apply (Hgate _ _ _ "Monitor"). by left.
    - left. apply (Hgate _ _ _ "Settings"). by left.
    - left. apply (Hgate _ _ _ "Settings"). by left.
    - left. apply (Hgate _ _ _ "Settings"). right; eauto.
    - left. apply (Hgate _ _ _ "Monitor"). by left.
    - left. apply (Hgate _ _ _ "Monitor"). by left.
    - left. apply (Hgate _ _ _ "Monitor"). by left.
    - left. apply (Hgate _ _ _ "Monitor"). by left.
    - left. apply (Hgate _ _ _ "Control"). right; eauto.
    - destruct (includes inactiveStates _) eqn:E; [right; left; done|].
      left. apply (Hgate _ _ _ "Monitor"). by left.
    - left. apply (Hgate _ _ _ "Control"). right; eauto.
    - destruct (includes activeStates _) eqn:E; [|right; right; done].
      left. apply (Hgate _ _ _ "Control"). right; eauto.
    - left. apply (Hgate _ _ _ "Control"). by left.
    - left. apply (Hgate _ _ _ "Control"). right; eauto.
    - left. apply (Hgate _ _ _ "Control"). by left.
    - left. apply (Hgate _ _ _ "Control"). right; eauto. }
  destruct Hcases as [(e & He & Hk) | [(-> & Hi & Hb) | (-> & Hi & Hb)]].
  - rewrite (Hthrow e He Hk). cbn [fst snd]. repeat split; try done.
    + intros r w. by rewrite He.
    + left. by exists e.
  - unfold call_op. rewrite Hb. cbn [fst snd]. repeat split; try done. right. by left.
  - unfold call_op. rewrite Hb. cbn [fst snd]. repeat split; try done. right. by right.
Qed.

Lemma offline_operations_make_no_transport_call_witness :
  let d := new_device "dishwasher" "Dishwasher" (Some false) in
  is_connected d = false ∧ StartProgram VUndef [] ≠ GetAppliance
  ∧ has_call (call_op (StartProgram VUndef []) all_scopes d).2 = false
  ∧ calls (call_op (StartProgram VUndef []) all_scopes d).1.2 = calls d.
Proof.
  intros d.
  assert (H1 : is_connected d = false) by reflexivity.
  assert (H2 : StartProgram VUndef [] ≠ GetAppliance) by discriminate.
  split; [exact H1|]. split; [exact H2|].
  pose proof (offline_operations_make_no_transport_call all_scopes d _ H1 H2) as (_ & H3 & H4 & _).
  split; [exact H3 | exact H4].
Defined.

(** ** The power setting after the operation state has been reported *)

Lemma call_listeners_only_observers hook k v ls d :
  Forall is_observer ls → (call_listeners hook k v ls d).1.1 = d.
Proof.
  intros Hls. revert d. induction Hls as [|l ls Hl _ IH]; intros d; simpl; [done|].
  destruct (decide (listener_key l = k)); [|apply IH].
  destruct l; try done.
  destruct (throws (items d) v); [done|].
  pose proof (IH d) as H. by destruct (call_listeners hook k v ls d) as [[d1 evs] threw].
Qed.

Lemma K_PowerState_ne : K_PowerState ≠ K_OperationState.
Proof. done. Qed.

(** What publishing a corrected power setting does to a constructed device:
    the setting is stored and the blackout is armed anew. *)
Lemma update_nested_correction v d :
  constructed_listeners (listeners d) →
  (update_nested [power_item v] d).1
  = arm_blackout (set_items (<[K_PowerState := v]> (items d)) d).
Proof.
  intros (obs & Hls & Hobs).
  unfold update_nested, update_with. simpl. unfold notify_item.
  cbn [listeners set_items key value power_item]. rewrite Hls. simpl.
  destruct (decide (K_PowerState = K_PowerState)) as [_|Hne]; [|done].
  destruct (decide (K_OperationState = K_PowerState)) as [Heq|_]; [done|].
  pose proof (call_listeners_only_observers (λ _ d, (d, [])) K_PowerState v obs
                (arm_blackout (set_items (<[K_PowerState := v]> (items d)) d)) Hobs) as H.
  by destruct (call_listeners _ _ _ obs _) as [[d1 evs] threw].
Qed.

Lemma update_operation_state v d :
  constructed_listeners (listeners d) →
  (update [item K_OperationState v] d).1
  = (infer_power update_nested v (set_items (<[K_OperationState := v]> (items d)) d)).1.
Proof.
  intros (obs & Hls & Hobs).
  unfold update, update_with. simpl. unfold notify_item.
  cbn [listeners set_items key value item]. rewrite Hls. simpl.
  destruct (decide (K_PowerState = K_OperationState)) as [Heq|_]; [done|].
  destruct (decide (K_OperationState = K_OperationState)) as [_|Hne]; [|done].
  destruct (infer_power update_nested v _) as [d1 evs1].
  pose proof (call_listeners_only_observers (infer_power update_nested) K_OperationState v obs
                d1 Hobs) as H.
  by destruct (call_listeners _ _ _ obs _) as [[d2 evs] threw].
Qed.

(** X4.  What the workaround of [inferPowerState] does to the stored power
    setting when an operation state is reported to a device whose listeners
    are the constructor's, followed by observers.  A state that implies
    power on ([Ready], [Run]) sets the stored setting to [On] unless the
    blackout is armed, in which case the setting is left alone; a state that
    implies power off ([Inactive]) leaves a setting that is not [On]
    ([Standby] when it was [On]), with or without blackout; any other state
    leaves the setting alone.  Whenever the workaround changes the setting it
    also arms the blackout anew, with a fresh timer of 2 s, since its own
    publication reaches the listener that arms it. *)
Theorem inference_aligns_power_setting (v : Value) (d : Device) :
  constructed_listeners (listeners d) →
  let d' := (update [item K_OperationState v] d).1 in
  (operationImpliesOn v = Some true → blackoutScheduled d = None →
     getItem K_PowerState d' = PowerState_On)
  ∧ (operationImpliesOn v = Some true → blackoutScheduled d ≠ None →
     getItem K_PowerState d' = getItem K_PowerState d)
  ∧ (operationImpliesOn v = Some false →
     getItem K_PowerState d' ≠ PowerState_On
     ∧ (getItem K_PowerState d = PowerState_On → getItem K_PowerState d' = PowerState_Standby)
     ∧ (getItem K_PowerState d ≠ PowerState_On →
        getItem K_PowerState d' = getItem K_PowerState d))
  ∧ (operationImpliesOn v = None → getItem K_PowerState d' = getItem K_PowerState d)
  ∧ (getItem K_PowerState d' ≠ getItem K_PowerState d →
     blackoutScheduled d' = Some (nextId d)
     ∧ blackout_timer (nextId d) ∈ timers d')
  ∧ getItem K_OperationState d' = v.
Proof.
  intros Hls d'. subst d'. rewrite (update_operation_state v d Hls).
  set (d0 := set_items (<[K_OperationState := v]> (items d)) d).
  assert (Hls0 : constructed_listeners (listeners d0)) by done.
  assert (Hp0 : getItem K_PowerState d0 = getItem K_PowerState d).
  { unfold getItem, d0. simpl. by rewrite lookup_insert_ne. }
  assert (Ho0 : getItem K_OperationState d0 = v).
  { unfold getItem, d0. simpl. by rewrite lookup_insert_eq. }
  assert (Hcorr : ∀ x, x ≠ getItem K_PowerState d →
    let d1 := (update_nested [power_item x] d0).1 in
    getItem K_PowerState d1 = x ∧ getItem K_OperationState d1 = v
    ∧ blackoutScheduled d1 = Some (nextId d) ∧ blackout_timer (nextId d) ∈ timers d1).
  { intros x Hx d1. subst d1. rewrite (update_nested_correction x d0 Hls0).
    unfold arm_blackout. simpl.
    destruct (blackoutScheduled d); simpl;
      (split; [unfold getItem; simpl; by rewrite lookup_insert_eq|]);
      (split; [unfold getItem; simpl; rewrite lookup_insert_ne by done;
               by rewrite lookup_insert_eq|]);
      (split; [done|]);
      apply elem_of_app; right; by apply list_elem_of_singleton. }
  unfold infer_power. rewrite Hp0.
  destruct (operationImpliesOn v) as [[|]|] eqn:Ev; simpl.
  - destruct (bool_decide (getItem K_PowerState d = PowerState_On)) eqn:Eon; simpl.
    + apply bool_decide_eq_true in Eon. repeat split; try done; congruence.
    + apply bool_decide_eq_false in Eon.
      change (blackoutScheduled d0) with (blackoutScheduled d).
      destruct (blackoutScheduled d) as [t|] eqn:Eb.
      * simpl. repeat split; try done; try congruence.
      * destruct (Hcorr PowerState_On) as (H1 & H2 & H3 & H4); [congruence|].
        destruct (update_nested _ d0) as [d1 evs1]. simpl in *.
        repeat split; try done; try congruence.
  - destruct (bool_decide (getItem K_PowerState d = PowerState_On)) eqn:Eon; simpl.
    + apply bool_decide_eq_true in Eon.
      destruct (Hcorr PowerState_Standby) as (H1 & H2 & H3 & H4); [by rewrite Eon|].
      destruct (update_nested _ d0) as [d1 evs1]. simpl in *.
      repeat split; try done; try congruence. by rewrite H1.
    + apply bool_decide_eq_false in Eon. repeat split; try done; congruence.
  - repeat split; try done; congruence.
Qed.

Lemma inference_aligns_power_setting_witness :
  constructed_listeners (listeners oven)
  ∧ getItem K_PowerState (update [item K_OperationState (VStr OperationState_Run)] oven).1
    = PowerState_On.
Proof.
  assert (H : constructed_listeners (listeners oven)).
  { exists []. split; [reflexivity | constructor]. }
  split; [exact H|].
  exact (proj1 (inference_aligns_power_setting (VStr OperationState_Run) oven H)
           eq_refl eq_refl).
Defined.

(** ** Timers in the states a device reaches *)

Lemma how_many_app {A} (p : A → bool) l1 l2 :
  how_many p (l1 ++ l2) = how_many p l1 + how_many p l2.
Proof. unfold how_many. by rewrite filter_app, length_app. Qed.

Lemma how_many_filter_le {A} (p : A → bool) (Q : A → Prop) `{∀ x, Decision (Q x)} l :
  how_many p (filter Q l) ≤ how_many p l.
Proof.
  unfold how_many. induction l as [|x l IH]; [done|].
  destruct (decide (Q x)).
  - rewrite (filter_cons_True Q) by done.
    destruct (decide (p x = true)).
    + rewrite !(filter_cons_True (λ x, p x = true)) by done. simpl. lia.
    + rewrite !(filter_cons_False (λ x, p x = true)) by done. done.
  - rewrite (filter_cons_False Q) by done.
    destruct (decide (p x = true)).
    + rewrite (filter_cons_True (λ x, p x = true)) by done. simpl. lia.
    + rewrite (filter_cons_False (λ x, p x = true)) by done. done.
Qed.

Lemma how_many_filter_lt {A} (p : A → bool) (Q : A → Prop) `{∀ x, Decision (Q x)} l x :
  x ∈ l → p x = true → ¬ Q x → how_many p (filter Q l) < how_many p l.
Proof.
  intros Hin Hp HQ. induction l as [|y l IH]; [by apply elem_of_nil in Hin|].
  pose proof (how_many_filter_le p Q l) as Hle.
  unfold how_many in *.
  apply elem_of_cons in Hin as [<- | Hin].
  - rewrite (filter_cons_False Q) by done.
    rewrite (filter_cons_True (λ x, p x = true)) by done. simpl. lia.
  - specialize (IH Hin).
    destruct (decide (Q y)).
    + rewrite (filter_cons_True Q) by done.
      destruct (decide (p y = true)).
      * rewrite !(filter_cons_True (λ x, p x = true)) by done. simpl. lia.
      * rewrite !(filter_cons_False (λ x, p x = true)) by done. done.
    + rewrite (filter_cons_False Q) by done.
      destruct (decide (p y = true)).
      * rewrite (filter_cons_True (λ x, p x = true)) by done. simpl. lia.
      * rewrite (filter_cons_False (λ x, p x = true)) by done. done.
Qed.

Lemma how_many_zero {A} (p : A → bool) l :
  how_many p l = 0 ↔ ∀ x, x ∈ l → p x = false.
Proof.
  unfold how_many. split.
  - intros H x Hin. destruct (p x) eqn:E; [|done].
    assert (Hx : x ∈ filter (λ x, p x = true) l) by (by apply list_elem_of_filter).
    apply length_zero_iff_nil in H. rewrite H in Hx. by apply elem_of_nil in Hx.
  - intros H. apply length_zero_iff_nil.
    induction l as [|y l IH]; [done|].
    rewrite filter_cons_False.
    + apply IH. intros x Hx. apply H. apply elem_of_cons. by right.
    + rewrite (H y); [done|]. apply elem_of_cons. by left.
Qed.

(** Things with one and the same handle: there is at most one of them. *)
Lemma same_handle_once {A} (handle : A → nat) (p : A → bool) (l : list A) (t : nat) :
  NoDup (map handle l) → (∀ x, x ∈ l → p x = true → handle x = t) → how_many p l ≤ 1.
Proof.
  intros Hnd Hall. induction l as [|y l IH]; [unfold how_many; simpl; lia|].
  simpl in Hnd. apply NoDup_cons in Hnd as [Hy Hnd].
  assert (IH' : how_many p l ≤ 1).
  { apply IH; [done|]. intros x Hx. apply Hall. apply elem_of_cons. by right. }
  destruct (p y) eqn:Ey.
  - assert (H0 : how_many p l = 0).
    { apply how_many_zero. intros x Hx. destruct (p x) eqn:Ex; [|done].
      exfalso. apply Hy. apply list_elem_of_fmap. exists x. split; [|done].
      rewrite (Hall y); [|apply elem_of_cons; by left|done].
      symmetry. apply Hall; [apply elem_of_cons; by right|done]. }
    unfold how_many in *. rewrite filter_cons_True by done. simpl. lia.
  - unfold how_many in *. rewrite filter_cons_False; [done|]. by rewrite Ey.
Qed.

Lemma steady_refl d : steady d d.
Proof. unfold steady. eauto. Qed.

Lemma steady_trans d1 d2 d3 : steady d1 d2 → steady d2 d3 → steady d1 d3.
Proof.
  intros (H1 & H2 & H3) (H4 & H5 & H6). unfold steady.
  split; [eauto|]. split; [lia | congruence].
Qed.

(** A change of fields that the timers do not depend on. *)
Lemma steady_passive d d' :
  timers d' = timers d → calls d' = calls d → nextId d ≤ nextId d' →
  setConnectedScheduled d' = setConnectedScheduled d →
  blackoutScheduled d' = blackoutScheduled d →
  readAllScheduled d' = readAllScheduled d →
  steady d d'.
Proof.
  intros Ht Hc Hn Hs Hb Hr. unfold steady, readAll_running. rewrite Ht, Hc, Hr.
  split; [|done]. intros [H1 H2 H3 H4 H5 H6].
  split; unfold timers_fresh, readAll_running in *; rewrite ?Ht, ?Hc, ?Hs, ?Hb, ?Hr; try done.
  eapply Forall_impl; [exact H1|]. simpl. intros x Hx. lia.
Qed.

Lemma steady_clearTimeout h d : steady d (clearTimeout h d).
Proof.
  destruct h as [t|]; [|apply steady_refl]. unfold steady, readAll_running. simpl.
  pose proof (how_many_filter_le is_readAll_timer (λ x, tid x ≠ t) (timers d)) as Hle.
  split; [|split; [lia | done]].
  intros [H1 H2 H3 H4 H5 H6].
  split; unfold timers_fresh, readAll_running in *; simpl.
  - rewrite Forall_forall in H1. apply Forall_forall. intros x Hx.
    apply list_elem_of_filter in Hx as [_ Hx]. by apply H1.
  - eapply sublist_NoDup; [exact H2|]. apply (fmap_sublist tid), sublist_filter.
  - intros x Hx. apply list_elem_of_filter in Hx as [_ Hx]. by apply H3.
  - intros x Hx. apply list_elem_of_filter in Hx as [_ Hx]. by apply H4.
  - lia.
  - intros Hr. specialize (H6 Hr). lia.
Qed.

(** A timer is added, with a fresh handle that the field of its kind
    receives; no other timer of that kind is pending (for [readAll]: no
    activation exists). *)
Lemma well_formed_add_timer (cb : Callback) (ms : Z) (d d' : Device) :
  well_formed d →
  timers d' = timers d ++ [{| tid := nextId d; delay := ms; callback := cb |}] →
  nextId d' = S (nextId d) → calls d' = calls d →
  match cb with
  | CbSetConnected _ =>
      setConnectedScheduled d' = Some (nextId d)
      ∧ (∀ x, x ∈ timers d → is_evaluation x = false)
      ∧ blackoutScheduled d' = blackoutScheduled d
      ∧ readAllScheduled d' = readAllScheduled d
  | CbBlackout =>
      blackoutScheduled d' = Some (nextId d)
      ∧ (∀ x, x ∈ timers d → is_blackout x = false)
      ∧ setConnectedScheduled d' = setConnectedScheduled d
      ∧ readAllScheduled d' = readAllScheduled d
  | CbReadAll =>
      readAllScheduled d' = Some (nextId d)
      ∧ readAll_running d = 0
      ∧ setConnectedScheduled d' = setConnectedScheduled d
      ∧ blackoutScheduled d' = blackoutScheduled d
  | CbStop =>
      setConnectedScheduled d' = setConnectedScheduled d
      ∧ blackoutScheduled d' = blackoutScheduled d
      ∧ readAllScheduled d' = readAllScheduled d
  end →
  well_formed d'
  ∧ readAll_running d' = readAll_running d + (if is_readAll_timer {| tid := 0; delay := 0; callback := cb |} then 1 else 0).
Proof.
  intros [H1 H2 H3 H4 H5 H6] Ht Hn Hc Hcb.
  assert (Hrun : readAll_running d'
                 = readAll_running d
                   + (if is_readAll_timer {| tid := 0; delay := 0; callback := cb |}
                      then 1 else 0)).
  { unfold readAll_running. rewrite Ht, Hc, how_many_app.
    assert (how_many is_readAll_timer [{| tid := nextId d; delay := ms; callback := cb |}]
            = if is_readAll_timer {| tid := 0; delay := 0; callback := cb |} then 1 else 0)
      as -> by (by destruct cb).
    lia. }
  split; [|exact Hrun].
  assert (Hin : ∀ x, x ∈ timers d' →
                     x ∈ timers d ∨ x = {| tid := nextId d; delay := ms; callback := cb |}).
  { intros x Hx. rewrite Ht in Hx. apply elem_of_app in Hx as [Hx | Hx]; [by left|].
    apply list_elem_of_singleton in Hx. by right. }
  split; unfold timers_fresh in *.
  - rewrite Ht, Hn. apply Forall_app. split.
    + eapply Forall_impl; [exact H1|]. simpl. intros x Hx. lia.
    + constructor; [simpl; lia | constructor].
  - rewrite Ht, map_app. apply NoDup_app. split; [done|]. split; [|apply NoDup_singleton].
    intros n Hn1 Hn2. apply list_elem_of_singleton in Hn2. simpl in Hn2. subst n.
    apply list_elem_of_fmap in Hn1 as (x & Hx1 & Hx2).
    rewrite Forall_forall in H1. specialize (H1 x Hx2). lia.
  - intros x Hx He. destruct (Hin x Hx) as [Hx' | ->].
    + destruct cb; try (destruct Hcb as (? & ? & ? & ?)); try (destruct Hcb as (? & ? & ?));
        first [ match goal with
                | Hf : ∀ x, x ∈ timers d → is_evaluation x = false |- _ =>
                    rewrite (Hf x Hx') in He; done
                end
              | match goal with
                | Heq : setConnectedScheduled d' = setConnectedScheduled d |- _ =>
                    rewrite Heq; by apply H3
                end ].
    + destruct cb; try done. by destruct Hcb as (-> & _).
  - intros x Hx He. destruct (Hin x Hx) as [Hx' | ->].
    + destruct cb; try (destruct Hcb as (? & ? & ? & ?)); try (destruct Hcb as (? & ? & ?));
        first [ match goal with
                | Hf : ∀ x, x ∈ timers d → is_blackout x = false |- _ =>
                    rewrite (Hf x Hx') in He; done
                end
              | match goal with
                | Heq : blackoutScheduled d' = blackoutScheduled d |- _ =>
                    rewrite Heq; by apply H4
                end ].
    + destruct cb; try done. by destruct Hcb as (-> & _).
  - rewrite Hrun. destruct cb; simpl; lia.
  - intros Hr. rewrite Hrun. destruct cb; simpl.
    + destruct Hcb as (_ & _ & Hr'). rewrite Hr' in Hr. specialize (H6 Hr). lia.
    + destruct Hcb as (_ & _ & _ & Hr'). rewrite Hr' in Hr. specialize (H6 Hr). lia.
    + destruct Hcb as (Hr' & _). congruence.
    + destruct Hcb as (_ & _ & _ & Hr'). rewrite Hr' in Hr. specialize (H6 Hr). lia.
Qed.

Lemma cleared_blackout d x :
  well_formed d → x ∈ timers (clearTimeout (blackoutScheduled d) d) → is_blackout x = false.
Proof.
  intros Hwf Hx. destruct (is_blackout x) eqn:E; [exfalso|done].
  destruct (blackoutScheduled d) as [t|] eqn:Eb; simpl in Hx.
  - apply list_elem_of_filter in Hx as [Hne Hx].
    pose proof (wf_blackout d Hwf x Hx E) as H. congruence.
  - pose proof (wf_blackout d Hwf x Hx E) as H. congruence.
Qed.

Lemma cleared_evaluation d x :
  well_formed d → x ∈ timers (clearTimeout (setConnectedScheduled d) d) →
  is_evaluation x = false.
Proof.
  intros Hwf Hx. destruct (is_evaluation x) eqn:E; [exfalso|done].
  destruct (setConnectedScheduled d) as [t|] eqn:Eb; simpl in Hx.
  - apply list_elem_of_filter in Hx as [Hne Hx].
    pose proof (wf_evaluation d Hwf x Hx E) as H. congruence.
  - pose proof (wf_evaluation d Hwf x Hx E) as H. congruence.
Qed.

Lemma steady_set_items m d : steady d (set_items m d).
Proof. by apply steady_passive. Qed.

Lemma steady_arm_blackout d : steady d (arm_blackout d).
Proof.
  pose proof (steady_clearTimeout (blackoutScheduled d) d) as (Hwf1 & Hrun1 & Hr1).
  set (d1 := clearTimeout (blackoutScheduled d) d) in *.
  assert (Hadd : well_formed d →
            well_formed (arm_blackout d)
            ∧ readAll_running (arm_blackout d) = readAll_running d1 + 0).
  { intros Hwf.
    apply (well_formed_add_timer CbBlackout (POWERSTATE_BLACKOUT * MS) d1 (arm_blackout d));
      [by apply Hwf1 | done | done | done |].
    split; [done|]. split; [|done]. intros x Hx. by apply (cleared_blackout d). }
  unfold steady. split; [intros Hwf; by apply Hadd|].
  split; [|exact Hr1].
  assert (Hrun : readAll_running (arm_blackout d) = readAll_running d1).
  { unfold readAll_running, arm_blackout. fold d1. simpl. rewrite how_many_app.
    unfold how_many at 2. simpl. lia. }
  lia.
Qed.

Lemma steady_update its d : steady d (update its d).1.
Proof.
  apply update_rel; eauto using steady_refl, steady_trans, steady_set_items, steady_arm_blackout.
Qed.

Lemma steady_setConnectedState c d : steady d (setConnectedState c d).1.
Proof.
  unfold setConnectedState.
  set (d1 := match c with Some b => set_connected (Some b) d | None => d end).
  assert (H1 : steady d d1) by (destruct c; [by apply steady_passive | apply steady_refl]).
  set (r := match c with Some false => onDisconnected d1 | _ => (d1, []) end).
  assert (H2 : steady d1 r.1).
  { subst r. destruct c as [[|]|]; try apply steady_refl. by apply steady_passive. }
  destruct r as [d2 evs]. cbn [fst] in H2.
  eapply steady_trans; [exact H1|]. eapply steady_trans; [exact H2|]. clear H1 H2 d1.
  pose proof (steady_clearTimeout (setConnectedScheduled d2) d2) as H3.
  eapply steady_trans; [exact H3|].
  set (d3 := clearTimeout (setConnectedScheduled d2) d2) in *.
  cbn [fst setTimeout].
  set (d5 := set_setConnectedScheduled _ _).
  assert (Hrun : readAll_running d5 = readAll_running d3).
  { unfold readAll_running, d5. simpl. rewrite how_many_app.
    unfold how_many at 2. simpl. lia. }
  unfold steady. split; [|split; [lia | done]].
  intros Hwf3.
  assert (Hno : ∀ x, x ∈ timers d3 → is_evaluation x = false).
  { intros x Hx. subst d3.
    destruct H3 as (Hwf & _).
    destruct (is_evaluation x) eqn:E; [exfalso|done].
    pose proof (wf_evaluation _ Hwf3 x Hx E) as Hh.
    destruct (setConnectedScheduled d2) as [t|] eqn:Eb; simpl in Hx, Hh.
    - apply list_elem_of_filter in Hx as [Hne _]. congruence.
    - congruence. }
  by apply (well_formed_add_timer (CbSetConnected c) 0 d3 d5).
Qed.

Lemma well_formed_onConnected d : well_formed d → well_formed (onConnected d).1.
Proof.
  intros Hwf. unfold onConnected.
  destruct (readAllActions d); [done|]. cbn [readAllScheduled set_nextId set_readAllActions].
  set (d1 := set_nextId _ _).
  assert (H1 : steady d d1) by (apply steady_passive; simpl; try done; lia).
  destruct H1 as (Hwf1 & Hrun1 & Hr1). specialize (Hwf1 Hwf).
  destruct (readAllScheduled d) eqn:Er; [done|].
  cbn [fst setTimeout].
  apply (well_formed_add_timer CbReadAll 0 d1 _ Hwf1); try done.
  split; [done|]. split; [|done].
  pose proof (wf_idle d Hwf Er). lia.
Qed.

Lemma well_formed_setConnected_elapsed c d :
  well_formed d → well_formed (setConnected_elapsed c d).1.
Proof.
  intros Hwf. unfold setConnected_elapsed.
  set (r := if negb (is_connected d) && _ then _ else _).
  assert (H1 : well_formed r.1).
  { subst r. destruct (negb (is_connected d) && _); [|done].
    by apply steady_update. }
  destruct r as [d1 evs1]. cbn [fst] in H1.
  destruct c as [[|]|]; try done.
  - pose proof (well_formed_onConnected d1 H1). by destruct (onConnected d1).
  - pose proof (well_formed_onConnected d1 H1). by destruct (onConnected d1).
Qed.

Lemma op_throw_device o e d : (op_throw o e d).1.1 = d.
Proof. unfold op_throw. by destruct (suppressed o e). Qed.

Lemma steady_op_resume o r d : steady d (op_resume o r d).1.1.
Proof.
  unfold op_resume.
  destruct r as [|c|its|it|pk opts|active selected|commands|e]; try (rewrite op_throw_device; apply steady_refl);
    destruct o; try (rewrite op_throw_device; apply steady_refl); try apply steady_refl.
  all: repeat match goal with
       | |- context [reported_program ?x ?y] =>
           destruct (reported_program x y) as [[[? ?] ?]|]
       | |- context [update ?its ?d] =>
           let H := fresh "H" in
           pose proof (steady_update its d) as H; destruct (update its d); simpl in H |- *
       | |- context [setConnectedState ?c ?d] =>
           let H := fresh "H" in
           pose proof (steady_setConnectedState c d) as H;
           destruct (setConnectedState c d); simpl in H |- *
       | |- context [if ?b then _ else _] => destruct b
       end; simpl; eauto using steady_trans, steady_refl.
Qed.

Lemma well_formed_readAll_catch e a d :
  well_formed d → readAll_running d = 0 → well_formed (readAll_catch e a d).1.2.
Proof.
  intros Hwf H0. unfold readAll_catch. destruct (is_connected d); cbn [fst snd setTimeout].
  - by apply (well_formed_add_timer CbReadAll (next_retry_delay (readAllRetryDelay a) * MS) d _ Hwf).
  - destruct Hwf as [H1 H2 H3 H4 H5 H6]. split; try done; unfold readAll_running in *; simpl; lia.
Qed.

Lemma well_formed_readAll_end a d :
  well_formed d → readAll_running d = 0 → well_formed (readAll_end a d).1.2.
Proof.
  intros Hwf H0. unfold readAll_end.
  assert (H1 : well_formed (set_readAllScheduled None d)).
  { destruct Hwf as [H1 H2 H3 H4 H5 H6]. split; try done; unfold readAll_running in *; simpl; lia. }
  cbn [readAllActions set_readAllScheduled].
  destruct (readAllActions d); [|done].
  destruct (is_connected _ && _); [|done].
  pose proof (steady_update [item K_connected (VBool true)] (set_readAllScheduled None d)) as (H & _).
  specialize (H H1). by destruct (update _ _).
Qed.

Lemma well_formed_add_call c d :
  well_formed d →
  (is_readAll_call (0, c) = true → readAll_running d = 0 ∧ readAllScheduled d ≠ None) →
  well_formed (add_call c d).2.
Proof.
  intros [H1 H2 H3 H4 H5 H6] Hc. unfold add_call. cbn [snd].
  assert (Hrun : readAll_running (set_nextId (S (nextId d)) (set_calls (calls d ++ [(nextId d, c)]) d))
                 = readAll_running d + (if is_readAll_call (0, c) then 1 else 0)).
  { unfold readAll_running. simpl. rewrite how_many_app.
    assert (how_many is_readAll_call [(nextId d, c)] = if is_readAll_call (0, c) then 1 else 0)
      as -> by (by destruct c).
    lia. }
  split; unfold timers_fresh in *; try done.
  - simpl. eapply Forall_impl; [exact H1|]. simpl. intros x Hx. lia.
  - rewrite Hrun. destruct (is_readAll_call (0, c)); [|lia].
    destruct Hc as [-> _]; [done|]. lia.
  - intros Hr. rewrite Hrun. destruct (is_readAll_call (0, c)).
    + destruct Hc as [_ Hc]; [done|]. by destruct Hc.
    + simpl in Hr. specialize (H6 Hr). lia.
Qed.

Lemma well_formed_readAll_loop arr q a d :
  well_formed d → readAll_running d = 0 → readAllScheduled d ≠ None →
  well_formed (readAll_loop arr q a d).1.2.
Proof.
  revert a d. induction q as [|o q IH]; intros a d Hwf H0 Hr; simpl;
    [by apply well_formed_readAll_end|].
  assert (Hnext : well_formed (set_readAllActions (Some (arr, q)) d)
                  ∧ readAll_running (set_readAllActions (Some (arr, q)) d) = 0
                  ∧ readAllScheduled (set_readAllActions (Some (arr, q)) d) ≠ None).
  { split; [|done]. by apply (steady_passive d). }
  destruct Hnext as (Hn1 & Hn2 & Hn3).
  destruct (op_begin a d o) as [e | r w | out evs1].
  - pose proof (op_throw_device o e d) as H1.
    destruct (op_throw o e d) as [[d1 evs1] out]. simpl in H1. subst d1.
    destruct out.
    + pose proof (IH a _ Hn1 Hn2 Hn3) as H2.
      by destruct (readAll_loop _ _ _ _) as [[a2 d2] evs2].
    + pose proof (IH a _ Hn1 Hn2 Hn3) as H2.
      by destruct (readAll_loop _ _ _ _) as [[a2 d2] evs2].
    + pose proof (IH a _ Hn1 Hn2 Hn3) as H2.
      by destruct (readAll_loop _ _ _ _) as [[a2 d2] evs2].
    + pose proof (well_formed_readAll_catch e0 a d Hwf H0) as H2.
      by destruct (readAll_catch _ _ _) as [[a2 d2] evs2].
  - apply (well_formed_add_call (KReadAll arr w) d Hwf). done.
  - pose proof (IH a _ Hn1 Hn2 Hn3) as H2.
    by destruct (readAll_loop _ _ _ _) as [[a2 d2] evs2].
Qed.

Lemma well_formed_readAll a d :
  well_formed d → readAll_running d = 0 → readAllScheduled d ≠ None →
  well_formed (readAll a d).1.2.
Proof.
  intros Hwf H0 Hr. unfold readAll. destruct (readAllActions d) as [[arr q]|];
    [by apply well_formed_readAll_loop | by apply well_formed_readAll_end].
Qed.

Lemma well_formed_readAll_resume arr o r a d :
  well_formed d → readAll_running d = 0 → readAllScheduled d ≠ None →
  well_formed (readAll_resume arr o r a d).1.2.
Proof.
  intros Hwf H0 Hr. unfold readAll_resume.
  pose proof (steady_op_resume o r d) as (H1 & H2 & H3).
  destruct (op_resume o r d) as [[d1 evs1] out]. cbn [fst] in *.
  specialize (H1 Hwf).
  assert (Hs : well_formed (shift_actions arr d1)
               ∧ readAll_running (shift_actions arr d1) = 0
               ∧ readAllScheduled (shift_actions arr d1) ≠ None).
  { unfold shift_actions. destruct (readAllActions d1) as [[arr' q]|].
    - destruct (decide (arr' = arr)).
      + split; [by apply (steady_passive d1)|]. split; [simpl|]; [|simpl; congruence].
        unfold readAll_running in *. simpl. lia.
      + split; [done|]. split; [lia | congruence].
    - split; [done|]. split; [lia | congruence]. }
  destruct Hs as (Hs1 & Hs2 & Hs3).
  destruct out.
  - pose proof (well_formed_readAll a _ Hs1 Hs2 Hs3) as H4.
    by destruct (readAll _ _) as [[a2 d2] evs2].
  - pose proof (well_formed_readAll a _ Hs1 Hs2 Hs3) as H4.
    by destruct (readAll _ _) as [[a2 d2] evs2].
  - pose proof (well_formed_readAll a _ Hs1 Hs2 Hs3) as H4.
    by destruct (readAll _ _) as [[a2 d2] evs2].
  - assert (H5 : readAll_running d1 = 0) by lia.
    pose proof (well_formed_readAll_catch e a d1 H1 H5) as H4.
    by destruct (readAll_catch _ _ _) as [[a2 d2] evs2].
Qed.

Lemma well_formed_call_op o a d : well_formed d → well_formed (call_op o a d).1.2.
Proof.
  intros Hwf. unfold call_op.
  assert (Hn : well_formed (set_nextId (S (nextId d)) d)).
  { apply (steady_passive d); simpl; try done. lia. }
  destruct (op_begin a d o) as [e | r w | out evs1].
  - pose proof (op_throw_device o e (set_nextId (S (nextId d)) d)) as H.
    destruct (op_throw _ _ _) as [[d1 evs] out]. simpl in H. by subst d1.
  - pose proof (well_formed_add_call (KUser w) d Hwf) as H.
    destruct (add_call _ d) as [cid d1]. apply H. done.
  - done.
Qed.

Lemma well_formed_eventListener e d : well_formed d → well_formed (eventListener e d).1.1.
Proof.
  intros Hwf. unfold eventListener.
  repeat match goal with
         | |- context [decide ?P] => destruct (decide P)
         end.
  - pose proof (steady_clearTimeout (stopScheduled d) d) as (H1 & _).
    pose proof (steady_setConnectedState None (clearTimeout (stopScheduled d) d)) as (H2 & _).
    destruct (setConnectedState None _). simpl in *. eauto.
  - cbn [fst setTimeout].
    by apply (well_formed_add_timer CbStop (stop_delay e) d _ Hwf).
  - pose proof (steady_setConnectedState None d) as (H2 & _).
    destruct (setConnectedState None _). simpl in *. eauto.
  - pose proof (steady_setConnectedState (Some false) d) as (H2 & _).
    destruct (setConnectedState _ _). simpl in *. eauto.
  - pose proof (steady_setConnectedState (Some true) d) as (H2 & _).
    destruct (setConnectedState _ _). simpl in *. eauto.
  - pose proof (steady_setConnectedState (Some false) d) as (H2 & _).
    destruct (setConnectedState _ _). simpl in *. eauto.
  - destruct (data e) as [its|]; [|done].
    pose proof (steady_update its d) as (H2 & _).
    destruct (update its d). simpl in *. eauto.
  - done.
Qed.

Lemma well_formed_step i a d : well_formed d → well_formed (step i (a, d)).1.2.
Proof.
  intros Hwf. unfold step. destruct i.
  - unfold processEvent. destruct (streamEnded d); [done|].
    pose proof (well_formed_eventListener e d Hwf) as H.
    destruct (eventListener e d) as [[d1 evs] threw]. cbn [fst snd] in *.
    destruct (threw || stopEvents d1); [|done]. by apply (steady_passive d1).
  - destruct (find_timer t d) as [x|] eqn:Ef; [|done].
    pose proof (steady_clearTimeout (Some t) d) as (H1 & H2 & H3). specialize (H1 Hwf).
    unfold find_timer in Ef. apply head_Some_elem_of in Ef.
    apply list_elem_of_filter in Ef as [Ht Hx].
    unfold fire. destruct (callback x) eqn:Ecb.
    + pose proof (steady_setConnectedState (Some false) (clearTimeout (Some t) d)) as (H4 & _).
      destruct (setConnectedState _ _). simpl in *. eauto.
    + pose proof (well_formed_setConnected_elapsed isConnected _ H1) as H4.
      by destruct (setConnected_elapsed _ _).
    + assert (Hx' : is_readAll_timer x = true) by (unfold is_readAll_timer; by rewrite Ecb).
      assert (Hpos : 0 < how_many is_readAll_timer (timers d)).
      { pose proof (how_many_filter_lt is_readAll_timer (λ y, tid y ≠ t) (timers d) x Hx Hx') as H.
        assert (¬ tid x ≠ t) by (intros ?; done). specialize (H ltac:(done)). lia. }
      assert (Hr : readAllScheduled d ≠ None).
      { intros Hr. pose proof (wf_idle d Hwf Hr) as H. unfold readAll_running in H. lia. }
      apply well_formed_readAll; [done| |done].
      pose proof (wf_single d Hwf) as Hs.
      pose proof (how_many_filter_lt is_readAll_timer (λ y, tid y ≠ t) (timers d) x Hx Hx') as H.
      assert (Hn : ¬ tid x ≠ t) by (intros ?; done). specialize (H Hn).
      unfold readAll_running in *. simpl. lia.
    + destruct H1 as [G1 G2 G3 G4 G5 G6]. split; try done.
      intros y Hy Hb. exfalso.
      assert (Hxb : is_blackout x = true) by (unfold is_blackout; by rewrite Ecb).
      pose proof (wf_blackout d Hwf x Hx Hxb) as Hh.
      pose proof (G4 y Hy Hb) as Hh'. simpl in Hh'.
      simpl in Hy. apply list_elem_of_filter in Hy as [Hne _]. congruence.
  - destruct (find_call cid d) as [c|] eqn:Ef; [|done].
    destruct (well_shaped _ _); [|done].
    unfold find_call in Ef.
    destruct (head (filter (λ x, x.1 = cid) (calls d))) as [[cid' c']|] eqn:Eh; [|done].
    simpl in Ef. injection Ef as ->.
    apply head_Some_elem_of in Eh. apply list_elem_of_filter in Eh as [Hc Hin].
    simpl in Hc. subst cid'.
    assert (Hrem : steady d (remove_call cid d)).
    { unfold steady, remove_call, readAll_running. simpl.
      pose proof (how_many_filter_le is_readAll_call (λ x, x.1 ≠ cid) (calls d)) as Hle.
      split; [|split; [lia | done]].
      intros [G1 G2 G3 G4 G5 G6]. split; try done; unfold readAll_running in *; simpl.
      - lia.
      - intros Hr. specialize (G6 Hr). lia. }
    destruct Hrem as (R1 & R2 & R3). specialize (R1 Hwf).
    destruct c as [arr o | o].
    + assert (Hlt : how_many is_readAll_call (calls (remove_call cid d))
                    < how_many is_readAll_call (calls d)).
      { apply (how_many_filter_lt is_readAll_call (λ x, x.1 ≠ cid) (calls d) (cid, KReadAll arr o));
          [done | done | by intros ?]. }
      pose proof (wf_single d Hwf) as Hs.
      assert (Hr : readAllScheduled d ≠ None).
      { intros Hr. pose proof (wf_idle d Hwf Hr) as H. unfold readAll_running in H. lia. }
      apply well_formed_readAll_resume; [done| |by rewrite R3].
      unfold readAll_running in *. simpl in *. lia.
    + pose proof (steady_op_resume o r (remove_call cid d)) as (H4 & _).
      destruct (op_resume _ _ _) as [[d1 evs] out]. simpl in *. eauto.
  - by apply well_formed_call_op.
  - by apply (steady_passive d).
  - by apply (steady_passive d).
  - by apply (steady_passive d).
  - by apply (steady_passive d).
Qed.

Lemma well_formed_run ins a d : well_formed d → well_formed (run ins (a, d)).1.2.
Proof.
  revert a d. induction ins as [|i ins IH]; intros a d H; [done|].
  rewrite run_cons. pose proof (well_formed_step i a d H) as H1.
  destruct (step i (a, d)) as [[a1 d1] evs1]. simpl in H1.
  pose proof (IH a1 d1 H1) as H2.
  by destruct (run ins (a1, d1)) as [[a2 d2] evs2].
Qed.

Lemma well_formed_new_device id ty c : well_formed (new_device id ty c).
Proof.
  unfold new_device.
  set (d0 := Build_Device _ _ _ _ _ _ _ _ _ _ _ _ _ _ _ _).
  assert (H0 : well_formed d0).
  { split; try done.
    - constructor.
    - constructor.
    - intros x Hx. by apply elem_of_nil in Hx.
    - intros x Hx. by apply elem_of_nil in Hx.
    - unfold readAll_running, how_many. simpl. lia. }
  pose proof (steady_setConnectedState c d0) as (H1 & _). specialize (H1 H0).
  destruct (setConnectedState c d0) as [d1 evs]. by apply (steady_passive d1).
Qed.

(** X5.  [setConnectedState] clears the evaluation it scheduled before it
    schedules the next one, and the listener of the power setting does the
    same with the end of the blackout.  So, in every state a device reaches
    after its construction, whatever events, timer expiries, transport
    responses and calls of the accessory come in whatever order, at most one
    evaluation of the connection is pending and at most one end of the
    blackout; each is the timer whose handle the device holds, and the
    handles of the pending timers are pairwise distinct. *)
Theorem one_pending_evaluation_and_blackout
    (a : Api) (id ty : string) (c : option bool) (ins : list Input) :
  let d := (run ins (a, new_device id ty c)).1.2 in
  how_many is_evaluation (timers d) ≤ 1
  ∧ how_many is_blackout (timers d) ≤ 1
  ∧ (∀ x, x ∈ timers d → is_evaluation x = true → setConnectedScheduled d = Some (tid x))
  ∧ (∀ x, x ∈ timers d → is_blackout x = true → blackoutScheduled d = Some (tid x))
  ∧ NoDup (map tid (timers d)).
Proof.
  intros d.
  assert (Hwf : well_formed d) by apply well_formed_run, well_formed_new_device.
  destruct Hwf as [H1 H2 H3 H4 H5 H6].
  split; [|split; [|done]].
  - destruct (setConnectedScheduled d) as [t|] eqn:E.
    + apply (same_handle_once tid _ _ t); [done|].
      intros x Hx Hp. specialize (H3 x Hx Hp). congruence.
    + apply (same_handle_once tid _ _ 0); [done|].
      intros x Hx Hp. specialize (H3 x Hx Hp). congruence.
  - destruct (blackoutScheduled d) as [t|] eqn:E.
    + apply (same_handle_once tid _ _ t); [done|].
      intros x Hx Hp. specialize (H4 x Hx Hp). congruence.
    + apply (same_handle_once tid _ _ 0); [done|].
      intros x Hx Hp. specialize (H4 x Hx Hp). congruence.
Qed.

(** X6.  [readAll] never runs twice at the same time.  In every state a
    device reaches after its construction, the timers that will call
    [readAll] and the activations of [readAll] that wait for a transport
    response are at most one in all; and none exists while
    [readAllScheduled] is unset, which is when [onConnected] schedules a new
    one. *)
Theorem readAll_never_runs_twice
    (a : Api) (id ty : string) (c : option bool) (ins : list Input) :
  let d := (run ins (a, new_device id ty c)).1.2 in
  readAll_running d ≤ 1
  ∧ (readAllScheduled d = None → readAll_running d = 0).
Proof.
  intros d.
  assert (Hwf : well_formed d) by apply well_formed_run, well_formed_new_device.
  split; [apply (wf_single d Hwf) | apply (wf_idle d Hwf)].
Qed.

(** * Formatting a duration *)

(** X7.  For a whole number of seconds up to 2^53 - 1, the components
    [prettySeconds] computes by its successive subtractions are the hours,
    minutes and seconds of the duration: they add up to it, minutes and
    seconds lie between 0 and 59, and the hours are the whole hours of the
    duration. *)
Theorem prettySeconds_components (seconds : Z) :
  safe_duration seconds →
  let '(h, m, s) := split_duration seconds in
  (seconds = h * 3600 + m * 60 + s
   ∧ 0 ≤ m < 60 ∧ 0 ≤ s < 60
   ∧ h = seconds / 3600 ∧ 0 ≤ h)%Z.
Proof.
  intros [Hs _]. unfold split_duration.
  pose proof (Z.div_mod seconds 60 ltac:(lia)) as H1.
  pose proof (Z.mod_pos_bound seconds 60 ltac:(lia)) as H2.
  pose proof (Z.div_mod (seconds / 60) 60 ltac:(lia)) as H3.
  pose proof (Z.mod_pos_bound (seconds / 60) 60 ltac:(lia)) as H4.
  assert (H5 : (seconds / 60 / 60 = seconds / 3600)%Z).
  { rewrite Z.div_div by lia. done. }
  assert (H6 : (0 ≤ seconds / 3600)%Z) by (apply Z.div_pos; lia).
  repeat split; lia.
Qed.

Lemma prettySeconds_components_witness :
  safe_duration 7384 ∧ split_duration 7384 = (2, 3, 4)%Z
  ∧ (7384 = 2 * 3600 + 3 * 60 + 4)%Z.
Proof.
  assert (Hs : safe_duration 7384) by (unfold safe_duration, MAX_SAFE_INTEGER; lia).
  pose proof (prettySeconds_components 7384 Hs) as H.
  split; [exact Hs|]. split; [reflexivity|]. exact (proj1 H).
Defined.

Lemma split_duration_hours (seconds : Z) :
  (split_duration seconds).1.1 = (seconds / 3600)%Z.
Proof. unfold split_duration. simpl. rewrite Z.div_div by lia. done. Qed.

Lemma split_duration_same_minute (s1 s2 : Z) :
  (s1 / 60 = s2 / 60)%Z →
  (split_duration s1).1 = (split_duration s2).1.
Proof. unfold split_duration. simpl. by intros ->. Qed.

(** X8.  [prettySeconds] shows the two largest units only.  From one hour
    on the seconds are left out: two durations of at least an hour (whole
    numbers of seconds up to 2^53 - 1) that lie in the same minute give the
    same text. *)
Theorem prettySeconds_drops_seconds_after_an_hour (s1 s2 : Z) :
  safe_duration s1 → safe_duration s2 →
  (3600 ≤ s1)%Z → (s1 / 60 = s2 / 60)%Z → prettySeconds s1 = prettySeconds s2.
Proof.
  intros _ _ H1 H2.
  pose proof (split_duration_same_minute s1 s2 H2) as Hs.
  pose proof (split_duration_hours s1) as Hh.
  unfold prettySeconds.
  destruct (split_duration s1) as [[h1 m1] x1], (split_duration s2) as [[h2 m2] x2].
  simpl in Hs, Hh. injection Hs as -> ->.
  assert (Hpos : (1 ≤ h2)%Z).
  { rewrite Hh. apply Z.div_le_lower_bound; lia. }
  destruct (h2 =? 0)%Z eqn:E; [apply Z.eqb_eq in E; lia | done].
Qed.

Lemma prettySeconds_drops_seconds_after_an_hour_witness :
  safe_duration 3661 ∧ safe_duration 3719
  ∧ (3600 ≤ 3661)%Z ∧ (3661 / 60 = 3719 / 60)%Z
  ∧ prettySeconds 3661 = prettySeconds 3719
  ∧ prettySeconds 3719 = "1 hour 1 minute".
Proof.
  assert (H1 : safe_duration 3661) by (unfold safe_duration, MAX_SAFE_INTEGER; lia).
  assert (H2 : safe_duration 3719) by (unfold safe_duration, MAX_SAFE_INTEGER; lia).
  split; [exact H1|]. split; [exact H2|]. split; [lia|]. split; [reflexivity|].
  split; [apply prettySeconds_drops_seconds_after_an_hour; [done | done | lia | reflexivity]|].
  vm_compute. reflexivity.
Defined.

(** * The platform *)

Lemma filter_ext_in {A} (P Q : A → Prop) `{∀ x, Decision (P x)} `{∀ x, Decision (Q x)}
    (l : list A) :
  (∀ x, x ∈ l → (P x ↔ Q x)) → filter P l = filter Q l.
Proof.
  induction l as [|x l IH]; intros Hl; [done|].
  assert (IH' : filter P l = filter Q l).
  { apply IH. intros y Hy. apply Hl. apply elem_of_cons. by right. }
  assert (Hx : P x ↔ Q x) by (apply Hl; apply elem_of_cons; by left).
  destruct (decide (P x)) as [HP|HP].
  - rewrite (filter_cons_True P) by done. rewrite (filter_cons_True Q) by (by apply Hx).
    by rewrite IH'.
  - rewrite (filter_cons_False P) by done. rewrite (filter_cons_False Q) by (by rewrite <- Hx).
    done.
Qed.

Lemma filter_none {A} (P : A → Prop) `{∀ x, Decision (P x)} (l : list A) :
  (∀ x, x ∈ l → ¬ P x) → filter P l = [].
Proof.
  induction l as [|x l IH]; intros Hl; [done|].
  rewrite filter_cons_False by (apply Hl; apply elem_of_cons; by left).
  apply IH. intros y Hy. apply Hl. apply elem_of_cons. by right.
Qed.

Module PlatformFacts.
Import Platform.

Lemma get_accessory_Some uuid (accs : list (string * Accessory)) acc :
  get_accessory uuid accs = Some acc → (uuid, acc) ∈ accs.
Proof.
  unfold get_accessory. intros H.
  destruct (head (filter (λ x, x.1 = uuid) accs)) as [[u a]|] eqn:E; [|done].
  simpl in H. injection H as ->. apply head_Some_elem_of in E.
  apply list_elem_of_filter in E as [Hu Hin]. simpl in Hu. by subst u.
Qed.

Lemma get_accessory_None uuid (accs : list (string * Accessory)) :
  get_accessory uuid accs = None ↔ uuid ∉ keys accs.
Proof.
  unfold get_accessory, keys. induction accs as [|[u a] accs IH].
  - split; [intros _ H; by apply elem_of_nil in H | done].
  - cbn [map fst]. destruct (decide (u = uuid)) as [->|Hne].
    + rewrite filter_cons_True by done. split; [done|].
      intros H. exfalso. apply H. apply elem_of_cons. by left.
    + rewrite filter_cons_False by done. rewrite IH. split.
      * intros H Hin. apply elem_of_cons in Hin as [Heq | Hin]; [congruence | done].
      * intros H Hin. apply H. apply elem_of_cons. by right.
Qed.

Lemma get_accessory_in uuid (accs : list (string * Accessory)) :
  uuid ∈ keys accs ↔ is_Some (get_accessory uuid accs).
Proof.
  destruct (get_accessory uuid accs) as [acc|] eqn:E.
  - split; [by eauto|]. intros _. apply get_accessory_Some in E.
    unfold keys. apply list_elem_of_fmap. by exists (uuid, acc).
  - apply get_accessory_None in E. split; [done|]. intros [x Hx]. done.
Qed.

Lemma get_accessory_app_None uuid (l1 l2 : list (string * Accessory)) :
  get_accessory uuid l1 = None → get_accessory uuid (l1 ++ l2) = get_accessory uuid l2.
Proof.
  unfold get_accessory. rewrite filter_app. intros H.
  destruct (filter (λ x, x.1 = uuid) l1) as [|x l]; [done|]. done.
Qed.

Lemma get_accessory_app_Some uuid (l1 l2 : list (string * Accessory)) acc :
  get_accessory uuid l1 = Some acc → get_accessory uuid (l1 ++ l2) = Some acc.
Proof.
  unfold get_accessory. rewrite filter_app. intros H.
  destruct (filter (λ x, x.1 = uuid) l1) as [|x l]; [done|]. done.
Qed.

Lemma get_set_accessory_eq uuid acc (accs : list (string * Accessory)) :
  get_accessory uuid (set_accessory uuid acc accs) = Some acc.
Proof.
  unfold set_accessory. destruct (get_accessory uuid accs) as [a|] eqn:E.
  - unfold get_accessory in *. induction accs as [|[u b] accs IH]; [done|]. cbn [map].
    destruct (decide (u = uuid)) as [->|Hne].
    + rewrite decide_True by done. by rewrite filter_cons_True.
    + rewrite decide_False by done.
      rewrite filter_cons_False in E by done. rewrite filter_cons_False by done. by apply IH.
  - rewrite get_accessory_app_None by done.
    unfold get_accessory. by rewrite filter_cons_True.
Qed.

Lemma get_set_accessory_ne uuid uuid' acc (accs : list (string * Accessory)) :
  uuid ≠ uuid' → get_accessory uuid' (set_accessory uuid acc accs) = get_accessory uuid' accs.
Proof.
  intros Hne. unfold set_accessory. destruct (get_accessory uuid accs) as [a|] eqn:E.
  - clear E. unfold get_accessory. f_equal. f_equal.
    induction accs as [|[u b] accs IH]; [done|]. cbn [map].
    destruct (decide (u = uuid)) as [->|Hu].
    + rewrite decide_True by done. rewrite !filter_cons_False by done. apply IH.
    + rewrite decide_False by done. destruct (decide (u = uuid')) as [->|Hu'].
      * rewrite !filter_cons_True by done. by rewrite IH.
      * rewrite !filter_cons_False by done. apply IH.
  - destruct (get_accessory uuid' accs) as [b|] eqn:E'.
    + by apply get_accessory_app_Some.
    + rewrite get_accessory_app_None by done.
      unfold get_accessory. by rewrite filter_cons_False.
Qed.

Lemma keys_set_accessory uuid acc (accs : list (string * Accessory)) :
  keys (set_accessory uuid acc accs)
  = if bool_decide (uuid ∈ keys accs) then keys accs else keys accs ++ [uuid].
Proof.
  unfold set_accessory. destruct (get_accessory uuid accs) as [a|] eqn:E.
  - rewrite bool_decide_eq_true_2 by (apply get_accessory_in; eauto).
    unfold keys. clear E. induction accs as [|[u b] accs IH]; [done|]. cbn [map fst].
    rewrite IH. case_decide; simpl in *; congruence.
  - apply get_accessory_None in E. rewrite bool_decide_eq_false_2 by done.
    unfold keys. by rewrite map_app.
Qed.

Lemma get_delete_accessory_ne uuid uuid' (accs : list (string * Accessory)) :
  uuid ≠ uuid' → get_accessory uuid' (delete_accessory uuid accs) = get_accessory uuid' accs.
Proof.
  intros Hne. unfold get_accessory, delete_accessory. f_equal. f_equal.
  induction accs as [|[u b] accs IH]; [done|].
  destruct (decide (u = uuid)) as [->|Hu].
  - rewrite (filter_cons_False (λ x, x.1 ≠ uuid)) by (simpl; intros H; by apply H).
    rewrite (filter_cons_False (λ x, x.1 = uuid')) by done. apply IH.
  - rewrite (filter_cons_True (λ x, x.1 ≠ uuid)) by done.
    destruct (decide (u = uuid')) as [->|Hu'].
    + rewrite !(filter_cons_True (λ x, x.1 = uuid')) by done. by rewrite IH.
    + rewrite !(filter_cons_False (λ x, x.1 = uuid')) by done. apply IH.
Qed.

Lemma get_delete_accessory_eq uuid (accs : list (string * Accessory)) :
  get_accessory uuid (delete_accessory uuid accs) = None.
Proof.
  apply get_accessory_None. unfold keys, delete_accessory. intros H.
  apply list_elem_of_fmap in H as ([u a] & Hu & Hin). simpl in Hu. subst u.
  apply list_elem_of_filter in Hin as [Hne _]. by apply Hne.
Qed.

Ltac keys_contradiction :=
  repeat match goal with
         | H : _ ∉ _ :: _ |- _ => apply not_elem_of_cons in H as [? ?]
         | H : _ ∈ _ :: _ |- _ => apply elem_of_cons in H as [H | H]; [subst|]
         end;
  done.

Section WithEnvironment.
Variable generate : string → string.
Variable constructs : Ha → bool.

(** The first loop deletes nothing and tells Homebridge nothing. *)
Lemma add_accessories_keeps appliances accs new :
  let r := add_accessories generate constructs appliances accs new in
  Forall (λ e, changes_registration e = false) r.2
  ∧ (∀ uuid, is_Some (get_accessory uuid accs) → is_Some (get_accessory uuid r.1.1))
  ∧ (∀ uuid acc id, get_accessory uuid accs = Some acc → appliance acc = Some id →
       get_accessory uuid r.1.1 = Some acc).
Proof.
  revert accs new. induction appliances as [|ha rest IH]; intros accs new; simpl.
  { split; [constructor|]. split; [done|]. by intros uuid acc id H _. }
  destruct (has_constructor (type ha)); simpl; [|by repeat constructor].
  assert (Hstep : ∀ acc' name_ev new',
    (∀ acc id, get_accessory (generate (haId ha)) accs = Some acc → appliance acc = Some id → False) →
    changes_registration name_ev = false →
    let r := add_accessories generate constructs rest (set_accessory (generate (haId ha)) acc' accs) new' in
    Forall (λ e, changes_registration e = false)
      (name_ev :: (EvNewDevice (haId ha) :: (if constructs ha then [] else [EvFailed (haId ha)]))
         ++ r.2)
    ∧ (∀ uuid, is_Some (get_accessory uuid accs) → is_Some (get_accessory uuid r.1.1))
    ∧ (∀ uuid acc id, get_accessory uuid accs = Some acc → appliance acc = Some id →
         get_accessory uuid r.1.1 = Some acc)).
  { intros acc' name_ev new' Hfree Hev.
    destruct (IH (set_accessory (generate (haId ha)) acc' accs) new') as (H1 & H2 & H3).
    cbv zeta. split; [|split].
    - constructor; [done|]. constructor; [done|]. apply Forall_app. split; [|done].
      destruct (constructs ha); repeat constructor.
    - intros uuid Hu. apply H2.
      destruct (decide (generate (haId ha) = uuid)) as [<-|Hne].
      + rewrite get_set_accessory_eq. eauto.
      + by rewrite get_set_accessory_ne.
    - intros uuid acc id Hu Ha. apply (H3 uuid acc id); [|done].
      destruct (decide (generate (haId ha) = uuid)) as [<-|Hne].
      + exfalso. by apply (Hfree acc id).
      + by rewrite get_set_accessory_ne. }
  destruct (get_accessory (generate (haId ha)) accs) as [acc|] eqn:Eg.
  - destruct (appliance acc) as [id|] eqn:Ea.
    + simpl. split; [constructor|]. split; [done|]. by intros uuid acc0 id0 H _.
    + match goal with
      | |- context [add_accessories generate constructs rest (set_accessory ?u ?a accs) ?n] =>
          pose proof (Hstep a (EvConnecting (name ha)) n) as H
      end.
      destruct (add_accessories generate constructs rest _ new) as [[accs1 r] evs]. apply H; [|done].
      intros acc0 id0 H0 H1. congruence.
  - match goal with
    | |- context [add_accessories generate constructs rest (set_accessory ?u ?a accs) ?n] =>
        pose proof (Hstep a (EvAdding (name ha)) n) as H
    end.
    destruct (add_accessories generate constructs rest _ _) as [[accs1 r] evs]. apply H; [|done].
    intros acc0 id0 H0 H1. congruence.
Qed.

(** A [return] inside the first loop: an appliance of a type without a class,
    or one whose accessory has its appliance object already. *)
Lemma add_accessories_returns appliances accs new ha :
  ha ∈ appliances →
  has_constructor (type ha) = false ∨ connected_already generate accs ha →
  (add_accessories generate constructs appliances accs new).1.2 = None.
Proof.
  revert accs new. induction appliances as [|x rest IH]; intros accs new Hin Hha.
  { by apply elem_of_nil in Hin. }
  simpl. destruct (has_constructor (type x)) eqn:Ec; simpl; [|done].
  apply elem_of_cons in Hin as [-> | Hin].
  { destruct Hha as [Hha | (acc & id & Hg & Ha)]; [congruence|].
    rewrite Hg, Ha. done. }
  assert (Hrest : ∀ acc' new',
    (∀ acc id, get_accessory (generate (haId x)) accs = Some acc → appliance acc = Some id → False) →
    (add_accessories generate constructs rest (set_accessory (generate (haId x)) acc' accs) new').1.2 = None).
  { intros acc' new' Hfree. apply IH; [done|].
    destruct Hha as [Hha | (acc & id & Hg & Ha)]; [by left|]. right.
    exists acc, id. split; [|done].
    destruct (decide (generate (haId x) = generate (haId ha))) as [Heq|Hne].
    - exfalso. rewrite <- Heq in Hg. by apply (Hfree acc id).
    - by rewrite get_set_accessory_ne. }
  destruct (get_accessory (generate (haId x)) accs) as [acc|] eqn:Eg.
  - destruct (appliance acc) as [id|] eqn:Ea; [done|].
    match goal with
    | |- context [add_accessories generate constructs rest (set_accessory ?u ?a accs) ?n] =>
        pose proof (Hrest a n) as H
    end.
    destruct (add_accessories generate constructs rest _ new) as [[accs1 r] evs]. apply H.
    intros acc0 id0 H0 H1. congruence.
  - match goal with
    | |- context [add_accessories generate constructs rest (set_accessory ?u ?a accs) ?n] =>
        pose proof (Hrest a n) as H
    end.
    destruct (add_accessories generate constructs rest _ _) as [[accs1 r] evs]. apply H.
    intros acc0 id0 H0 H1. congruence.
Qed.

(** X9.  A [return] inside the loop over the appliances leaves the whole
    method.  So when any appliance of the list is of a type without a class,
    or has an accessory with its appliance object already, as every
    appliance has after a pass that set it up, the method ends inside the
    loop: Homebridge is told neither to register an accessory created
    earlier in that loop nor to unregister any, no appliance is told to stop,
    and the accessories that existed before, also those without a matching
    appliance, all remain, the ones that had an appliance object
    unchanged. *)
Theorem early_return_skips_registration_and_removal
    (appliances : list Ha) (accs : list (string * Accessory)) (ha : Ha) :
  ha ∈ appliances →
  has_constructor (type ha) = false ∨ connected_already generate accs ha →
  let r := addRemoveAccessories generate constructs appliances accs in
  Forall (λ e, changes_registration e = false) r.2
  ∧ (∀ uuid, is_Some (get_accessory uuid accs) → is_Some (get_accessory uuid r.1))
  ∧ (∀ uuid acc id, get_accessory uuid accs = Some acc → appliance acc = Some id →
       get_accessory uuid r.1 = Some acc).
Proof.
  intros Hin Hha. unfold addRemoveAccessories.
  pose proof (add_accessories_returns appliances accs [] ha Hin Hha) as Hr.
  pose proof (add_accessories_keeps appliances accs []) as Hk.
  destruct (add_accessories generate constructs appliances accs []) as [[accs1 r] evs1].
  simpl in Hr. subst r. exact Hk.
Qed.


Lemma add_accessories_step ha rest accs new :
  has_constructor (type ha) = true →
  (∀ acc id, get_accessory (uuid_of generate ha) accs = Some acc → appliance acc = Some id → False) →
  ∃ acc' name_ev new',
    add_accessories generate constructs (ha :: rest) accs new
    = ((add_accessories generate constructs rest (set_accessory (uuid_of generate ha) acc' accs) new').1,
       name_ev :: (EvNewDevice (haId ha) :: (if constructs ha then [] else [EvFailed (haId ha)]))
         ++ (add_accessories generate constructs rest
               (set_accessory (uuid_of generate ha) acc' accs) new').2)
    ∧ appliance acc' = (if constructs ha then Some (haId ha) else None)
    ∧ changes_registration name_ev = false
    ∧ new' = new ++ (if bool_decide (uuid_of generate ha ∈ keys accs) then [] else [uuid_of generate ha]).
Proof.
  intros Hc Hfree. unfold uuid_of in *. simpl. rewrite Hc. simpl.
  destruct (get_accessory (generate (haId ha)) accs) as [acc|] eqn:Eg.
  - destruct (appliance acc) as [id|] eqn:Ea; [exfalso; by apply (Hfree acc id)|].
    exists {| displayName := displayName acc; UUID := UUID acc;
              appliance := if constructs ha then Some (haId ha) else None |},
           (EvConnecting (name ha)), new.
    split; [by destruct (add_accessories _ _ rest _ new) as [[accs1 r] evs]|].
    split; [done|]. split; [done|].
    rewrite bool_decide_eq_true_2; [by rewrite app_nil_r|].
    apply get_accessory_in. rewrite Eg. eauto.
  - exists {| displayName := name ha; UUID := generate (haId ha);
              appliance := if constructs ha then Some (haId ha) else None |},
           (EvAdding (name ha)), (new ++ [generate (haId ha)]).
    split; [by destruct (add_accessories _ _ rest _ _) as [[accs1 r] evs]|].
    split; [done|]. split; [done|].
    rewrite bool_decide_eq_false_2; [done|]. by apply get_accessory_None.
Qed.

(** The first loop when it is not left by a [return]. *)
Lemma add_accessories_completes appliances accs new :
  (∀ ha, ha ∈ appliances → has_constructor (type ha) = true ∧ ¬ connected_already generate accs ha) →
  NoDup (map (uuid_of generate) appliances) →
  let r := add_accessories generate constructs appliances accs new in
  r.1.2 = Some (new ++ filter (λ u, u ∉ keys accs) (map (uuid_of generate) appliances))
  ∧ (∀ ha, ha ∈ appliances → constructs ha = true →
       ∃ acc, get_accessory (uuid_of generate ha) r.1.1 = Some acc ∧ appliance acc = Some (haId ha))
  ∧ (∀ uuid, uuid ∈ keys r.1.1 ↔ uuid ∈ keys accs ∨ uuid ∈ map (uuid_of generate) appliances)
  ∧ (∀ uuid, uuid ∉ map (uuid_of generate) appliances →
       get_accessory uuid r.1.1 = get_accessory uuid accs)
  ∧ keys r.1.1 = keys accs ++ filter (λ u, u ∉ keys accs) (map (uuid_of generate) appliances).
Proof.
  revert accs new. induction appliances as [|ha rest IH]; intros accs new Hall Hnd.
  { simpl. rewrite !app_nil_r. repeat split; try done.
    - intros ha Hin. by apply elem_of_nil in Hin.
    - intros H. by left.
    - intros [H|H]; [done | by apply elem_of_nil in H]. }
  cbn [map] in Hnd. apply NoDup_cons in Hnd as [Hnew Hnd].
  destruct (Hall ha) as [Hc Hfree]; [apply elem_of_cons; by left|].
  destruct (add_accessories_step ha rest accs new Hc) as (acc' & name_ev & new' & Heq & Happ & _ & Hnew').
  { intros acc id H1 H2. apply Hfree. by exists acc, id. }
  cbv zeta. rewrite Heq. cbn [fst snd].
  set (accs0 := set_accessory (uuid_of generate ha) acc' accs) in *.
  assert (Hget : ∀ uuid, uuid ≠ uuid_of generate ha → get_accessory uuid accs0 = get_accessory uuid accs).
  { intros uuid Hne. unfold accs0. by rewrite get_set_accessory_ne. }
  assert (Hkeys : ∀ uuid, uuid ∈ keys accs0 ↔ uuid ∈ keys accs ∨ uuid = uuid_of generate ha).
  { intros uuid. unfold accs0. rewrite keys_set_accessory.
    case_bool_decide as Hk.
    - split; [by left|]. intros [H | ->]; done.
    - rewrite elem_of_app, list_elem_of_singleton. done. }
  assert (Hall' : ∀ x, x ∈ rest →
            has_constructor (type x) = true ∧ ¬ connected_already generate accs0 x).
  { intros x Hx. destruct (Hall x) as [H1 H2]; [apply elem_of_cons; by right|].
    split; [done|]. intros (acc & id & Hg & Ha). apply H2. exists acc, id. split; [|done].
    rewrite <- Hg. symmetry. apply Hget. intros Heq'. apply Hnew.
    apply list_elem_of_fmap. exists x. by split. }
  destruct (IH accs0 new' Hall' Hnd) as (H1 & H2 & H3 & H4 & H5).
  assert (Hfilter : filter (λ u, u ∉ keys accs0) (map (uuid_of generate) rest)
                    = filter (λ u, u ∉ keys accs) (map (uuid_of generate) rest)).
  { apply filter_ext_in. intros u Hu.
    rewrite Hkeys. split.
    - intros H Hk. apply H. by left.
    - intros H [Hk | ->]; done. }
  split; [|split; [|split; [|split]]].
  - rewrite H1, Hnew', Hfilter. f_equal. rewrite <- app_assoc. f_equal.
    cbn [map]. case_bool_decide as Hk.
    + rewrite filter_cons_False by (intros H; by apply H). done.
    + by rewrite filter_cons_True.
  - intros x Hx Hcx. apply elem_of_cons in Hx as [-> | Hx]; [|by apply H2].
    exists acc'. split; [|by rewrite Happ, Hcx].
    rewrite H4 by done. apply get_set_accessory_eq.
  - intros uuid. rewrite H3, Hkeys. cbn [map]. rewrite elem_of_cons. tauto.
  - intros uuid Hu. cbn [map] in Hu. rewrite not_elem_of_cons in Hu. destruct Hu as [Hu1 Hu2].
    rewrite H4 by done. by apply Hget.
  - rewrite H5, Hfilter. unfold accs0. rewrite keys_set_accessory. cbn [map].
    case_bool_decide as Hk.
    + rewrite filter_cons_False by (intros H; by apply H). done.
    + rewrite filter_cons_True by done. by rewrite <- app_assoc.
Qed.

Lemma set_accessory_other uuid acc (accs : list (string * Accessory)) u a :
  (u, a) ∈ accs → u ≠ uuid → (u, a) ∈ set_accessory uuid acc accs.
Proof.
  intros Hin Hne. unfold set_accessory. destruct (get_accessory uuid accs).
  - apply list_elem_of_fmap. exists (u, a). split; [|done]. by rewrite decide_False.
  - apply elem_of_app. by left.
Qed.

(** The first loop leaves alone the accessories that match no appliance. *)
Lemma add_accessories_unlisted appliances accs new u a :
  (u, a) ∈ accs → u ∉ map (uuid_of generate) appliances →
  (u, a) ∈ (add_accessories generate constructs appliances accs new).1.1.
Proof.
  revert accs new. induction appliances as [|ha rest IH]; intros accs new Hin Hu; [done|].
  cbn [map] in Hu. apply not_elem_of_cons in Hu as [Hne Hu].
  simpl. destruct (has_constructor (type ha)); simpl; [|done].
  destruct (get_accessory (generate (haId ha)) accs) as [acc|].
  - destruct (appliance acc); [done|].
    match goal with
    | |- context [add_accessories _ _ rest (set_accessory ?k ?x accs) ?n] =>
        pose proof (IH (set_accessory k x accs) n) as H
    end.
    destruct (add_accessories _ _ rest _ new) as [[accs1 r] evs]. apply H; [|done].
    by apply set_accessory_other.
  - match goal with
    | |- context [add_accessories _ _ rest (set_accessory ?k ?x accs) ?n] =>
        pose proof (IH (set_accessory k x accs) n) as H
    end.
    destruct (add_accessories _ _ rest _ _) as [[accs1 r] evs]. apply H; [|done].
    by apply set_accessory_other.
Qed.

(** The second loop: what remains, what is handed to Homebridge, and whose
    appliance is told to stop. *)
Lemma remove_accessories_spec listed (ks accs : list (string * Accessory)) :
  let r := remove_accessories listed ks accs in
  (∀ uuid, get_accessory uuid r.1.1
           = if bool_decide (uuid ∈ listed) then get_accessory uuid accs
             else if bool_decide (uuid ∈ keys ks) then None
             else get_accessory uuid accs)
  ∧ r.1.2 = filter (λ u, u ∉ listed) (keys ks)
  ∧ (∀ uuid acc id, (uuid, acc) ∈ ks → uuid ∉ listed → appliance acc = Some id →
       EvUnregisterAppliance id ∈ r.2)
  ∧ Forall (λ e, match e with EvRegister _ | EvUnregister _ => False | _ => True end) r.2.
Proof.
  revert accs. induction ks as [|[u a] ks IH]; intros accs.
  { simpl. split; [|split; [done|split; [|done]]].
    - intros uuid. by repeat case_bool_decide.
    - intros uuid acc id H. by apply elem_of_nil in H. }
  cbn [remove_accessories]. unfold keys. cbn [map fst]. fold (keys ks).
  case_bool_decide as Hu.
  - destruct (IH accs) as (H1 & H2 & H3 & H4). cbv zeta.
    split; [|split; [|split; [|done]]].
    + intros uuid. rewrite H1.
      repeat case_bool_decide; try done; exfalso; keys_contradiction.
    + rewrite H2. rewrite filter_cons_False; [done|]. intros H. by apply H.
    + intros uuid acc id Hin Hn Ha. apply elem_of_cons in Hin as [Heq | Hin]; [|by eapply H3].
      injection Heq as -> ->. done.
  - destruct (IH (delete_accessory u accs)) as (H1 & H2 & H3 & H4).
    destruct (remove_accessories listed ks (delete_accessory u accs)) as [[accs1 old] evs].
    cbn [fst snd] in *. split; [|split; [|split]].
    + intros uuid. rewrite H1.
      destruct (decide (u = uuid)) as [->|Hne].
      * rewrite get_delete_accessory_eq.
        repeat case_bool_decide; try done; exfalso; keys_contradiction.
      * rewrite get_delete_accessory_ne by done.
        repeat case_bool_decide; try done; exfalso; keys_contradiction.
    + rewrite H2. by rewrite filter_cons_True.
    + intros uuid acc id Hin Hn Ha. apply elem_of_cons in Hin as [Heq | Hin].
      * injection Heq as -> ->. rewrite Ha. apply elem_of_cons. right.
        apply elem_of_cons. by left.
      * apply elem_of_cons. right. apply elem_of_app. right. by eapply H3.
    + constructor; [done|]. apply Forall_app. split; [|done]. by destruct (appliance a); repeat constructor.
Qed.

(** X10.  A pass over the appliances that no [return] cuts short: every
    appliance is of a type with a class whose constructor returns, none has
    an accessory with an appliance object yet, and their UUIDs are distinct.
    Afterwards the accessories are exactly those of the listed appliances,
    each with the appliance object of its appliance; Homebridge is told to
    register the accessories created for the UUIDs it did not have, in the
    order of the list, and to unregister the accessories without a listed
    appliance, in the order of the keys; and the appliance object of every
    accessory that is removed is told to stop. *)
Theorem complete_pass_matches_the_appliances
    (appliances : list Ha) (accs : list (string * Accessory)) :
  (∀ ha, ha ∈ appliances →
     has_constructor (type ha) = true ∧ constructs ha = true
     ∧ ¬ connected_already generate accs ha) →
  NoDup (map (uuid_of generate) appliances) →
  let listed := map (uuid_of generate) appliances in
  let r := addRemoveAccessories generate constructs appliances accs in
  (∀ uuid, is_Some (get_accessory uuid r.1) ↔ uuid ∈ listed)
  ∧ (∀ ha, ha ∈ appliances →
       ∃ acc, get_accessory (uuid_of generate ha) r.1 = Some acc ∧ appliance acc = Some (haId ha))
  ∧ EvRegister (filter (λ u, u ∉ keys accs) listed) ∈ r.2
  ∧ EvUnregister (filter (λ u, u ∉ listed) (keys accs)) ∈ r.2
  ∧ (∀ uuid acc id, (uuid, acc) ∈ accs → uuid ∉ listed → appliance acc = Some id →
       EvUnregisterAppliance id ∈ r.2).
Proof.
  intros Hall Hnd listed r. subst r. unfold addRemoveAccessories.
  change (map (λ ha, generate (haId ha)) appliances) with listed.
  destruct (add_accessories_completes appliances accs []) as (H1 & H2 & H3 & H4 & H5).
  { intros ha Hin. destruct (Hall ha Hin) as (? & ? & ?). done. }
  { done. }
  pose proof (add_accessories_unlisted appliances accs []) as H6.
  destruct (add_accessories generate constructs appliances accs []) as [[accs1 r] evs1].
  cbn [fst snd] in *. subst r. fold listed in H2, H3, H4, H5, H6.
  pose proof (remove_accessories_spec listed accs1 accs1) as (R1 & R2 & R3 & R4).
  destruct (remove_accessories listed accs1 accs1) as [[accs2 old] evs2].
  cbn [fst snd] in *.
  assert (Hold : old = filter (λ u, u ∉ listed) (keys accs)).
  { rewrite R2, H5, filter_app.
    assert (filter (λ u, u ∉ listed) (filter (λ u, u ∉ keys accs) listed) = []) as ->.
    { apply filter_none. intros u Hu.
      apply list_elem_of_filter in Hu as [_ Hu]. intros H. by apply H. }
    by rewrite app_nil_r. }
  split; [|split; [|split; [|split]]].
  - intros uuid. rewrite R1. case_bool_decide as Hl.
    + split; [done|]. intros _. apply get_accessory_in, H3. by right.
    + split; [|done]. case_bool_decide as Hk; [by intros [x Hx]|].
      intros Hs. exfalso. apply Hk. by apply get_accessory_in.
  - intros ha Hin. destruct (Hall ha Hin) as (_ & Hc & _).
    destruct (H2 ha Hin Hc) as (acc & Hg & Ha). exists acc. split; [|done].
    rewrite R1. rewrite bool_decide_eq_true_2; [done|].
    apply list_elem_of_fmap. by exists ha.
  - apply elem_of_app. right. apply elem_of_cons. by left.
  - rewrite <- Hold. apply elem_of_app. right. apply elem_of_cons. right.
    apply elem_of_app. right. by apply list_elem_of_singleton.
  - intros uuid acc id Hin Hn Ha.
    apply elem_of_app. right. apply elem_of_cons. right. apply elem_of_app. left.
    apply (R3 uuid acc id); [|done|done]. by apply H6.
Qed.





End WithEnvironment.

Lemma early_return_skips_registration_and_removal_witness :
  toaster_ha ∈ [oven_ha; toaster_ha]
  ∧ (has_constructor (type toaster_ha) = false
     ∨ connected_already example_generate restored toaster_ha)
  ∧ Forall (λ e, changes_registration e = false)
      (addRemoveAccessories example_generate (λ _, true) [oven_ha; toaster_ha] restored).2
  ∧ keys (addRemoveAccessories example_generate (λ _, true) [oven_ha; toaster_ha] restored).1
    = ["uuid:old"; "uuid:oven-1"].
Proof.
  assert (H1 : toaster_ha ∈ [oven_ha; toaster_ha]).
  { apply elem_of_cons. right. apply elem_of_cons. by left. }
  assert (H2 : has_constructor (type toaster_ha) = false
               ∨ connected_already example_generate restored toaster_ha) by (by left).
  split; [exact H1|]. split; [exact H2|]. split.
  - exact (proj1 (early_return_skips_registration_and_removal example_generate (λ _, true)
                    [oven_ha; toaster_ha] restored toaster_ha H1 H2)).
  - vm_compute. reflexivity.
Defined.

Lemma complete_pass_matches_the_appliances_witness :
  NoDup (map (uuid_of example_generate) [oven_ha; fridge_ha])
  ∧ (addRemoveAccessories example_generate (λ _, true) [oven_ha; fridge_ha] restored).2
    = [EvAdding "Oven"; EvNewDevice "oven-1"; EvAdding "Fridge"; EvNewDevice "fridge-1";
       EvRegister ["uuid:oven-1"; "uuid:fridge-1"];
       EvRemoving "Old"; EvUnregister ["uuid:old"]]
  ∧ (∀ uuid,
       is_Some (get_accessory uuid
                  (addRemoveAccessories example_generate (λ _, true)
                     [oven_ha; fridge_ha] restored).1)
       ↔ uuid ∈ map (uuid_of example_generate) [oven_ha; fridge_ha]).
Proof.
  assert (Hnd : NoDup (map (uuid_of example_generate) [oven_ha; fridge_ha])).
  { apply NoDup_cons. split; [|apply NoDup_singleton].
    intros H. apply list_elem_of_singleton in H. discriminate H. }
  split; [exact Hnd|]. split; [vm_compute; reflexivity|].
  apply (complete_pass_matches_the_appliances example_generate (λ _, true)
           [oven_ha; fridge_ha] restored); [|exact Hnd].
  intros ha Hin. split; [|split; [done|]].
  - apply elem_of_cons in Hin as [-> | Hin]; [done|].
    apply list_elem_of_singleton in Hin. by subst ha.
  - intros (acc & id & Hg & Ha).
    apply elem_of_cons in Hin as [-> | Hin];
      [|apply list_elem_of_singleton in Hin; subst ha]; discriminate Hg.
Defined.

End PlatformFacts.

(** * The persistent cache *)

Module PersistCacheFacts.
Import PersistCache.

Section WithValues.
Context {V : Type}.
Variable PLUGIN_VERSION : string.

Lemma save_fields (s : State V) :
  cache (save s) = cache s ∧ initialised (save s) = initialised s
  ∧ this_preferred (save s) = this_preferred s ∧ waiting (save s) = waiting s
  ∧ pendingSave (save s) ≠ None.
Proof. unfold save. by destruct (pendingSave s) eqn:E; simpl; rewrite ?E. Qed.

(** X12.  What [set] writes, [get] and [getWithExpiry] read back, once the
    cache has been loaded: the entry of the key holds the value, the entries
    of the other keys are as before, and the entry counts as valid as long
    as it is not older than 24 hours (an entry of exactly that age is still
    valid, and so is one whose time stamp lies in the future); an entry
    that has expired is handed out all the same, marked as not valid. *)
Theorem set_then_get (s : State V) (key : string) (v : V) (now : Z) :
  initialised s = true →
  let s' := (call PLUGIN_VERSION (CallSet key v now) s).1 in
  get key (cache s') = Some v
  ∧ (∀ k, k ≠ key → get k (cache s') = get k (cache s))
  ∧ (∀ now', getWithExpiry PLUGIN_VERSION key now' s'
             = Some (v, bool_decide (now' - now ≤ 24 * 60 * 60 * 1000)%Z))
  ∧ (∀ k now', fst <$> getWithExpiry PLUGIN_VERSION k now' s' = get k (cache s')).
Proof.
  intros Hi. unfold call. rewrite Hi. unfold run_call, set. cbn [fst].
  match goal with |- context [save ?x] => destruct (save_fields x) as (Hc & _ & Hp & _) end.
  cbv zeta. unfold get, getWithExpiry. rewrite Hc, Hp. cbn [cache this_preferred].
  split; [by rewrite lookup_insert_eq|].
  split; [intros k Hk; by rewrite lookup_insert_ne|].
  split.
  - intros now'. rewrite lookup_insert_eq. cbn [value]. f_equal. f_equal.
    unfold expired. cbn [version preferred updated].
    rewrite (bool_decide_eq_false_2 (Some PLUGIN_VERSION ≠ Some PLUGIN_VERSION)) by (by intros H).
    rewrite (bool_decide_eq_false_2 (this_preferred s ≠ this_preferred s)) by (by intros H).
    unfold ttl, MS. simpl app.
    destruct (Z.ltb_spec (24 * 60 * 60 * 1000) (now' - now)) as [Hlt | Hle].
    + rewrite bool_decide_eq_false_2 by done. rewrite bool_decide_eq_false_2; [done | lia].
    + rewrite bool_decide_eq_true_2 by done. rewrite bool_decide_eq_true_2; [done | lia].
  - intros k now'. by destruct (<[key:=_]> (cache s) !! k).
Qed.

Lemma run_call_initialised (c : Call V) (s : State V) :
  initialised (run_call PLUGIN_VERSION c s).1 = initialised s.
Proof.
  destruct c as [key | key v now]; [done|]. unfold run_call, set. cbn [fst].
  match goal with |- context [save ?x] => by destruct (save_fields x) as (_ & -> & _) end.
Qed.

Lemma run_calls_direct (cs : list (Call V)) (s : State V) :
  initialised s = true →
  run PLUGIN_VERSION (map InCall cs) s = run_calls PLUGIN_VERSION cs s.
Proof.
  revert s. induction cs as [|c cs IH]; intros s Hi; [done|].
  cbn [map run run_calls step]. unfold call. rewrite Hi.
  pose proof (run_call_initialised c s) as H.
  destruct (run_call PLUGIN_VERSION c s) as [s1 evs1]. cbn [fst] in H.
  rewrite IH by congruence. done.
Qed.

Lemma run_calls_queued (cs : list (Call V)) (rest : list (Input V)) (s : State V) :
  initialised s = false →
  run PLUGIN_VERSION (map InCall cs ++ rest) s
  = run PLUGIN_VERSION rest
      {| this_preferred := this_preferred s; initialised := false;
         waiting := waiting s ++ cs; cache := cache s; saving := saving s;
         pendingSave := pendingSave s; jobs := jobs s; nextJob := nextJob s |}.
Proof.
  revert s. induction cs as [|c cs IH]; intros s Hi.
  { simpl. rewrite app_nil_r. destruct s. simpl in Hi. by subst. }
  cbn [map app run step]. unfold call. rewrite Hi. cbn beta iota.
  rewrite IH by done. cbn [this_preferred waiting cache saving pendingSave jobs nextJob].
  rewrite <- app_assoc. cbn [app]. by destruct (run _ rest _).
Qed.

(** X13.  Every method of the cache awaits [this.initialised] first.  Calls
    made while the stored cache is still being read therefore take effect
    exactly as if they were made, in the same order, right after it has been
    read: same results of [get], same entries, same saves.  In particular
    the stored cache never overwrites a value that was set early. *)
Theorem calls_wait_for_load (preferred' : string) (cs : list (Call V)) (r : Stored V) :
  run PLUGIN_VERSION (map InCall cs ++ [InLoaded r]) (new_cache preferred')
  = run PLUGIN_VERSION (InLoaded r :: map InCall cs) (new_cache preferred').
Proof.
  rewrite run_calls_queued by done.
  cbn [run step]. unfold loaded. cbn [initialised new_cache waiting app].
  destruct (match r with
            | StoredCache c => (c, EvLoaded (Some (size c)))
            | StoredNothing => (cache (new_cache preferred'), EvLoaded None)
            | StoredError => (cache (new_cache preferred'), EvLoadFailed)
            end) as [c ev] eqn:E.
  cbn [cache new_cache this_preferred saving pendingSave jobs nextJob] in *.
  rewrite E. cbn [run_calls]. rewrite run_calls_direct by done.
  destruct (run_calls _ cs _) as [s1 evs]. by rewrite app_nil_r.
Qed.

(** ** Saving *)

Lemma last_snapshot_app (evs1 evs2 : list (Ev V)) :
  last_snapshot (evs1 ++ evs2)
  = match last_snapshot evs2 with
    | Some c => Some c
    | None => last_snapshot evs1
    end.
Proof.
  unfold last_snapshot. rewrite omap_app.
  destruct (omap _ evs2) as [|x l] using rev_ind; [by rewrite app_nil_r|].
  rewrite app_assoc, !last_snoc. done.
Qed.

Lemma saved_or_pending_run_call (c : Call V) (s : State V) evs b :
  initialised s = true → saved_or_pending s evs b →
  saved_or_pending (run_call PLUGIN_VERSION c s).1
    (evs ++ (run_call PLUGIN_VERSION c s).2) (b || is_set c).
Proof.
  intros Hi [H1 H2]. destruct c as [key | key v now].
  - simpl. rewrite orb_false_r. split.
    + intros Hp. rewrite last_snapshot_app. simpl. by apply H1.
    + intros H. congruence.
  - unfold run_call, set. cbn [fst snd].
    match goal with |- context [save ?x] =>
      destruct (save_fields x) as (_ & Hi' & _ & _ & Hp) end.
    split; [done|]. rewrite Hi'. simpl. intros H. congruence.
Qed.

Lemma saved_or_pending_run_calls (cs : list (Call V)) (s : State V) evs b :
  initialised s = true → saved_or_pending s evs b →
  saved_or_pending (run_calls PLUGIN_VERSION cs s).1
    (evs ++ (run_calls PLUGIN_VERSION cs s).2) (b || existsb is_set cs).
Proof.
  revert s evs b. induction cs as [|c cs IH]; intros s evs b Hi H.
  { simpl. by rewrite app_nil_r, orb_false_r. }
  cbn [run_calls existsb].
  pose proof (saved_or_pending_run_call c s evs b Hi H) as H1.
  pose proof (run_call_initialised c s) as Hi1.
  destruct (run_call PLUGIN_VERSION c s) as [s1 evs1]. cbn [fst snd] in *.
  pose proof (IH s1 (evs ++ evs1) (b || is_set c) ltac:(congruence) H1) as H2.
  destruct (run_calls PLUGIN_VERSION cs s1) as [s2 evs2]. cbn [fst snd] in *.
  by rewrite app_assoc, orb_assoc.
Qed.

Lemma saved_or_pending_step (i : Input V) (s : State V) evs b :
  saved_or_pending s evs b →
  saved_or_pending (step PLUGIN_VERSION i s).1 (evs ++ (step PLUGIN_VERSION i s).2)
    (b || match i with InCall c => is_set c | _ => false end).
Proof.
  intros H. destruct i as [c | r | j | j ok]; cbn [step].
  - unfold call. destruct (initialised s) eqn:Hi; [by apply saved_or_pending_run_call|].
    destruct H as [H1 H2]. destruct (H2 Hi) as (Hp & Hj & Hl & Hb).
    cbn [fst snd]. rewrite app_nil_r.
    split; cbn [pendingSave initialised cache waiting jobs].
    + intros _. right. by rewrite andb_false_r.
    + intros _. split; [done|]. split; [done|]. split; [done|].
      rewrite existsb_app. simpl. rewrite orb_false_r. congruence.
  - rewrite orb_false_r. unfold loaded.
    destruct (initialised s) eqn:Hi; [simpl; by rewrite app_nil_r|].
    destruct H as [H1 H2]. destruct (H2 Hi) as (Hp & Hj & Hl & Hb).
    destruct (match r with
              | StoredCache c => (c, EvLoaded (Some (size c)))
              | StoredNothing => (cache s, EvLoaded None)
              | StoredError => (cache s, EvLoadFailed)
              end) as [c ev] eqn:Ec.
    match goal with |- context [run_calls _ _ ?x] => set (s0 := x) end.
    assert (Hev : last_snapshot (evs ++ [ev]) = None).
    { rewrite last_snapshot_app. destruct r; injection Ec as <- <-; done. }
    assert (H0 : saved_or_pending s0 (evs ++ [ev]) false).
    { split; [|done]. intros _. by right. }
    pose proof (saved_or_pending_run_calls (waiting s) s0 (evs ++ [ev]) false eq_refl H0) as H3.
    destruct (run_calls PLUGIN_VERSION (waiting s) s0) as [s1 evs1]. cbn [fst snd] in *.
    rewrite <- app_assoc in H3. simpl in H3. by rewrite Hb.
  - rewrite orb_false_r. unfold immediate, phase_of.
    destruct (initialised s) eqn:Hi.
    + destruct (snd <$> head (filter (λ x, x.1 = j) (jobs s))) as [[k| |]|];
        try (simpl; by rewrite app_nil_r).
      cbn [fst snd]. split; cbn [pendingSave initialised cache waiting jobs].
      * intros _. left. rewrite last_snapshot_app. done.
      * intros Hi'. congruence.
    + destruct H as [H1 H2]. destruct (H2 Hi) as (Hp & Hj & Hl & Hb).
      rewrite Hj. simpl. rewrite app_nil_r. by split.
  - rewrite orb_false_r. unfold written, phase_of.
    destruct (initialised s) eqn:Hi.
    + destruct (snd <$> head (filter (λ x, x.1 = j) (jobs s))) as [[k| |]|];
        try (simpl; by rewrite app_nil_r).
      destruct H as [H1 H2].
      cbn [fst snd]. split; cbn [pendingSave initialised cache waiting jobs].
      * intros Hp. rewrite last_snapshot_app. rewrite Hi in H1. destruct ok; simpl; by apply H1.
      * intros Hi'. congruence.
    + destruct H as [H1 H2]. destruct (H2 Hi) as (Hp & Hj & Hl & Hb).
      rewrite Hj. simpl. rewrite app_nil_r. by split.
Qed.

Lemma saved_or_pending_run (ins : list (Input V)) (s : State V) evs b :
  saved_or_pending s evs b →
  saved_or_pending (run PLUGIN_VERSION ins s).1 (evs ++ (run PLUGIN_VERSION ins s).2)
    (b || has_set ins).
Proof.
  revert s evs b. induction ins as [|i ins IH]; intros s evs b H.
  { simpl. by rewrite app_nil_r, orb_false_r. }
  cbn [run has_set existsb].
  pose proof (saved_or_pending_step i s evs b H) as H1.
  destruct (step PLUGIN_VERSION i s) as [s1 evs1]. cbn [fst snd] in *.
  pose proof (IH s1 (evs ++ evs1) _ H1) as H2.
  destruct (run PLUGIN_VERSION ins s1) as [s2 evs2]. cbn [fst snd] in *.
  rewrite app_assoc. unfold has_set in H2. by rewrite orb_assoc.
Qed.

(** X14.  No value that was set is lost on the way to the storage.  Whatever
    the calls and whenever the immediates and the writes complete: when no
    save is pending, the cache as it was last handed to [persist.setItem] is
    the cache as it is now, provided [set] has been called and the cache has
    been loaded.  ([set] always leaves a save pending, and the pending save
    hands over the cache as it is when its turn comes.) *)
Theorem no_set_is_left_unsaved (preferred' : string) (ins : list (Input V)) :
  let r := run PLUGIN_VERSION ins (new_cache preferred') in
  has_set ins = true → initialised r.1 = true → pendingSave r.1 = None →
  last_snapshot r.2 = Some (cache r.1).
Proof.
  intros r Hs Hi Hp.
  assert (H0 : saved_or_pending (new_cache (V := V) preferred') [] false) by (by split; [right|]).
  pose proof (saved_or_pending_run ins _ [] false H0) as [H1 _].
  fold r in H1. simpl in H1. rewrite Hs, Hi in H1.
  destruct (H1 Hp) as [H | H]; [done | discriminate H].
Qed.

Lemma phase_of_Some (j : nat) (s : State V) ph :
  phase_of j s = Some ph → (j, ph) ∈ jobs s.
Proof.
  unfold phase_of. intros H.
  destruct (head (filter (λ x, x.1 = j) (jobs s))) as [[j' ph']|] eqn:E; [|done].
  simpl in H. injection H as ->. apply head_Some_elem_of in E.
  apply list_elem_of_filter in E as [Hj Hin]. simpl in Hj. by subst j'.
Qed.

Lemma jobs_ok_save (s : State V) : jobs_ok s → jobs_ok (save s).
Proof.
  intros (H1 & H2 & H3 & H4). unfold save.
  destruct (pendingSave s) as [p|] eqn:Ep; [done|].
  rewrite Forall_forall in H2, H3.
  split; [|split; [|split]]; cbn [jobs nextJob saving pendingSave].
  - rewrite map_app. apply NoDup_app. split; [done|]. split; [|apply NoDup_singleton].
    intros n Hn Hn'. apply list_elem_of_singleton in Hn'. simpl in Hn'. subst n.
    apply list_elem_of_fmap in Hn as (x & Hx & Hin). specialize (H2 x Hin). lia.
  - apply Forall_app. split.
    + apply Forall_forall. intros x Hx. specialize (H2 x Hx). simpl. lia.
    + constructor; [simpl; lia | constructor].
  - apply Forall_app. split.
    + apply Forall_forall. intros x Hx. specialize (H3 x Hx).
      unfold job_ok in *. cbn [saving pendingSave].
      destruct (x.2); [destruct H3; congruence | destruct H3; congruence | done].
    + constructor; [|constructor]. unfold job_ok. cbn [snd fst saving pendingSave].
      by destruct (saving s).
  - intros k Hk. apply elem_of_app. left. by apply H4.
Qed.

Lemma jobs_ok_cache (s : State V) (c : gmap string (CacheItem V)) (w : list (Call V))
    (i : bool) :
  jobs_ok s →
  jobs_ok (V := V)
          {| this_preferred := this_preferred s; initialised := i; waiting := w;
             cache := c; saving := saving s; pendingSave := pendingSave s;
             jobs := jobs s; nextJob := nextJob s |}.
Proof. done. Qed.

Lemma jobs_ok_run_call (c : Call V) (s : State V) :
  jobs_ok s → jobs_ok (run_call PLUGIN_VERSION c s).1.
Proof.
  intros H. destruct c as [key | key v now]; [done|].
  unfold run_call, set. cbn [fst]. apply jobs_ok_save. by apply jobs_ok_cache.
Qed.

Lemma jobs_ok_run_calls (cs : list (Call V)) (s : State V) :
  jobs_ok s → jobs_ok (run_calls PLUGIN_VERSION cs s).1.
Proof.
  revert s. induction cs as [|c cs IH]; intros s H; [done|].
  cbn [run_calls]. pose proof (jobs_ok_run_call c s H) as H1.
  destruct (run_call PLUGIN_VERSION c s) as [s1 evs1]. cbn [fst] in H1.
  pose proof (IH s1 H1) as H2. by destruct (run_calls PLUGIN_VERSION cs s1).
Qed.

Lemma jobs_ok_step (i : Input V) (s : State V) :
  jobs_ok s → jobs_ok (step PLUGIN_VERSION i s).1.
Proof.
  intros H. destruct i as [c | r | j | j ok]; cbn [step].
  - unfold call. destruct (initialised s); [by apply jobs_ok_run_call|].
    cbn [fst]. by apply jobs_ok_cache.
  - unfold loaded. destruct (initialised s); [done|].
    destruct (match r with
              | StoredCache c => (c, EvLoaded (Some (size c)))
              | StoredNothing => (cache s, EvLoaded None)
              | StoredError => (cache s, EvLoadFailed)
              end) as [c ev].
    match goal with |- context [run_calls _ _ ?x] =>
      pose proof (jobs_ok_run_calls (waiting s) x (jobs_ok_cache s c [] true H)) as H1;
      by destruct (run_calls PLUGIN_VERSION (waiting s) x)
    end.
  - unfold immediate. destruct (phase_of j s) as [[k| |]|] eqn:Ep; try done.
    apply phase_of_Some in Ep. destruct H as (H1 & H2 & H3 & H4).
    rewrite Forall_forall in H2, H3.
    destruct (H3 _ Ep) as [Hp Hs]. cbn [fst snd] in Hp, Hs.
    assert (Hfst : map fst (set_phase j AwaitWrite (jobs s)) = map fst (jobs s)).
    { unfold set_phase. rewrite map_map. apply map_ext. intros [a ph]. simpl.
      by destruct (decide (a = j)) as [->|]. }
    assert (Hin : ∀ x, x ∈ set_phase j AwaitWrite (jobs s) → x = (j, AwaitWrite)).
    { intros x Hx. unfold set_phase in Hx. apply list_elem_of_fmap in Hx as (y & -> & Hy).
      destruct (decide (y.1 = j)); [done|]. exfalso.
      specialize (H3 y Hy). unfold job_ok in H3.
      destruct (y.2); [destruct H3 | destruct H3 |]; congruence. }
    cbn [fst]. split; [|split; [|split]]; cbn [jobs nextJob saving pendingSave].
    + by rewrite Hfst.
    + apply Forall_forall. intros x Hx. rewrite (Hin x Hx). simpl. by apply (H2 _ Ep).
    + apply Forall_forall. intros x Hx. rewrite (Hin x Hx). by unfold job_ok.
    + intros k Hk. rewrite Hp in Hk. injection Hk as <-.
      unfold set_phase. apply list_elem_of_fmap. exists (j, AwaitImmediate).
      split; [|done]. simpl. by rewrite decide_True.
  - unfold written. destruct (phase_of j s) as [[k| |]|] eqn:Ep; try done.
    apply phase_of_Some in Ep. destruct H as (H1 & H2 & H3 & H4).
    rewrite Forall_forall in H2, H3.
    pose proof (H3 _ Ep) as Hs. unfold job_ok in Hs. cbn [fst snd] in Hs.
    assert (Hfst : map fst (release j (filter (λ x, x.1 ≠ j) (jobs s)))
                   = map fst (filter (λ x, x.1 ≠ j) (jobs s))).
    { unfold release. rewrite map_map. apply map_ext. intros [a ph]. simpl.
      destruct ph as [k| |]; [|done|done]. by destruct (decide (k = j)). }
    assert (Hin : ∀ x, x ∈ release j (filter (λ x, x.1 ≠ j) (jobs s)) →
                       x.2 = AwaitImmediate ∧ pendingSave s = Some x.1
                       ∧ ∃ y, y ∈ jobs s ∧ y.1 = x.1).
    { intros x Hx. unfold release in Hx. apply list_elem_of_fmap in Hx as (y & -> & Hy).
      apply list_elem_of_filter in Hy as [Hne Hy].
      specialize (H3 y Hy). unfold job_ok in H3.
      destruct y as [a ph]. simpl in *.
      destruct ph as [k| |]; [|destruct H3; congruence|congruence].
      destruct H3 as [H31 H32]. rewrite Hs in H32. injection H32 as <-.
      rewrite decide_True by done. simpl. repeat split; [done|]. by exists (a, AwaitSaving j). }
    cbn [fst]. split; [|split; [|split]]; cbn [jobs nextJob saving pendingSave].
    + rewrite Hfst. eapply sublist_NoDup; [exact H1|]. apply (fmap_sublist fst), sublist_filter.
    + apply Forall_forall. intros x Hx. destruct (Hin x Hx) as (_ & _ & y & Hy & <-).
      by apply H2.
    + apply Forall_forall. intros x Hx. destruct (Hin x Hx) as (Hph & Hp & _).
      unfold job_ok. rewrite Hph. done.
    + done.
Qed.

Lemma jobs_ok_run (ins : list (Input V)) (s : State V) :
  jobs_ok s → jobs_ok (run PLUGIN_VERSION ins s).1.
Proof.
  revert s. induction ins as [|i ins IH]; intros s H; [done|].
  cbn [run]. pose proof (jobs_ok_step i s H) as H1.
  destruct (step PLUGIN_VERSION i s) as [s1 evs1]. cbn [fst] in H1.
  pose proof (IH s1 H1) as H2. by destruct (run PLUGIN_VERSION ins s1).
Qed.

(** X15.  The cache is written by one [persist.setItem] at a time, and
    saves are coalesced.  Whatever the calls and whenever the immediates and
    the writes complete, at most one write to the storage is under way and at
    most one further save is pending behind it: so at most two jobs of
    [doSave] exist, however many values are set. *)
Theorem one_write_at_a_time (preferred' : string) (ins : list (Input V)) :
  let s := (run PLUGIN_VERSION ins (new_cache preferred')).1 in
  writes_under_way s ≤ 1
  ∧ how_many (λ x, negb (is_writing x)) (jobs s) ≤ 1
  ∧ length (jobs s) ≤ 2.
Proof.
  intros s.
  assert (H : jobs_ok s).
  { apply jobs_ok_run. split; [constructor|]. split; [constructor|]. split; [constructor|]. done. }
  destruct H as (H1 & H2 & H3 & H4). rewrite Forall_forall in H3.
  assert (Hw : writes_under_way s ≤ 1).
  { unfold writes_under_way.
    apply (same_handle_once fst _ _ (default 0 (saving s))); [done|].
    intros x Hx Hp. specialize (H3 x Hx). unfold job_ok, is_writing in *.
    destruct (x.2); try done. by rewrite H3. }
  assert (Hq : how_many (λ x, negb (is_writing x)) (jobs s) ≤ 1).
  { apply (same_handle_once fst _ _ (default 0 (pendingSave s))); [done|].
    intros x Hx Hp. specialize (H3 x Hx). unfold job_ok, is_writing in *.
    destruct (x.2); try done; destruct H3 as [-> _]; done. }
  split; [done|]. split; [done|].
  assert (Hlen : length (jobs s)
                 = writes_under_way s + how_many (λ x, negb (is_writing x)) (jobs s)).
  { unfold writes_under_way, how_many. clear. induction (jobs s) as [|x l IH]; [done|].
    destruct (is_writing x) eqn:E.
    - rewrite (filter_cons_True (λ x, is_writing x = true)) by done.
      rewrite (filter_cons_False (λ x, negb (is_writing x) = true)) by (by rewrite E).
      simpl. lia.
    - rewrite (filter_cons_False (λ x, is_writing x = true)) by (by rewrite E).
      rewrite (filter_cons_True (λ x, negb (is_writing x) = true)) by (by rewrite E).
      simpl. lia. }
  lia.
Qed.

End WithValues.

Lemma set_then_get_witness :
  let s := (loaded (V := Z) "1.2.3" StoredNothing (new_cache "en-GB")).1 in
  initialised s = true
  ∧ getWithExpiry "1.2.3" "Appliance power" 86400000
      (call "1.2.3" (CallSet "Appliance power" 7%Z 0%Z) s).1 = Some (7%Z, true)
  ∧ getWithExpiry "1.2.3" "Appliance power" 86400001
      (call "1.2.3" (CallSet "Appliance power" 7%Z 0%Z) s).1 = Some (7%Z, false).
Proof.
  intros s. split; [reflexivity|].
  pose proof (set_then_get "1.2.3" s "Appliance power" 7%Z 0%Z eq_refl) as (_ & _ & H & _).
  split; rewrite H; reflexivity.
Defined.

Lemma no_set_is_left_unsaved_witness :
  let r := run "1.2.3" two_sets (new_cache "en-GB") in
  has_set two_sets = true ∧ initialised r.1 = true ∧ pendingSave r.1 = None
  ∧ last_snapshot r.2 = Some (cache r.1)
  ∧ get "Appliance power" (cache r.1) = Some 2%Z
  ∧ length (jobs r.1) = 1.
Proof.
  intros r.
  assert (H1 : has_set two_sets = true) by reflexivity.
  assert (H2 : initialised r.1 = true) by reflexivity.
  assert (H3 : pendingSave r.1 = None) by reflexivity.
  split; [exact H1|]. split; [exact H2|]. split; [exact H3|].
  split; [exact (no_set_is_left_unsaved "1.2.3" "en-GB" two_sets H1 H2 H3)|].
  split; reflexivity.
Defined.

End PersistCacheFacts.

(** * The power switch *)

Module HasPowerFacts.
Import HasPower.

Lemma last_cons_or {A} (x : A) (l : list A) :
  last (x :: l) = match last l with Some y => Some y | None => Some x end.
Proof. destruct l as [|y l]; [done|]. rewrite last_cons. by destruct (last (y :: l)). Qed.

Lemma debounced_update s : debounced s → debounced (update s).
Proof.
  intros [H | (t & H & Hs)]; right; exists (nextId s); unfold update; simpl.
  - rewrite H. by destruct (scheduled s).
  - rewrite Hs, H. rewrite filter_cons_False by (by intros ?). done.
Qed.

Lemma debounced_step i s : debounced s → debounced (step i s).1.
Proof.
  intros H. destruct i as [v | v | t]; simpl.
  - by apply debounced_update.
  - by apply debounced_update.
  - case_bool_decide as Ht; [|done]. left. simpl.
    destruct H as [H | (t' & H & Hs)]; rewrite H in *.
    + by apply elem_of_nil in Ht.
    + apply list_elem_of_singleton in Ht. subst t'.
      by rewrite filter_cons_False by (by intros ?).
Qed.

Lemma latest_connected_cons i ins :
  latest_connected (i :: ins)
  = match latest_connected ins with
    | Some c => Some c
    | None => match i with InConnected v => Some v | _ => None end
    end.
Proof.
  unfold latest_connected.
  destruct i as [v | v | t];
    [change (omap _ (InPower v :: ins)) with (omap (λ i, match i with InConnected v => Some v | _ => None end) ins)
    |change (omap _ (InConnected v :: ins)) with (v :: omap (λ i, match i with InConnected v => Some v | _ => None end) ins)
    |change (omap _ (InTimer t :: ins)) with (omap (λ i, match i with InConnected v => Some v | _ => None end) ins)].
  - by destruct (last _).
  - apply last_cons_or.
  - by destruct (last _).
Qed.

Lemma latest_power_cons i ins :
  latest_power (i :: ins)
  = match latest_power ins with
    | Some c => Some c
    | None => match i with InPower v => Some v | _ => None end
    end.
Proof.
  unfold latest_power.
  destruct i as [v | v | t];
    [change (omap _ (InPower v :: ins)) with (v :: omap (λ i, match i with InPower v => Some v | _ => None end) ins)
    |change (omap _ (InConnected v :: ins)) with (omap (λ i, match i with InPower v => Some v | _ => None end) ins)
    |change (omap _ (InTimer t :: ins)) with (omap (λ i, match i with InPower v => Some v | _ => None end) ins)].
  - apply last_cons_or.
  - by destruct (last _).
  - by destruct (last _).
Qed.

Lemma run_state ins s :
  debounced s →
  debounced (run ins s).1
  ∧ isDisconnected (run ins s).1
    = match latest_connected ins with
      | Some c => Some (negb (truthy c))
      | None => isDisconnected s
      end
  ∧ isOn (run ins s).1
    = match latest_power ins with
      | Some p => Some (bool_decide (p = PowerState_On))
      | None => isOn s
      end.
Proof.
  revert s. induction ins as [|i ins IH]; intros s Hd; [done|].
  cbn [run]. pose proof (debounced_step i s Hd) as H1.
  assert (Hfields :
    isDisconnected (step i s).1
    = match i with InConnected c => Some (negb (truthy c)) | _ => isDisconnected s end
    ∧ isOn (step i s).1
      = match i with InPower p => Some (bool_decide (p = PowerState_On)) | _ => isOn s end).
  { destruct i as [v | v | t]; simpl; try done. by case_bool_decide. }
  destruct Hfields as [Hf1 Hf2].
  destruct (step i s) as [s1 evs1]. cbn [fst] in *.
  destruct (IH s1 H1) as (H2 & H3 & H4).
  destruct (run ins s1) as [s2 evs2]. cbn [fst] in *.
  split; [done|]. rewrite latest_connected_cons, latest_power_cons. split.
  - rewrite H3, Hf1. destruct (latest_connected ins); [done|]. by destruct i.
  - rewrite H4, Hf2. destruct (latest_power ins); [done|]. by destruct i.
Qed.

(** X16.  The power switch is updated at most once per turn of the event
    loop, from the latest state.  Whatever notifications of the power setting
    and of the connection arrive and whichever timers fire, at most one
    timer of [update] is pending, the one scheduled last; when it fires, the
    characteristic is set from the latest notification of each kind: to off
    when the appliance was last reported disconnected, whatever its power
    setting; else to whether the power setting was last reported [On]; and
    not at all while no power setting has been reported. *)
Theorem power_switch_shows_latest_state (ins : list Input) :
  let s := (run ins init).1 in
  length (timers s) ≤ 1
  ∧ (∀ t, t ∈ timers s →
       scheduled s = Some t
       ∧ (step (InTimer t) s).2
         = match shown (latest_connected ins) (latest_power ins) with
           | Some on =>
               [EvLog on (default false ((λ c, negb (truthy c)) <$> latest_connected ins));
                EvUpdateCharacteristic on]
           | None => []
           end
       ∧ timers (step (InTimer t) s).1 = []).
Proof.
  intros s. destruct (run_state ins init) as (Hd & Hc & Ho); [by left|].
  fold s in Hd, Hc, Ho. simpl in Hc, Ho.
  split.
  - destruct Hd as [-> | (t & -> & _)]; simpl; lia.
  - intros t Ht. destruct Hd as [H | (t' & H & Hs)]; rewrite H in Ht.
    { by apply elem_of_nil in Ht. }
    apply list_elem_of_singleton in Ht. subst t'. split; [done|].
    simpl. rewrite H. rewrite bool_decide_eq_true_2 by (by apply list_elem_of_singleton).
    cbn [fst snd timers]. split; [|by rewrite filter_cons_False by (by intros ?)].
    unfold elapsed, powerOn, shown. rewrite Hc, Ho.
    destruct (latest_connected ins) as [c|]; simpl; [|by destruct (latest_power ins)].
    destruct (truthy c); simpl; [|done]. by destruct (latest_power ins).
Qed.

End HasPowerFacts.

(** * The power switch on its device *)

Lemma find_call_new (l : list (nat * Cont)) n c d :
  Forall (λ x, x.1 < n) l → calls d = l ++ [(n, c)] → find_call n d = Some c.
Proof.
  intros Hl Hc. unfold find_call. rewrite Hc, filter_app.
  rewrite (filter_none (λ x, x.1 = n) l).
  - by rewrite filter_cons_True.
  - rewrite Forall_forall in Hl. intros x Hx Heq. specialize (Hl x Hx). lia.
Qed.

(** X17.  A write of the power setting reaches the power switch.  For an
    appliance that is connected, with the [Settings] scope and remote control
    allowed, [setSetting] of the power setting sends exactly one request to
    the transport.  When it is confirmed the value is stored, the blackout of
    the power state workaround is armed, the listener of the switch is told
    the value, and the timer this schedules sets the characteristic: to on
    for the value [On] on an appliance that does not count as disconnected,
    to off else.  When the request fails, the store is left as it was, the
    switch is told nothing and the caller gets the error. *)
Theorem power_setting_write_reaches_the_switch
    (a : Api) (d : Device) (v : Value) (s : HasPower.State) :
  listeners d = accessory_listeners → calls_fresh d →
  is_connected d = true → hasScope a d "Settings" = true → requireRemoteControl a d = None →
  HasPower.debounced s →
  let cid := nextId d in
  let called := step (InCall (SetSetting K_PowerState v)) (a, d) in
  let on := match HasPower.isDisconnected s with
            | Some true => false
            | _ => bool_decide (v = PowerState_On)
            end in
  called.2 = [EvCall cid (ApiSetSetting K_PowerState v)]
  ∧ (let confirmed := step (InResponse cid RUndefined) called.1 in
     getItem K_PowerState confirmed.1.2 = v
     ∧ blackoutScheduled confirmed.1.2 ≠ None
     ∧ power_switch_inputs confirmed.2 = [HasPower.InPower v]
     ∧ EvSettled cid Returned ∈ confirmed.2
     ∧ (HasPower.run (power_switch_inputs confirmed.2 ++ [HasPower.InTimer (HasPower.nextId s)]) s).2
       = [HasPower.EvLog on (default false (HasPower.isDisconnected s));
          HasPower.EvUpdateCharacteristic on])
  ∧ (∀ e, let failed := step (InResponse cid (RFail e)) called.1 in
          items failed.1.2 = items d
          ∧ power_switch_inputs failed.2 = []
          ∧ failed.2 = [EvLog (LogOpError (SetSetting K_PowerState v) e);
                        EvSettled cid (Threw e)]).
Proof.
  intros Hls Hfresh Hc Hscope Hrc Hdeb cid called on.
  assert (Hbegin : op_begin a d (SetSetting K_PowerState v)
                   = BCall (ApiSetSetting K_PowerState v) (SetSetting K_PowerState v)).
  { unfold op_begin, gated, gate_seq, requireSettings, requireScope,
      gate_seq, requireConnected. by rewrite Hscope, Hc, Hrc. }
  assert (Hcalled : called = (a, (add_call (KUser (SetSetting K_PowerState v)) d).2,
                              [EvCall cid (ApiSetSetting K_PowerState v)])).
  { subst called. unfold step, call_op. by rewrite Hbegin. }
  rewrite Hcalled. cbn [fst snd]. split; [done|].
  set (d1 := (add_call (KUser (SetSetting K_PowerState v)) d).2).
  assert (Hfind : find_call cid d1 = Some (KUser (SetSetting K_PowerState v))).
  { by apply (find_call_new (calls d)). }
  split.
  - cbv zeta. unfold step. rewrite Hfind. cbn [cont_op well_shaped].
    unfold op_resume.
    assert (Hup : update [item K_PowerState v] (remove_call cid d1)
                  = (arm_blackout (set_items (<[K_PowerState := v]> (items d)) (remove_call cid d1)),
                     [EvEmit K_PowerState v 2;
                      EvNotify 1 K_PowerState v (<[K_PowerState := v]> (items d))])).
    { unfold update, update_with. cbn [notify_all store_all foldl key value item].
      unfold notify_item, listenerCount.
      cbn [listeners set_items remove_call set_calls d1 add_call snd set_nextId key value item].
      rewrite Hls. unfold accessory_listeners.
      cbn [call_listeners listener_key].
      rewrite (decide_True (P := K_PowerState = K_PowerState)) by done.
      rewrite !(decide_False (P := K_OperationState = K_PowerState)) by done.
      rewrite !(decide_False (P := K_connected = K_PowerState)) by done.
      cbn beta iota. unfold observer_never_throws, arm_blackout.
      cbn [blackoutScheduled set_items remove_call set_calls set_nextId].
      destruct (blackoutScheduled d); reflexivity. }
    rewrite Hup. cbn [fst snd].
    split; [unfold getItem, arm_blackout; simpl; destruct (blackoutScheduled d); simpl;
            by rewrite lookup_insert_eq|].
    split; [unfold arm_blackout; simpl; by destruct (blackoutScheduled d)|].
    split; [reflexivity|].
    split; [apply elem_of_app; right; by apply list_elem_of_singleton|].
    change (power_switch_inputs _) with [HasPower.InPower v]. simpl.
    assert (Ht : HasPower.nextId s ∈
                 match HasPower.scheduled s with
                 | Some t => filter (λ x, x ≠ t) (HasPower.timers s)
                 | None => HasPower.timers s
                 end ++ [HasPower.nextId s]).
    { apply elem_of_app. right. by apply list_elem_of_singleton. }
    rewrite (bool_decide_eq_true_2 _ Ht). simpl.
    unfold HasPower.elapsed, HasPower.powerOn. simpl. subst on.
    by destruct (HasPower.isDisconnected s) as [[|]|].
  - intros e. cbv zeta. unfold step. rewrite Hfind. cbn [cont_op well_shaped].
    unfold op_resume, op_throw. cbn [suppressed fst snd].
    done.
Qed.

(** The oven of a generic accessory is switched to standby. *)
Lemma power_setting_write_reaches_the_switch_witness :
  let d := set_listeners accessory_listeners oven in
  let called := step (InCall (SetSetting K_PowerState PowerState_Standby)) (all_scopes, d) in
  let confirmed := step (InResponse 1 RUndefined) called.1 in
  listeners d = accessory_listeners ∧ calls_fresh d ∧ is_connected d = true
  ∧ hasScope all_scopes d "Settings" = true ∧ requireRemoteControl all_scopes d = None
  ∧ HasPower.debounced HasPower.init
  ∧ called.2 = [EvCall 1 (ApiSetSetting K_PowerState PowerState_Standby)]
  ∧ (HasPower.run (power_switch_inputs confirmed.2 ++ [HasPower.InTimer 0]) HasPower.init).2
    = [HasPower.EvLog false false; HasPower.EvUpdateCharacteristic false].
Proof.
  intros d called confirmed.
  assert (H2 : calls_fresh d) by constructor.
  assert (H3 : HasPower.debounced HasPower.init) by (by left).
  destruct (power_setting_write_reaches_the_switch all_scopes d PowerState_Standby
              HasPower.init eq_refl H2 eq_refl eq_refl eq_refl H3) as (H4 & (_ & _ & _ & _ & H5) & _).
  split; [reflexivity|]. split; [exact H2|]. split; [reflexivity|].
  split; [reflexivity|]. split; [reflexivity|]. split; [exact H3|].
  split; [exact H4 | exact H5].
Defined.

(** * Requests made while their operation is being performed *)

Module SerialiseWaiting.
Import Serialise SerialiseFacts.

(** [serialise] for an operation that is being performed and has no pending
    request: a request is created and left unscheduled. *)
Lemma serialise_active op opts s q :
  find op s = Some {| operation := op; pending := None; active := Some q |} →
  serialise op opts s
  = (set_entry {| operation := op;
                  pending := Some {| options := opts; resolve := [nextId s];
                                     reject := [nextId s]; scheduled := None |};
                  active := Some q |}
       {| serialiseOps := serialiseOps s; timers := timers s; running := running s;
          nextId := S (nextId s) |},
     nextId s, [EvCreating]).
Proof. intros Hf. unfold serialise, ensure_entry. rewrite Hf. reflexivity. Qed.

(** The operation settles while a request is pending: the request gets its
    timer. *)
Lemma settled_step_pending exec op result s p :
  invariant s → lookup_id exec (running s) = Some op →
  pending (entry_of op s) = Some p →
  timers (step (InSettled exec result) s).1 = timers s ++ [(nextId s, op)]
  ∧ entry_of op (step (InSettled exec result) s).1
    = {| operation := op; pending := Some (with_scheduled (Some (nextId s)) p);
         active := None |}
  ∧ nextId (step (InSettled exec result) s).1 = S (nextId s).
Proof.
  intros Hinv Hl Hp. pose proof Hinv as (Ht & [Hnd Hlt] & Hall).
  destruct (for_op_remove _ _ _ _ (conj Hnd Hlt) Hl) as [Hlen Hoth].
  assert (Hf : find op s = Some (entry_of op s)) by (apply entry_found; [done | lia]).
  destruct (Hall op) as (Hnr & Hnt & Hcond).
  pose proof (entry_of_operation op s) as Hop.
  destruct (entry_of op s) as [op0 pend act] eqn:Ee. simpl in *. subst op0 pend.
  destruct act as [q|]; [|lia].
  unfold step. rewrite Hl. unfold settle, finish, find in *. simpl. rewrite Hf. simpl.
  assert (Hfound : ∀ s3, serialiseOps s3 = serialiseOps s → find op s3 ≠ None).
  { intros s3 H3. unfold find. by rewrite H3, Hf. }
  destruct (scheduled p) eqn:Es; [done|].
  set (e' := {| operation := op; pending := Some (with_scheduled (Some (nextId s)) p);
                active := None |}).
  split; [done|]. split; [|done].
  by apply (entry_of_set_eq e'), Hfound.
Qed.

(** X18.  A request made while its operation is being performed is not
    added to the request that is being performed and starts nothing: it
    becomes a new pending request, without a timer.  The operation under
    way settles exactly as it would without the new request; only then the
    new request gets its timer, and when that fires the operation is
    performed again, with the options of the new request alone, and its
    result or error goes to the promise of the new request. *)
Theorem request_during_execution_waits_its_turn
    (ins : list Input) (op exec : nat) (opts : gmap string Value)
    (result result' : Value + Error) :
  let s := (run ins init).1 in
  lookup_id exec (running s) = Some op → pending (entry_of op s) = None →
  let requested := serialise op opts s in
  let promise := requested.1.2 in
  let settled := step (InSettled exec result) requested.1.1 in
  let t := nextId requested.1.1 in
  let performed := step (InTimer t) settled.1 in
  requested.2 = [EvCreating]
  ∧ timers requested.1.1 = timers s ∧ running requested.1.1 = running s
  ∧ settled.2 = (step (InSettled exec result) s).2
  ∧ timers settled.1 = timers s ++ [(t, op)]
  ∧ performed.2 = [EvPerforming (S t) op opts]
  ∧ (step (InSettled (S t) result') performed.1).2
    = match result' with
      | inl v => [EvResolve promise v]
      | inr e => [EvReject promise e]
      end.
Proof.
  intros s Hl Hp0.
  assert (Hinv : invariant s) by apply run_invariant, invariant_init.
  pose proof Hinv as (Ht & [Hnd Hlt] & Hall).
  destruct (for_op_remove _ _ _ _ (conj Hnd Hlt) Hl) as [Hlen _].
  assert (Hf : find op s = Some (entry_of op s)) by (apply entry_found; [done | lia]).
  destruct (settled_step exec op result s Hinv Hl) as (q & Hq & Hev & _).
  pose proof (entry_of_operation op s) as Hop.
  destruct (entry_of op s) as [op0 pend act] eqn:Ee. simpl in Hp0, Hq, Hop. subst op0 pend act.
  cbv zeta. rewrite (serialise_active op opts s q Hf). cbn [fst snd].
  set (p := {| options := opts; resolve := [nextId s]; reject := [nextId s];
               scheduled := None |}).
  set (s1 := set_entry _ _).
  assert (Hinv1 : invariant s1).
  { pose proof (serialise_invariant op opts s Hinv) as H.
    by rewrite (serialise_active op opts s q Hf) in H. }
  assert (He1 : entry_of op s1 = {| operation := op; pending := Some p; active := Some q |}).
  { apply (entry_of_set_eq {| operation := op; pending := Some p; active := Some q |}).
    unfold find. simpl. unfold find in Hf. by rewrite Hf. }
  assert (Hl1 : lookup_id exec (running s1) = Some op) by done.
  destruct (settled_step exec op result s1 Hinv1 Hl1) as (q1 & Hq1 & Hev1 & _ & Hrun2 & Hinv2).
  rewrite He1 in Hq1. simpl in Hq1. injection Hq1 as <-.
  destruct (settled_step_pending exec op result s1 p Hinv1 Hl1) as (Ht2 & He2 & Hn2).
  { by rewrite He1. }
  change (nextId s1) with (S (nextId s)) in *.
  set (s2 := (step (InSettled exec result) s1).1) in *.
  assert (Hl2 : lookup_id (S (nextId s)) (timers s2) = Some op).
  { rewrite Ht2. unfold lookup_id. change (timers s1) with (timers s). rewrite filter_app.
    rewrite (filter_none (λ x, x.1 = S (nextId s)) (timers s)).
    - by rewrite filter_cons_True.
    - destruct Ht as [_ Hlt']. rewrite Forall_forall in Hlt'.
      intros x Hx Heq. specialize (Hlt' x Hx). lia. }
  destruct (timer_step (S (nextId s)) op s2 Hinv2 Hl2) as (p2 & Hp2 & Ha2 & Hstep).
  rewrite He2 in Hp2. simpl in Hp2. injection Hp2 as <-.
  assert (Hinv3 : invariant (step (InTimer (S (nextId s))) s2).1)
    by exact (timer_step_invariant _ op s2 Hinv2 Hl2).
  assert (Hf2 : find op s2 = Some (entry_of op s2)).
  { apply entry_found; [done|]. unfold for_op. rewrite Ht2, filter_app, length_app.
    rewrite (filter_cons_True (λ x, x.2 = op)) by done. simpl. lia. }
  split; [done|]. split; [done|]. split; [done|].
  split; [by rewrite Hev1, Hev|]. split; [done|].
  rewrite Hstep in Hinv3 |- *. rewrite Hn2 in Hinv3 |- *. cbn [fst snd] in Hinv3 |- *.
  split; [done|].
  match type of Hinv3 with invariant ?x => set (s3 := x) in * end.
  assert (Hl3 : lookup_id (S (S (nextId s))) (running s3) = Some op).
  { unfold s3. cbn [running]. unfold lookup_id. rewrite filter_app.
    rewrite (filter_none (λ x, x.1 = S (S (nextId s))) (running s2)).
    - by rewrite filter_cons_True.
    - destruct Hinv2 as (_ & [_ Hlt'] & _). rewrite Forall_forall in Hlt'.
      intros x Hx Heq. specialize (Hlt' x Hx). lia. }
  destruct (settled_step (S (S (nextId s))) op result' s3 Hinv3 Hl3) as (q3 & Hq3 & Hev3 & _).
  assert (He3 : entry_of op s3
                = {| operation := op; pending := None;
                     active := Some (with_scheduled (Some (S (nextId s))) p) |}).
  { pose proof (entry_of_set_eq {| operation := op; pending := None;
                  active := Some (with_scheduled (Some (S (nextId s))) p) |} s2) as H.
    unfold s3. unfold entry_of, find, set_entry in *. simpl in *. apply H.
    by rewrite Hf2. }
  rewrite He3 in Hq3. simpl in Hq3. injection Hq3 as <-.
  rewrite Hev3. by destruct result'.
Qed.

(** A request is being performed when a second one, with another duration,
    arrives: the second is performed on its own afterwards. *)
Lemma request_during_execution_waits_its_turn_witness :
  let duration := "BSH.Common.Option.Duration" in
  let ins := [InSerialise 7 {[duration := VNum 60]}; InTimer 0] in
  let s := (run ins init).1 in
  let s1 := (serialise 7 {[duration := VNum 90]} s).1.1 in
  let s2 := (step (InSettled 2 (inl (VBool true))) s1).1 in
  lookup_id 2 (running s) = Some 7 ∧ pending (entry_of 7 s) = None
  ∧ (step (InSettled 2 (inl (VBool true))) s1).2 = [EvResolve 1 (VBool true)]
  ∧ (step (InTimer 4) s2).2 = [EvPerforming 5 7 {[duration := VNum 90]}]
  ∧ (step (InSettled 5 (inr ErrOffline)) (step (InTimer 4) s2).1).2
    = [EvReject 3 ErrOffline].
Proof.
  intros duration ins s s1 s2.
  assert (Hl : lookup_id 2 (running s) = Some 7) by reflexivity.
  assert (Hp : pending (entry_of 7 s) = None) by reflexivity.
  pose proof (request_during_execution_waits_its_turn ins 7 2 {[duration := VNum 90]}
                (inl (VBool true)) (inr ErrOffline) Hl Hp) as H.
  cbv zeta in H. destruct H as (_ & _ & _ & H4 & _ & H6 & H7).
  split; [exact Hl|]. split; [exact Hp|].
  split; [exact (eq_trans H4 eq_refl)|].
  split; [exact H6 | exact H7].
Defined.

End SerialiseWaiting.
